(** * Multiple-shooting trajectory problems and rollout buffers

    A shallow embedding of [dart/trajectory/MultiShot.cpp] and
    [dart/trajectory/TrajectoryRollout.cpp].

    Conventions of the embedding.
    - [double] values are an abstract type [F] with the handful of operations
      the code applies to them (class [Scalar]); data is only copied, negated
      and subtracted, so nothing else about IEEE arithmetic is needed.
    - An [Eigen::VectorXd] is a [list F]; [v.segment(c, n)] read is
      [segment v c n] and [v.segment(c, n) = e] is [write_segment c e v].
    - An [Eigen::MatrixXd] is a record with its row count and the list of its
      columns (Eigen stores column-major).
    - Dimensions and cursors ([int] in the source) are [nat]; the constructor
      loop, which subtracts, runs on [Z].
    - [std::unordered_map<std::string, _>] is [gmap string _].
    - Output parameters ([/* OUT */ Eigen::Ref]) are passed in and returned.
    - The simulator ([simulation::World]), the base class [AbstractShot] and
      the numerical kernels of [SingleShot] live in other translation units;
      they are interfaces here (classes [Simulator], [ShotKernels],
      [ShotMembers], [AbstractShot]).
    - Blocks and segments are taken within the matrix or vector they are
      taken from, which Eigen asserts; statements about slices carry that
      condition where it matters. *)

From stdpp Require Import base numbers option list gmap strings fin_maps pretty.

(** ** Scalars *)

Class Scalar (F : Type) := {
  (** [0.0] as produced by [setZero()] and [MatrixXd::Zero] *)
  szero : F;
  (** [1.0] as produced by [VectorXd::Ones] and on the diagonal of [Identity] *)
  sone : F;
  (** the [int] literal [-1] promoted to [double] *)
  sneg1 : F;
  smul : F → F → F;
  ssub : F → F → F;
}.

(** Facts of arithmetic used when matrices are compared numerically
    (threshold [0]): [-1 * 1 = 1 * -1] and [-1 * 0 = 0]. *)
Class ScalarLaws (F : Type) `{Scalar F} := {
  smul_neg1_one : smul sneg1 sone = smul sone sneg1;
  smul_neg1_zero : smul sneg1 szero = szero;
}.

(** ** Vectors *)

(** [v.segment(cursor, n)] as a value. *)
Definition segment {A} (v : list A) (cursor n : nat) : list A :=
  take n (drop cursor v).

(** [v.segment(cursor, length e) = e]. *)
Definition write_segment {A} (cursor : nat) (e : list A) (v : list A) : list A :=
  list_inserts cursor e v.

(** Coefficient-wise [a - b]. *)
Definition vsub `{Scalar F} (a b : list F) : list F := zip_with ssub a b.

(** ** Matrices *)

Record MatrixXd (F : Type) := mkMatrix {
  mat_rows : nat;
  mat_cols : list (list F);
}.
Arguments mkMatrix {F} _ _.
Arguments mat_rows {F} _.
Arguments mat_cols {F} _.

(** [MatrixXd::Zero(r, c)] *)
Definition Zero `{Scalar F} (r c : nat) : MatrixXd F :=
  mkMatrix r (replicate c (replicate r szero)).

(** [m.cols()] *)
Definition cols {F} (m : MatrixXd F) : nat := length (mat_cols m).

(** [m(i, j)] read; [None] outside the matrix. *)
Definition coeff {F} (m : MatrixXd F) (i j : nat) : option F :=
  mat_cols m !! j ≫= λ c, c !! i.

(** [m(i, j) = x] *)
Definition set_coeff {F} (i j : nat) (x : F) (m : MatrixXd F) : MatrixXd F :=
  mkMatrix (mat_rows m) (alter (λ c, <[i := x]> c) j (mat_cols m)).

(** [m.col(j)] read. *)
Definition col {F} (m : MatrixXd F) (j : nat) : option (list F) :=
  mat_cols m !! j.

(** [m.col(j) = v] *)
Definition set_col {F} (j : nat) (v : list F) (m : MatrixXd F) : MatrixXd F :=
  mkMatrix (mat_rows m) (alter (λ c, write_segment 0 v c) j (mat_cols m)).

(** ** Loops *)

(** [for (int i = lo; i < lo + n; i++) body], over a state [St]; [None] is an
    out-of-range element access inside the body. *)
Fixpoint for_loop {St} (body : nat → St → option St) (lo n : nat) (s : St)
    : option St :=
  match n with
  | 0 => Some s
  | S n' => s' ← body lo s; for_loop body (S lo) n' s'
  end.

(** ** Mappings and the simulator *)

(** The three dimensions of a [neural::Mapping]. *)
Record Mapping := mkMapping {
  getPosDim : nat;
  getVelDim : nat;
  getForceDim : nat;
}.

(** The operations of [simulation::World] the trajectory code calls. *)
Class Simulator (F World : Type) := {
  getNumDofs : World → nat;
  getPositions : World → list F;
  getVelocities : World → list F;
  setPositions : list F → World → World;
  setVelocities : list F → World → World;
  setForces : list F → World → World;
  step : World → World;
}.

(** ** Single shots *)

(** The members of [SingleShot] that [MultiShot] reads and writes. *)
Record SingleShot (F : Type) := mkSingleShot {
  mSteps : nat;
  mTuneStartingState : bool;
  mStartPos : list F;
  mStartVel : list F;
  mForces : MatrixXd F;
  shotMapping : Mapping;
}.
Arguments mkSingleShot {F} _ _ _ _ _ _.
Arguments mSteps {F} _.
Arguments mTuneStartingState {F} _.
Arguments mStartPos {F} _.
Arguments mStartVel {F} _.
Arguments mForces {F} _.
Arguments shotMapping {F} _.

(** Modelled from the spec: the constructor of [SingleShot] is not among the
    sources.  A single shot is "constructed with a simulator reference, a
    loss, a step count, and the flag" and owns start vectors in the
    representation mapping and a [forceDim x steps] force matrix; the initial
    representation is the identity mapping over the degrees of freedom, the
    start state is the state of the world and the forces are zero. *)
Definition SingleShot_new `{Scalar F} `{Simulator F World}
    (world : World) (steps : nat) (tuneStartingState : bool) : SingleShot F :=
  let n := getNumDofs world in
  mkSingleShot steps tuneStartingState
    (getPositions world) (getVelocities world) (Zero n steps)
    (mkMapping n n n).

(** Modelled from the spec: [SingleShot::getNumSteps] is not among the
    sources; it reads the step count the shot was constructed with, the member
    [mSteps] that [MultiShot::getStates] reads directly. *)
Definition SingleShot_getNumSteps {F} (s : SingleShot F) : nat := mSteps s.

(** ** Construction of a multi-shot problem *)

(** The members of [MultiShot].  [mTotalSteps] is the member [mSteps] of the
    base class and [mTuneStart] is [mTuneStartingState]: the names of the
    members of [SingleShot] are taken. *)
Record MultiShot (F : Type) := mkMultiShot {
  mShots : list (SingleShot F);
  mTotalSteps : Z;
  mShotLength : Z;
  mTuneStart : bool;
  mRepresentationMapping : Mapping;
}.
Arguments mkMultiShot {F} _ _ _ _ _.
Arguments mShots {F} _.
Arguments mTotalSteps {F} _.
Arguments mShotLength {F} _.
Arguments mTuneStart {F} _.
Arguments mRepresentationMapping {F} _.

(** The [while (stepsRemaining > 0)] loop of the constructor.  The loop does
    not terminate when [shotLength <= 0], so it runs on fuel; [None] is
    fuel exhausted.  The step count of a shot is positive on every run that
    terminates, so its conversion to [nat] loses nothing. *)
Fixpoint MultiShot_loop `{Scalar F} `{Simulator F World}
    (fuel : nat) (world : World) (shotLength : Z) (tuneStartingState : bool)
    (stepsRemaining : Z) (isFirst : bool) (shots : list (SingleShot F))
    : option (list (SingleShot F)) :=
  if bool_decide (stepsRemaining > 0)%Z then
    match fuel with
    | 0 => None
    | S fuel' =>
        let shot := Z.min shotLength stepsRemaining in
        MultiShot_loop fuel' world shotLength tuneStartingState
          (stepsRemaining - shot)%Z false
          (shots ++ [SingleShot_new world (Z.to_nat shot)
                       (negb isFirst || tuneStartingState)])
    end
  else Some shots.

(** [MultiShot::MultiShot(world, loss, steps, shotLength, tuneStartingState)] *)
Definition MultiShot_new `{Scalar F} `{Simulator F World}
    (fuel : nat) (world : World) (steps shotLength : Z)
    (tuneStartingState : bool) : option (MultiShot F) :=
  shots ← MultiShot_loop fuel world shotLength tuneStartingState steps true [];
  Some (mkMultiShot shots steps shotLength tuneStartingState
          (let n := getNumDofs world in mkMapping n n n)).

(** ** The flat layout of a single shot *)

(** Modelled from the spec: [SingleShot::getFlatProblemDim] is not among the
    sources.  The flat layout is, in order, the start position and the start
    velocity if [tuneStartingState], then one force vector of [forceDim] per
    timestep. *)
Definition SingleShot_getFlatProblemDim {F} (s : SingleShot F) : nat :=
  let m := shotMapping s in
  (if mTuneStartingState s then getPosDim m + getVelDim m else 0)
  + getForceDim m * mSteps s.

(** Modelled from the spec: the loop of [SingleShot::flatten] over the
    timesteps, which is not among the sources.  It copies the force columns
    out, one [forceDim] segment per timestep. *)
Fixpoint flatten_forces {F} (columns : list (list F)) (forceDim cursor : nat)
    (flat : list F) : list F :=
  match columns with
  | [] => flat
  | c :: cs =>
      flatten_forces cs forceDim (cursor + forceDim)
        (write_segment cursor (take forceDim c) flat)
  end.

(** Modelled from the spec: the loop of [SingleShot::unflatten] over the
    timesteps, which is not among the sources.  It reads [steps] force columns
    back, one [forceDim] segment per timestep. *)
Fixpoint unflatten_forces {F} (steps forceDim cursor : nat) (flat : list F)
    : list (list F) :=
  match steps with
  | 0 => []
  | S k =>
      segment flat cursor forceDim
      :: unflatten_forces k forceDim (cursor + forceDim) flat
  end.

(** Modelled from the spec: [SingleShot::flatten] is not among the sources;
    "flatten/unflatten copy contiguous segments in and out of" the flat
    layout.  [flat] is the segment of the caller's vector handed to the
    shot. *)
Definition SingleShot_flatten {F} (s : SingleShot F) (flat : list F) : list F :=
  let m := shotMapping s in
  let columns := take (mSteps s) (mat_cols (mForces s)) in
  if mTuneStartingState s then
    flatten_forces columns (getForceDim m) (getPosDim m + getVelDim m)
      (write_segment (getPosDim m) (take (getVelDim m) (mStartVel s))
         (write_segment 0 (take (getPosDim m) (mStartPos s)) flat))
  else flatten_forces columns (getForceDim m) 0 flat.

(** Modelled from the spec: [SingleShot::unflatten] is not among the sources;
    it is the inverse copy of [SingleShot_flatten]. *)
Definition SingleShot_unflatten {F} (flat : list F) (s : SingleShot F)
    : SingleShot F :=
  let m := shotMapping s in
  if mTuneStartingState s then
    mkSingleShot (mSteps s) true
      (segment flat 0 (getPosDim m))
      (segment flat (getPosDim m) (getVelDim m))
      (mkMatrix (mat_rows (mForces s))
         (unflatten_forces (mSteps s) (getForceDim m)
            (getPosDim m + getVelDim m) flat))
      m
  else
    mkSingleShot (mSteps s) false (mStartPos s) (mStartVel s)
      (mkMatrix (mat_rows (mForces s))
         (unflatten_forces (mSteps s) (getForceDim m) 0 flat))
      m.

(** Modelled from the spec: [SingleShot::getStartState] is not among the
    sources; it "returns the concatenation of (start pos, start vel)". *)
Definition SingleShot_getStartState {F} (s : SingleShot F) : list F :=
  mStartPos s ++ mStartVel s.

(** ** Flattening a multi-shot problem *)

(** [MultiShot::getFlatProblemDim] *)
Definition MultiShot_getFlatProblemDim {F} (ms : MultiShot F) : nat :=
  foldl (λ sum shot, sum + SingleShot_getFlatProblemDim shot) 0 (mShots ms).

(** The range-for of [MultiShot::flatten], from [cursor] on. *)
Fixpoint flatten_shots {F} (shots : list (SingleShot F)) (cursor : nat)
    (flat : list F) : list F :=
  match shots with
  | [] => flat
  | shot :: rest =>
      let dim := SingleShot_getFlatProblemDim shot in
      flatten_shots rest (cursor + dim)
        (write_segment cursor
           (SingleShot_flatten shot (segment flat cursor dim)) flat)
  end.

(** [MultiShot::flatten] *)
Definition MultiShot_flatten {F} (ms : MultiShot F) (flat : list F) : list F :=
  flatten_shots (mShots ms) 0 flat.

(** The range-for of [MultiShot::unflatten], from [cursor] on. *)
Fixpoint unflatten_shots {F} (shots : list (SingleShot F)) (cursor : nat)
    (flat : list F) : list (SingleShot F) :=
  match shots with
  | [] => []
  | shot :: rest =>
      let dim := SingleShot_getFlatProblemDim shot in
      SingleShot_unflatten (segment flat cursor dim) shot
      :: unflatten_shots rest (cursor + dim) flat
  end.

(** [MultiShot::unflatten] *)
Definition MultiShot_unflatten {F} (flat : list F) (ms : MultiShot F)
    : MultiShot F :=
  mkMultiShot (unflatten_shots (mShots ms) 0 flat)
    (mTotalSteps ms) (mShotLength ms) (mTuneStart ms)
    (mRepresentationMapping ms).

(** ** Interfaces of the code outside this translation unit *)

(** The members of the base class [AbstractShot] that [MultiShot] calls on
    itself: custom (parent) constraints and their Jacobian.  Vectors and
    matrices are the segments and blocks handed over by [MultiShot]. *)
Class AbstractShot (F World : Type) := {
  AbstractShot_getConstraintDim : nat;
  AbstractShot_getNumberNonZeroJacobian : nat;
  AbstractShot_computeConstraints : World → list F → list F;
  AbstractShot_getConstraintUpperBounds : list F → list F;
  AbstractShot_getConstraintLowerBounds : list F → list F;
  AbstractShot_backpropJacobian : World → MatrixXd F → MatrixXd F;
  AbstractShot_getJacobianSparsityStructure :
    list nat → list nat → list nat * list nat;
}.

(** The members of [SingleShot] that run the simulator. *)
Class ShotKernels (F World : Type) := {
  SingleShot_getFinalState : World → SingleShot F → list F;
  SingleShot_backpropJacobianOfFinalState :
    World → SingleShot F → MatrixXd F → MatrixXd F;
  SingleShot_getStates :
    World → SingleShot F → MatrixXd F * MatrixXd F * MatrixXd F →
    MatrixXd F * MatrixXd F * MatrixXd F;
}.

(** ** Knot-point constraints *)

(** [mRepresentationMapping->getPosDim() + mRepresentationMapping->getVelDim()] *)
Definition stateDim {F} (ms : MultiShot F) : nat :=
  getPosDim (mRepresentationMapping ms) + getVelDim (mRepresentationMapping ms).

(** [MultiShot::getConstraintDim].  [mShots.size() - 1] is unsigned in the
    source; the truncated subtraction agrees with it whenever there is at
    least one shot. *)
Definition MultiShot_getConstraintDim `{AbstractShot F World}
    (ms : MultiShot F) : nat :=
  AbstractShot_getConstraintDim + stateDim ms * (length (mShots ms) - 1).

(** [MultiShot::computeConstraints] *)
Definition MultiShot_computeConstraints `{Scalar F} `{AbstractShot F World}
    `{ShotKernels F World} (ms : MultiShot F) (world : World)
    (constraints : list F) : option (list F) :=
  let numParentConstraints := AbstractShot_getConstraintDim in
  let constraints :=
    write_segment 0
      (AbstractShot_computeConstraints world
         (segment constraints 0 numParentConstraints)) constraints in
  let cursor := 0 + numParentConstraints in
  '(constraints, _) ←
    for_loop (λ i '(constraints, cursor),
        prev ← mShots ms !! (i - 1);
        next ← mShots ms !! i;
        Some (write_segment cursor
                (vsub (SingleShot_getFinalState world prev)
                      (SingleShot_getStartState next)) constraints,
              cursor + stateDim ms))
      1 (length (mShots ms) - 1) (constraints, cursor);
  Some constraints.

(** [flat.setZero()] *)
Definition setZero `{Scalar F} (flat : list F) : list F :=
  replicate (length flat) szero.

(** [MultiShot::getConstraintUpperBounds] *)
Definition MultiShot_getConstraintUpperBounds `{Scalar F}
    `{AbstractShot F World} (flat : list F) : list F :=
  let flat := setZero flat in
  write_segment 0
    (AbstractShot_getConstraintUpperBounds
       (segment flat 0 AbstractShot_getConstraintDim)) flat.

(** [MultiShot::getConstraintLowerBounds] *)
Definition MultiShot_getConstraintLowerBounds `{Scalar F}
    `{AbstractShot F World} (flat : list F) : list F :=
  let flat := setZero flat in
  write_segment 0
    (AbstractShot_getConstraintLowerBounds
       (segment flat 0 AbstractShot_getConstraintDim)) flat.

(** ** The constraint Jacobian, dense and sparse *)

(** [m.setZero()] *)
Definition mat_setZero `{Scalar F} (m : MatrixXd F) : MatrixXd F :=
  mkMatrix (mat_rows m) (setZero <$> mat_cols m).

(** [m.block(r, c, h, w)] as a value. *)
Definition block {F} (m : MatrixXd F) (r c h w : nat) : MatrixXd F :=
  mkMatrix h ((λ column, segment column r h) <$> segment (mat_cols m) c w).

(** Column [k] of the block goes to rows [r ..] of column [c + k]. *)
Fixpoint set_block_cols {F} (r c : nat) (b : list (list F))
    (columns : list (list F)) : list (list F) :=
  match b with
  | [] => columns
  | bc :: bs => set_block_cols r (S c) bs (alter (write_segment r bc) c columns)
  end.

(** [m.block(r, c, b.rows(), b.cols()) = b] *)
Definition set_block {F} (r c : nat) (b : MatrixXd F) (m : MatrixXd F)
    : MatrixXd F :=
  mkMatrix (mat_rows m) (set_block_cols r c (mat_cols b) (mat_cols m)).

(** [MatrixXd::Identity(n, n)] *)
Definition Identity `{Scalar F} (n : nat) : MatrixXd F :=
  mkMatrix n
    ((λ j, (λ i, if decide (i = j) then sone else szero) <$> seq 0 n)
       <$> seq 0 n).

(** [a * m] for a scalar [a] *)
Definition mat_scale `{Scalar F} (a : F) (m : MatrixXd F) : MatrixXd F :=
  mkMatrix (mat_rows m) ((λ c : list F, smul a <$> c) <$> mat_cols m).

(** [MultiShot::backpropJacobian].  The two leading assertions on the shape of
    [jac] are preconditions of the theorems about it. *)
Definition MultiShot_backpropJacobian `{Scalar F} `{AbstractShot F World}
    `{ShotKernels F World} (ms : MultiShot F) (world : World)
    (jac : MatrixXd F) : option (MatrixXd F) :=
  let rowCursor := 0 in
  let colCursor := 0 in
  let jac := mat_setZero jac in
  let numParentConstraints := AbstractShot_getConstraintDim in
  let n := MultiShot_getFlatProblemDim ms in
  let jac :=
    set_block 0 0
      (AbstractShot_backpropJacobian world
         (block jac 0 0 numParentConstraints n)) jac in
  let rowCursor := rowCursor + numParentConstraints in
  let stateDim := stateDim ms in
  '(jac, _, _) ←
    for_loop (λ i '(jac, rowCursor, colCursor),
        prev ← mShots ms !! (i - 1);
        let dim := SingleShot_getFlatProblemDim prev in
        let jac :=
          set_block rowCursor colCursor
            (SingleShot_backpropJacobianOfFinalState world prev
               (block jac rowCursor colCursor stateDim dim)) jac in
        let colCursor := colCursor + dim in
        let jac :=
          set_block rowCursor colCursor
            (mat_scale sneg1 (Identity stateDim)) jac in
        Some (jac, rowCursor + stateDim, colCursor))
      1 (length (mShots ms) - 1) (jac, rowCursor, colCursor);
  Some jac.

(** [MultiShot::getNumberNonZeroJacobian].  The loop bound
    [mShots.size() - 1] is unsigned: with no shots it wraps around and the
    first iteration reads [mShots[0]] out of range. *)
Definition MultiShot_getNumberNonZeroJacobian `{AbstractShot F World}
    (ms : MultiShot F) : option nat :=
  let nnzj := AbstractShot_getNumberNonZeroJacobian in
  let stateDim := stateDim ms in
  match mShots ms with
  | [] => None
  | _ =>
      for_loop (λ i nnzj,
          shot ← mShots ms !! i;
          let shotDim := SingleShot_getFlatProblemDim shot in
          let nnzj := nnzj + shotDim * stateDim in
          Some (nnzj + stateDim))
        0 (length (mShots ms) - 1) nnzj
  end.

(** The cursors and index vectors of [getJacobianSparsityStructure]. *)
Record SparsityState := mkSparsity {
  sp_rows : list nat;
  sp_cols : list nat;
  sparseCursor : nat;
}.

(** [rows(sparseCursor) = row; cols(sparseCursor) = col; sparseCursor++] *)
Definition emit (row column : nat) (st : SparsityState) : SparsityState :=
  mkSparsity (<[sparseCursor st := row]> (sp_rows st))
             (<[sparseCursor st := column]> (sp_cols st))
             (S (sparseCursor st)).

(** [MultiShot::getJacobianSparsityStructure] *)
Definition MultiShot_getJacobianSparsityStructure `{AbstractShot F World}
    (ms : MultiShot F) (rows columns : list nat)
    : option (list nat * list nat) :=
  let sparseCursor := 0 in
  let rowCursor := 0 in
  let colCursor := 0 in
  let numParentConstraints := AbstractShot_getConstraintDim in
  let n := MultiShot_getFlatProblemDim ms in
  let '(prows, pcols) :=
    AbstractShot_getJacobianSparsityStructure
      (segment rows 0 (n * numParentConstraints))
      (segment columns 0 (n * numParentConstraints)) in
  let rows := write_segment 0 prows rows in
  let columns := write_segment 0 pcols columns in
  let rowCursor := rowCursor + numParentConstraints in
  let stateDim := stateDim ms in
  '(st, _, _) ←
    for_loop (λ i '(st, rowCursor, colCursor),
        prev ← mShots ms !! (i - 1);
        let dim := SingleShot_getFlatProblemDim prev in
        st ← for_loop (λ column st,
                 for_loop (λ row st, Some (emit row column st))
                   rowCursor stateDim st)
               colCursor dim st;
        let colCursor := colCursor + dim in
        st ← for_loop (λ q st, Some (emit (rowCursor + q) (colCursor + q) st))
               0 stateDim st;
        Some (st, rowCursor + stateDim, colCursor))
      1 (length (mShots ms) - 1)
      (mkSparsity rows columns sparseCursor, rowCursor, colCursor);
  Some (sp_rows st, sp_cols st).

(** [MultiShot::getSparseJacobian] *)
Definition MultiShot_getSparseJacobian `{Scalar F} `{AbstractShot F World}
    `{ShotKernels F World} (ms : MultiShot F) (world : World)
    (sparse : list F) : option (list F) :=
  let sparseCursor := AbstractShot_getNumberNonZeroJacobian in
  let stateDim := stateDim ms in
  let neg := (λ x, smul x sneg1) <$> replicate stateDim sone in
  '(sparse, _) ←
    for_loop (λ i '(sparse, sparseCursor),
        prev ← mShots ms !! (i - 1);
        let dim := SingleShot_getFlatProblemDim prev in
        let jac := Zero stateDim dim in
        let jac := SingleShot_backpropJacobianOfFinalState world prev jac in
        '(sparse, sparseCursor) ←
          for_loop (λ column '(sparse, sparseCursor),
              c ← col jac column;
              Some (write_segment sparseCursor (take stateDim c) sparse,
                    sparseCursor + stateDim))
            0 dim (sparse, sparseCursor);
        let sparse := write_segment sparseCursor neg sparse in
        Some (sparse, sparseCursor + stateDim))
      1 (length (mShots ms) - 1) (sparse, sparseCursor);
  Some sparse.

(** The reconstruction loop of [verifySparseJacobian] in the test suite:
    [for (i < numSparse) recovered(rows(i), cols(i)) = sparseValues(i)]. *)
Definition scatter {F} (numSparse : nat) (rows columns : list nat)
    (sparseValues : list F) (recovered : MatrixXd F) : option (MatrixXd F) :=
  for_loop (λ i recovered,
      r ← rows !! i;
      c ← columns !! i;
      v ← sparseValues !! i;
      Some (set_coeff r c v recovered))
    0 numSparse recovered.

(** ** Reconstruction of the states *)

(** Modelled from the spec: [neural::RestorableSnapshot] is not among the
    sources.  The simulator lets a caller "acquire a restorable snapshot":
    constructing one saves the state of the world, and [restore()] (called
    explicitly, as [TrajectoryRollout::toJson] does before it returns) puts
    the saved state back. *)
Record RestorableSnapshot (World : Type) := mkSnapshot { savedWorld : World }.
Arguments mkSnapshot {World} _.
Arguments savedWorld {World} _.

(** [RestorableSnapshot snapshot(world)] *)
Definition RestorableSnapshot_new {World} (world : World)
    : RestorableSnapshot World := mkSnapshot world.

(** [snapshot.restore()]: the world is the saved one again. *)
Definition RestorableSnapshot_restore {World}
    (snapshot : RestorableSnapshot World) (world : World) : World :=
  savedWorld snapshot.

(** What [TrajectoryRollout::toJson] does to the simulator: it takes a
    snapshot, sets the positions of every timestep in turn to read the body
    transforms, and calls [snapshot.restore()] before it returns.  The JSON
    text it builds from the transforms is not part of this model. *)
Definition toJson_world `{Simulator F World} (identityPoses : list (list F))
    (world : World) : World :=
  let snapshot := RestorableSnapshot_new world in
  let world := foldl (λ world p, setPositions p world) world identityPoses in
  RestorableSnapshot_restore snapshot world.

(** The output matrices of [getStates]. *)
Record StatesOut (F : Type) := mkStates {
  out_poses : MatrixXd F;
  out_vels : MatrixXd F;
  out_forces : MatrixXd F;
}.
Arguments mkStates {F} _ _ _.
Arguments out_poses {F} _.
Arguments out_vels {F} _.
Arguments out_forces {F} _.

(** The body of the inner loop of the branch without knots, once the force
    column is read: apply the force, step, record into column [cursor]. *)
Definition record_step `{Simulator F World} (force : list F)
    (st : World * StatesOut F * nat) : World * StatesOut F * nat :=
  let '(world, out, cursor) := st in
  let world := setForces force world in
  let world := step world in
  let out :=
    mkStates (set_col cursor (getPositions world) (out_poses out))
             (set_col cursor (getVelocities world) (out_vels out))
             (set_col cursor force (out_forces out)) in
  (world, out, S cursor).

(** One iteration of the inner loop: [mShots[i]->mForces.col(j)] is read and
    replayed. *)
Definition replay_step `{Simulator F World} (shot : SingleShot F) (j : nat)
    (st : World * StatesOut F * nat) : option (World * StatesOut F * nat) :=
  force ← col (mForces shot) j;
  Some (record_step force st).

(** [MultiShot::getStates].  The result carries the simulator as the call
    leaves it.  The assertions on the shapes of the outputs are preconditions
    of the theorems. *)
Definition MultiShot_getStates `{Simulator F World} `{ShotKernels F World}
    (ms : MultiShot F) (world : World) (out : StatesOut F) (useKnots : bool)
    : option (World * StatesOut F) :=
  let posDim := getPosDim (mRepresentationMapping ms) in
  let velDim := getVelDim (mRepresentationMapping ms) in
  let forceDim := getForceDim (mRepresentationMapping ms) in
  let cursor := 0 in
  if useKnots then
    '(out, _) ←
      for_loop (λ i '(out, cursor),
          shot ← mShots ms !! i;
          let steps := SingleShot_getNumSteps shot in
          let '(p, v, f) :=
            SingleShot_getStates world shot
              (block (out_poses out) 0 cursor posDim steps,
               block (out_vels out) 0 cursor velDim steps,
               block (out_forces out) 0 cursor forceDim steps) in
          Some (mkStates (set_block 0 cursor p (out_poses out))
                         (set_block 0 cursor v (out_vels out))
                         (set_block 0 cursor f (out_forces out)),
                cursor + steps))
        0 (length (mShots ms)) (out, cursor);
    Some (world, out)
  else
    let snapshot := RestorableSnapshot_new world in
    first ← mShots ms !! 0;
    let world := setPositions (mStartPos first) world in
    let world := setVelocities (mStartVel first) world in
    '(world, out, _) ←
      for_loop (λ i st,
          shot ← mShots ms !! i;
          for_loop (replay_step shot) 0 (mSteps shot) st)
        0 (length (mShots ms)) (world, out, cursor);
    Some (world, out).

(** ** The remaining members of [MultiShot] *)

(** The members of [SingleShot] behind the remaining members of [MultiShot];
    none of them is among the sources.  Vectors and matrices are the segments
    and blocks handed over by [MultiShot]. *)
Class ShotMembers (F World : Type) := {
  SingleShot_getUpperBounds : World → SingleShot F → list F → list F;
  SingleShot_getLowerBounds : World → SingleShot F → list F → list F;
  SingleShot_getInitialGuess : World → SingleShot F → list F → list F;
  SingleShot_unroll :
    World → SingleShot F → MatrixXd F * MatrixXd F * MatrixXd F →
    MatrixXd F * MatrixXd F * MatrixXd F;
  SingleShot_backpropGradient :
    World → SingleShot F → MatrixXd F → MatrixXd F → MatrixXd F →
    list F → list F;
  SingleShot_getFlatDimName : SingleShot F → Z → string;
}.

(** The range-for that [getUpperBounds], [getLowerBounds] and
    [getInitialGuess] share, from [cursor] on: every shot fills
    [flat.segment(cursor, dim)]. *)
Fixpoint fill_shots {F} (fill : SingleShot F → list F → list F)
    (shots : list (SingleShot F)) (cursor : nat) (flat : list F) : list F :=
  match shots with
  | [] => flat
  | shot :: rest =>
      let dim := SingleShot_getFlatProblemDim shot in
      fill_shots fill rest (cursor + dim)
        (write_segment cursor (fill shot (segment flat cursor dim)) flat)
  end.

(** [MultiShot::getUpperBounds] *)
Definition MultiShot_getUpperBounds `{ShotMembers F World} (ms : MultiShot F)
    (world : World) (flat : list F) : list F :=
  fill_shots (SingleShot_getUpperBounds world) (mShots ms) 0 flat.

(** [MultiShot::getLowerBounds] *)
Definition MultiShot_getLowerBounds `{ShotMembers F World} (ms : MultiShot F)
    (world : World) (flat : list F) : list F :=
  fill_shots (SingleShot_getLowerBounds world) (mShots ms) 0 flat.

(** [MultiShot::getInitialGuess] *)
Definition MultiShot_getInitialGuess `{ShotMembers F World} (ms : MultiShot F)
    (world : World) (flat : list F) : list F :=
  fill_shots (SingleShot_getInitialGuess world) (mShots ms) 0 flat.

(** One iteration of the loops of [unroll] and of [getStates] with knots: the
    shot writes into the blocks of its [steps] columns from [cursor] on. *)
Definition write_shot_blocks {F}
    (kernel : SingleShot F → MatrixXd F * MatrixXd F * MatrixXd F →
              MatrixXd F * MatrixXd F * MatrixXd F)
    (mapping : Mapping) (shot : SingleShot F) (st : StatesOut F * nat)
    : StatesOut F * nat :=
  let '(out, cursor) := st in
  let dim := SingleShot_getNumSteps shot in
  let '(p, v, f) :=
    kernel shot
      (block (out_poses out) 0 cursor (getPosDim mapping) dim,
       block (out_vels out) 0 cursor (getVelDim mapping) dim,
       block (out_forces out) 0 cursor (getForceDim mapping) dim) in
  (mkStates (set_block 0 cursor p (out_poses out))
            (set_block 0 cursor v (out_vels out))
            (set_block 0 cursor f (out_forces out)),
   cursor + dim).

(** [MultiShot::unroll] *)
Definition MultiShot_unroll `{ShotMembers F World} (ms : MultiShot F)
    (world : World) (out : StatesOut F) : StatesOut F :=
  let cursor := 0 in
  (foldl (λ st shot,
      write_shot_blocks (SingleShot_unroll world)
        (mRepresentationMapping ms) shot st)
     (out, cursor) (mShots ms)).1.



(** The loop of [getFlatDimName] from shot [i] on, [shots] being
    [mShots[i], mShots[i + 1], ...]. *)
Fixpoint getFlatDimName_from `{ShotMembers F World}
    (shots : list (SingleShot F)) (i : nat) (dim : Z) : string :=
  match shots with
  | [] => "Error OOB"
  | shot :: rest =>
      let shotDim := Z.of_nat (SingleShot_getFlatProblemDim shot) in
      if bool_decide (dim < shotDim)%Z then
        "Shot " +:+ pretty i +:+ " " +:+ SingleShot_getFlatDimName shot dim
      else getFlatDimName_from rest (S i) (dim - shotDim)%Z
  end.

(** [MultiShot::getFlatDimName] *)
Definition MultiShot_getFlatDimName `{ShotMembers F World} (ms : MultiShot F)
    (dim : Z) : string :=
  getFlatDimName_from (mShots ms) 0 dim.


(** ** Rollout buffers *)

Module Rollout.

(** How a call ends: with a value, with a C++ exception, or in a failed
    [assert]. *)
Inductive outcome (A : Type) :=
  | Returns (a : A)
  | Throws (what : string)
  | AssertFails (message : string).
Arguments Returns {A} _.
Arguments Throws {A} _.
Arguments AssertFails {A} _.

(** [std::unordered_map::at] *)
Definition at_ {V} (m : gmap string V) (key : string) : outcome V :=
  match m !! key with
  | Some v => Returns v
  | None => Throws "std::out_of_range"
  end.

(** The members of [TrajectoryRolloutReal]. *)
Record TrajectoryRolloutReal (F : Type) := mkReal {
  mRepresentationMapping : string;
  mMappings : list string;
  mPoses : gmap string (MatrixXd F);
  mVels : gmap string (MatrixXd F);
  mForces : gmap string (MatrixXd F);
  mMasses : list F;
  mMetadata : gmap string (MatrixXd F);
}.
Arguments mkReal {F} _ _ _ _ _ _ _.
Arguments mRepresentationMapping {F} _.
Arguments mMappings {F} _.
Arguments mPoses {F} _.
Arguments mVels {F} _.
Arguments mForces {F} _.
Arguments mMasses {F} _.
Arguments mMetadata {F} _.

(** The body of [for (auto pair : mappings)] in the constructor. *)
Definition add_mapping `{Scalar F} (steps : nat)
    (r : TrajectoryRolloutReal F) (pair : string * Mapping)
    : TrajectoryRolloutReal F :=
  mkReal (mRepresentationMapping r)
    (mMappings r ++ [pair.1])
    (<[pair.1 := Zero (getPosDim pair.2) steps]> (mPoses r))
    (<[pair.1 := Zero (getVelDim pair.2) steps]> (mVels r))
    (<[pair.1 := Zero (getForceDim pair.2) steps]> (mForces r))
    (mMasses r) (mMetadata r).

(** [TrajectoryRolloutReal::TrajectoryRolloutReal(mappings, steps,
    representationMapping, massDim, metadata)].  The map is visited in the
    order of its enumeration. *)
Definition TrajectoryRolloutReal_new `{Scalar F}
    (mappings : gmap string Mapping) (steps : nat)
    (representationMapping : string) (massDim : nat)
    (metadata : gmap string (MatrixXd F)) : TrajectoryRolloutReal F :=
  let r :=
    foldl (add_mapping steps)
      (mkReal representationMapping [] ∅ ∅ ∅ [] metadata)
      (map_to_list mappings) in
  mkReal (mRepresentationMapping r) (mMappings r) (mPoses r) (mVels r)
    (mForces r) (replicate massDim szero) (mMetadata r).

(** The double-quote character. *)
Definition dquote : string := String (Stdlib.Strings.Ascii.ascii_of_nat 34) EmptyString.

(** The first line of the diagnostic of [getMetadata]. *)
Definition missing_key_warning (key : string) : string :=
  "Warning: Asking TrajectoryRollout for metadata key " +:+ dquote +:+ key
  +:+ dquote +:+ " that doesn't exist! Keys that do exist:".

(** One line per existing key. *)
Definition key_line (key : string) : string :=
  "   - " +:+ dquote +:+ key +:+ dquote.

(** What a call of [getMetadata] yields: the returned matrix, the lines
    written to [std::cout], and the rollout after the call. *)
Record MetadataResult (F : Type) := mkMetadataResult {
  returned : outcome (MatrixXd F);
  printed : list string;
  rollout_after : TrajectoryRolloutReal F;
}.
Arguments mkMetadataResult {F} _ _ _.
Arguments returned {F} _.
Arguments printed {F} _.
Arguments rollout_after {F} _.

(** [TrajectoryRolloutReal::getMetadata] *)
Definition getMetadata `{Scalar F} (r : TrajectoryRolloutReal F)
    (key : string) : MetadataResult F :=
  match mMetadata r !! key with
  | None =>
      mkMetadataResult (Returns (Zero 0 0))
        (missing_key_warning key
         :: ((λ pair : string * MatrixXd F, key_line pair.1)
               <$> map_to_list (mMetadata r)))
        r
  | Some _ => mkMetadataResult (at_ (mMetadata r) key) [] r
  end.

(** [TrajectoryRolloutReal::setMetadata] *)
Definition setMetadata_real {F} (key : string) (value : MatrixXd F)
    (r : TrajectoryRolloutReal F) : TrajectoryRolloutReal F :=
  mkReal (mRepresentationMapping r) (mMappings r) (mPoses r) (mVels r)
    (mForces r) (mMasses r) (<[key := value]> (mMetadata r)).

(** The three implementations of the interface [TrajectoryRollout]; a slice
    points at the rollout it slices. *)
Inductive TrajectoryRollout (F : Type) :=
  | Real (r : TrajectoryRolloutReal F)
  | Ref (mToSlice : TrajectoryRollout F) (mStart mLen : nat)
  | ConstRef (mToSlice : TrajectoryRollout F) (mStart mLen : nat).
Arguments Real {F} _.
Arguments Ref {F} _ _ _.
Arguments ConstRef {F} _ _ _.

(** The message of the assertion in every mutating member of
    [TrajectoryRolloutConstRef]. *)
Definition const_ref_message : string :=
  "It should be impossible to get a mutable reference from a TrajectorRolloutConstRef".

(** [m.block(0, mStart, m.rows(), mLen)] of a returned matrix. *)
Definition slice_of {F} (mStart mLen : nat) (m : outcome (MatrixXd F))
    : outcome (MatrixXd F) :=
  match m with
  | Returns m => Returns (block m 0 mStart (mat_rows m) mLen)
  | Throws what => Throws what
  | AssertFails message => AssertFails message
  end.

(** [getPosesConst], for the three implementations. *)
Fixpoint getPosesConst {F} (t : TrajectoryRollout F) (mapping : string)
    : outcome (MatrixXd F) :=
  match t with
  | Real r => at_ (mPoses r) mapping
  | Ref s mStart mLen => slice_of mStart mLen (getPosesConst s mapping)
  | ConstRef s mStart mLen => slice_of mStart mLen (getPosesConst s mapping)
  end.

(** [getVelsConst] *)
Fixpoint getVelsConst {F} (t : TrajectoryRollout F) (mapping : string)
    : outcome (MatrixXd F) :=
  match t with
  | Real r => at_ (mVels r) mapping
  | Ref s mStart mLen => slice_of mStart mLen (getVelsConst s mapping)
  | ConstRef s mStart mLen => slice_of mStart mLen (getVelsConst s mapping)
  end.

(** [getForcesConst] *)
Fixpoint getForcesConst {F} (t : TrajectoryRollout F) (mapping : string)
    : outcome (MatrixXd F) :=
  match t with
  | Real r => at_ (mForces r) mapping
  | Ref s mStart mLen => slice_of mStart mLen (getForcesConst s mapping)
  | ConstRef s mStart mLen => slice_of mStart mLen (getForcesConst s mapping)
  end.

(** [getMassesConst] *)
Fixpoint getMassesConst {F} (t : TrajectoryRollout F) : outcome (list F) :=
  match t with
  | Real r => Returns (mMasses r)
  | Ref s _ _ => getMassesConst s
  | ConstRef s _ _ => getMassesConst s
  end.

(** [getPoses]: the matrix the returned mutable reference views.  In
    [TrajectoryRolloutConstRef] the body is the failing assertion alone; built
    with [NDEBUG] it has no [return] statement at all. *)
Fixpoint getPoses {F} (t : TrajectoryRollout F) (mapping : string)
    : outcome (MatrixXd F) :=
  match t with
  | Real r => at_ (mPoses r) mapping
  | Ref s mStart mLen => slice_of mStart mLen (getPoses s mapping)
  | ConstRef _ _ _ => AssertFails const_ref_message
  end.

(** [getVels] *)
Fixpoint getVels {F} (t : TrajectoryRollout F) (mapping : string)
    : outcome (MatrixXd F) :=
  match t with
  | Real r => at_ (mVels r) mapping
  | Ref s mStart mLen => slice_of mStart mLen (getVels s mapping)
  | ConstRef _ _ _ => AssertFails const_ref_message
  end.

(** [getForces] *)
Fixpoint getForces {F} (t : TrajectoryRollout F) (mapping : string)
    : outcome (MatrixXd F) :=
  match t with
  | Real r => at_ (mForces r) mapping
  | Ref s mStart mLen => slice_of mStart mLen (getForces s mapping)
  | ConstRef _ _ _ => AssertFails const_ref_message
  end.

(** [getMasses] *)
Fixpoint getMasses {F} (t : TrajectoryRollout F) : outcome (list F) :=
  match t with
  | Real r => Returns (mMasses r)
  | Ref s _ _ => getMasses s
  | ConstRef _ _ _ => AssertFails const_ref_message
  end.

(** [setMetadata]: the rollout after the call. *)
Fixpoint setMetadata {F} (t : TrajectoryRollout F) (key : string)
    (value : MatrixXd F) : outcome (TrajectoryRollout F) :=
  match t with
  | Real r => Returns (Real (setMetadata_real key value r))
  | Ref s mStart mLen =>
      match setMetadata s key value with
      | Returns s' => Returns (Ref s' mStart mLen)
      | Throws what => Throws what
      | AssertFails message => AssertFails message
      end
  | ConstRef _ _ _ => AssertFails const_ref_message
  end.

(** *** The rest of the rollout interface *)

(** Sequencing of calls that may throw or fail an assertion. *)
Definition and_then {A B} (m : outcome A) (k : A → outcome B) : outcome B :=
  match m with
  | Returns a => k a
  | Throws what => Throws what
  | AssertFails message => AssertFails message
  end.

(** [TrajectoryRollout::slice] *)
Definition slice {F} (t : TrajectoryRollout F) (start len : nat)
    : TrajectoryRollout F := Ref t start len.

(** [TrajectoryRollout::sliceConst] *)
Definition sliceConst {F} (t : TrajectoryRollout F) (start len : nat)
    : TrajectoryRollout F := ConstRef t start len.

(** [getRepresentationMapping], for the three implementations. *)
Fixpoint getRepresentationMapping {F} (t : TrajectoryRollout F) : string :=
  match t with
  | Real r => mRepresentationMapping r
  | Ref s _ _ => getRepresentationMapping s
  | ConstRef s _ _ => getRepresentationMapping s
  end.

(** [getMappings] *)
Fixpoint getMappings {F} (t : TrajectoryRollout F) : list string :=
  match t with
  | Real r => mMappings r
  | Ref s _ _ => getMappings s
  | ConstRef s _ _ => getMappings s
  end.

(** [getMetadataMap] *)
Fixpoint getMetadataMap {F} (t : TrajectoryRollout F)
    : gmap string (MatrixXd F) :=
  match t with
  | Real r => mMetadata r
  | Ref s _ _ => getMetadataMap s
  | ConstRef s _ _ => getMetadataMap s
  end.

(** [getMetadata] through the interface: the slices hand the call to the
    rollout they slice. *)
Fixpoint getMetadata_virtual `{Scalar F} (t : TrajectoryRollout F)
    (key : string) : MetadataResult F :=
  match t with
  | Real r => getMetadata r key
  | Ref s _ _ => getMetadata_virtual s key
  | ConstRef s _ _ => getMetadata_virtual s key
  end.

(** The loop [for (std::string key : copy->getMappings())] of the deep copy
    constructor, over the maps built so far. *)
Fixpoint copy_mappings {F} (copy : TrajectoryRollout F) (keys : list string)
    (r : TrajectoryRolloutReal F) : outcome (TrajectoryRolloutReal F) :=
  match keys with
  | [] => Returns r
  | key :: keys =>
      and_then (getPosesConst copy key) (λ p,
      and_then (getVelsConst copy key) (λ v,
      and_then (getForcesConst copy key) (λ f,
      copy_mappings copy keys
        (mkReal (mRepresentationMapping r) (mMappings r)
           (<[key := p]> (mPoses r)) (<[key := v]> (mVels r))
           (<[key := f]> (mForces r)) (mMasses r) (mMetadata r)))))
  end.

(** [TrajectoryRolloutReal::TrajectoryRolloutReal(const TrajectoryRollout*
    copy)], the deep copy constructor. *)
Definition TrajectoryRolloutReal_copy {F} (copy : TrajectoryRollout F)
    : outcome (TrajectoryRolloutReal F) :=
  and_then
    (copy_mappings copy (getMappings copy)
       (mkReal (getRepresentationMapping copy) (getMappings copy)
          ∅ ∅ ∅ [] ∅)) (λ r,
  and_then (getMassesConst copy) (λ masses,
  Returns (mkReal (mRepresentationMapping r) (mMappings r) (mPoses r)
             (mVels r) (mForces r) masses (getMetadataMap copy)))).

(** [TrajectoryRollout::copy] *)
Definition copy {F} (t : TrajectoryRollout F)
    : outcome (TrajectoryRolloutReal F) := TrajectoryRolloutReal_copy t.

(** The owning rollout at the end of the chain of slices. *)
Fixpoint backing {F} (t : TrajectoryRollout F) : TrajectoryRolloutReal F :=
  match t with
  | Real r => r
  | Ref s _ _ => backing s
  | ConstRef s _ _ => backing s
  end.

(** No const slice on the way to the owning rollout. *)
Fixpoint writable {F} (t : TrajectoryRollout F) : bool :=
  match t with
  | Real _ => true
  | Ref s _ _ => writable s
  | ConstRef _ _ _ => false
  end.

(** The same chain of slices over another owning rollout. *)
Fixpoint rebase {F} (t : TrajectoryRollout F) (r : TrajectoryRolloutReal F)
    : TrajectoryRollout F :=
  match t with
  | Real _ => Real r
  | Ref s mStart mLen => Ref (rebase s r) mStart mLen
  | ConstRef s mStart mLen => ConstRef (rebase s r) mStart mLen
  end.

(** The number of columns a rollout shows when the matrices of its owning
    rollout have [steps] of them; [None] when a slice on the way leaves the
    columns of what it slices, which Eigen's [block] asserts it does not. *)
Fixpoint shown_columns {F} (t : TrajectoryRollout F) (steps : nat)
    : option nat :=
  match t with
  | Real _ => Some steps
  | Ref s mStart mLen =>
      w ← shown_columns s steps;
      if decide (mStart + mLen ≤ w) then Some mLen else None
  | ConstRef s mStart mLen =>
      w ← shown_columns s steps;
      if decide (mStart + mLen ≤ w) then Some mLen else None
  end.

(** The column of the owning rollout that column [0] of a rollout shows. *)
Fixpoint first_column {F} (t : TrajectoryRollout F) : nat :=
  match t with
  | Real _ => 0
  | Ref s mStart _ => first_column s + mStart
  | ConstRef s mStart _ => first_column s + mStart
  end.

(** The maps of an owning rollout hold exactly the mappings it lists. *)
Definition lists_its_mappings {F} (r : TrajectoryRolloutReal F) : Prop :=
  dom (mPoses r) = list_to_set (mMappings r)
  ∧ dom (mVels r) = list_to_set (mMappings r)
  ∧ dom (mForces r) = list_to_set (mMappings r).

End Rollout.

(** ** Reference definitions used in the statements *)

(** The step counts [shotLength, ..., shotLength, remainder]. *)
Definition shot_sizes (steps shotLength : Z) : list Z :=
  replicate (Z.to_nat (steps / shotLength)) shotLength
  ++ (if decide (steps mod shotLength = 0)%Z then []
      else [(steps mod shotLength)%Z]).

(** The shots with the given step counts: the first one carries the flag of
    the caller unless an earlier shot exists, the others are tuned. *)
Definition build_shots `{Scalar F} `{Simulator F World} (world : World)
    (tune isFirst : bool) (sizes : list Z) : list (SingleShot F) :=
  match sizes with
  | [] => []
  | n :: r =>
      SingleShot_new world (Z.to_nat n) (negb isFirst || tune)
      :: ((λ n, SingleShot_new world (Z.to_nat n) true) <$> r)
  end.


(** One continuous simulation driven by a list of forces, recording every
    step. *)
Definition monolithic `{Simulator F World} (forces : list (list F))
    (st : World * StatesOut F * nat) : World * StatesOut F * nat :=
  foldl (λ st force, record_step force st) st forces.

(** A loop over the elements of a list whose body may fail. *)
Fixpoint fold_opt {A St} (g : A → St → option St) (l : list A) (st : St)
    : option St :=
  match l with
  | [] => Some st
  | x :: l => st' ← g x st; fold_opt g l st'
  end.

(** The adjacent pairs [(shot_i, shot_{i+1})], in order. *)
Definition adjacent_pairs {A} (shots : list A) : list (A * A) :=
  zip shots (drop 1 shots).

(** The defect at one knot: final state of the earlier shot minus start state
    of the later one. *)
Definition knot_defect `{Scalar F} `{ShotKernels F World} (world : World)
    (pair : SingleShot F * SingleShot F) : list F :=
  vsub (SingleShot_getFinalState world pair.1)
       (SingleShot_getStartState pair.2).

(** The knot defects, pair by pair. *)
Definition knot_defects `{Scalar F} `{ShotKernels F World} (world : World)
    (shots : list (SingleShot F)) : list (list F) :=
  knot_defect world <$> adjacent_pairs shots.

(** Writing one coefficient: one step of [scatter]. *)
Definition apply_entry {F} (m : MatrixXd F) (e : nat * nat * F) : MatrixXd F :=
  set_coeff e.1.1 e.1.2 e.2 m.

(** The index pairs of a dense block of [sd] rows and [d] columns at
    [(rc, cc)], column by column: the order of the two nested loops. *)
Definition idx_block (rc cc sd d : nat) : list (nat * nat) :=
  k ← seq cc d; (λ q, (q, k)) <$> seq rc sd.

(** The index pairs of the diagonal of an [sd x sd] block at [(rc, cc)]. *)
Definition idx_diag (rc cc sd : nat) : list (nat * nat) :=
  (λ q, (rc + q, cc + q)) <$> seq 0 sd.

(** The Jacobian of the final state of a shot, computed into a fresh zero
    matrix. *)
Definition final_jacobian `{Scalar F} `{ShotKernels F World} (world : World)
    (sd : nat) (shot : SingleShot F) : MatrixXd F :=
  SingleShot_backpropJacobianOfFinalState world shot
    (Zero sd (SingleShot_getFlatProblemDim shot)).

(** All index pairs of the knot constraints of the given shots, the first
    block at [(rc, cc)]. *)
Fixpoint knot_indices {F} (sd : nat) (shots : list (SingleShot F))
    (rc cc : nat) : list (nat * nat) :=
  match shots with
  | [] => []
  | shot :: rest =>
      let d := SingleShot_getFlatProblemDim shot in
      (idx_block rc cc sd d ++ idx_diag rc (cc + d) sd)
      ++ knot_indices sd rest (rc + sd) (cc + d)
  end.

(** All values of the knot constraints of the given shots, in the order of
    [knot_indices]. *)
Definition knot_values `{Scalar F} `{ShotKernels F World} (world : World)
    (sd : nat) (shots : list (SingleShot F)) : list F :=
  shot ← shots;
  concat (mat_cols (final_jacobian world sd shot))
  ++ replicate sd (smul sone sneg1).

(** A column of [cd] rows that is still zero from row [rc] on. *)
Definition zero_below `{Scalar F} (cd rc : nat) (column : list F) : Prop :=
  length column = cd ∧ ∀ j, rc ≤ j → j < cd → column !! j = Some szero.

(** Column [q] of [-1 * Identity(sd, sd)]. *)
Definition neg_identity_col `{Scalar F} (sd q : nat) : list F :=
  smul sneg1 <$> ((λ i, if decide (i = q) then sone else szero) <$> seq 0 sd).

(** Emitting a list of index pairs. *)
Definition emit_list (l : list (nat * nat)) (st : SparsityState)
    : SparsityState :=
  foldl (λ st e, emit e.1 e.2 st) st l.

(** A matrix of [r] rows and [c] columns whose storage has that shape. *)
Definition well_shaped {F} (r c : nat) (m : MatrixXd F) : Prop :=
  mat_rows m = r ∧ length (mat_cols m) = c
  ∧ Forall (λ column, length column = r) (mat_cols m).

(** The number of non-zero entries one knot contributes: the dense block of
    the earlier shot and the diagonal of the negative identity. *)
Definition pair_count {F} (sd : nat) (shot : SingleShot F) : nat :=
  SingleShot_getFlatProblemDim shot * sd + sd.


(** The flat dimensions of the shots. *)
Definition shot_dims {F} (shots : list (SingleShot F)) : list nat :=
  SingleShot_getFlatProblemDim <$> shots.

(** The step counts of the shots. *)
Definition shot_steps {F} (shots : list (SingleShot F)) : list nat :=
  SingleShot_getNumSteps <$> shots.

(** The offset of shot [i] in the flat vector: the flat dimensions of the
    shots before it. *)
Definition flat_offset {F} (ms : MultiShot F) (i : nat) : nat :=
  sum_list (shot_dims (take i (mShots ms))).

(** The first timestep of shot [i]: the step counts of the shots before
    it. *)
Definition step_offset {F} (ms : MultiShot F) (i : nat) : nat :=
  sum_list (shot_steps (take i (mShots ms))).

(** A kernel that writes into the three blocks a shot is handed, of the rows
    of the mapping and one column per step of the shot, without changing their
    shapes, as every function over [Eigen::Ref] does. *)
Definition keeps_shapes {F}
    (kernel : SingleShot F → MatrixXd F * MatrixXd F * MatrixXd F →
              MatrixXd F * MatrixXd F * MatrixXd F)
    (mapping : Mapping) (shot : SingleShot F) : Prop :=
  ∀ p v f,
    let c := SingleShot_getNumSteps shot in
    well_shaped (getPosDim mapping) c p →
    well_shaped (getVelDim mapping) c v →
    well_shaped (getForceDim mapping) c f →
    well_shaped (getPosDim mapping) c (kernel shot (p, v, f)).1.1
    ∧ well_shaped (getVelDim mapping) c (kernel shot (p, v, f)).1.2
    ∧ well_shaped (getForceDim mapping) c (kernel shot (p, v, f)).2.

(** The blocks of the [w] columns from column [c] on of the three outputs,
    as [unroll] and [getStates] take them. *)
Definition states_window {F} (mapping : Mapping) (out : StatesOut F)
    (c w : nat) : MatrixXd F * MatrixXd F * MatrixXd F :=
  (block (out_poses out) 0 c (getPosDim mapping) w,
   block (out_vels out) 0 c (getVelDim mapping) w,
   block (out_forces out) 0 c (getForceDim mapping) w).

(** The shapes [getStates] asserts of its outputs: [steps] columns and the
    rows of the representation mapping. *)
Definition states_shaped {F} (mapping : Mapping) (steps : nat)
    (out : StatesOut F) : Prop :=
  well_shaped (getPosDim mapping) steps (out_poses out)
  ∧ well_shaped (getVelDim mapping) steps (out_vels out)
  ∧ well_shaped (getForceDim mapping) steps (out_forces out).

(** ** A concrete simulator: point masses on a line

    Unit masses, unit time step, semi-implicit Euler, integer coordinates.
    It instantiates the interfaces for worked examples. *)

Module Box.

Definition Z_scalar : Scalar Z :=
  {| szero := 0%Z; sone := 1%Z; sneg1 := (-1)%Z; smul := Z.mul; ssub := Z.sub |}.

Record World := mkWorld {
  w_pos : list Z;
  w_vel : list Z;
  w_frc : list Z;
}.

Definition box_step (w : World) : World :=
  let v := zip_with Z.add (w_vel w) (w_frc w) in
  mkWorld (zip_with Z.add (w_pos w) v) v (w_frc w).

Definition simulator : Simulator Z World :=
  {| getNumDofs w := length (w_pos w);
     getPositions := w_pos;
     getVelocities := w_vel;
     setPositions p w := mkWorld p (w_vel w) (w_frc w);
     setVelocities v w := mkWorld (w_pos w) v (w_frc w);
     setForces f w := mkWorld (w_pos w) (w_vel w) f;
     step := box_step |}.

(** The worlds a shot passes through when it is unrolled from its start
    state. *)
Fixpoint trace (w : World) (forces : list (list Z)) : list World :=
  match forces with
  | [] => []
  | f :: fs =>
      let w' := box_step (mkWorld (w_pos w) (w_vel w) f) in
      w' :: trace w' fs
  end.

Definition unroll (w : World) (shot : SingleShot Z) : list World :=
  trace (mkWorld (mStartPos shot) (mStartVel shot) (w_frc w))
    (take (mSteps shot) (mat_cols (mForces shot))).

Definition final_state (w : World) (shot : SingleShot Z) : list Z :=
  match last (unroll w shot) with
  | Some w' => w_pos w' ++ w_vel w'
  | None => mStartPos shot ++ mStartVel shot
  end.

(** The Jacobian of the final state of a one-dimensional shot with respect to
    its flat vector, [p_T = p_0 + T v_0 + sum (T - t) f_t] and
    [v_T = v_0 + sum f_t], written into the matrix handed over. *)
Definition final_state_jacobian (w : World) (shot : SingleShot Z)
    (jac : MatrixXd Z) : MatrixXd Z :=
  let T := Z.of_nat (mSteps shot) in
  set_block 0 0
    (mkMatrix 2
       ((if mTuneStartingState shot then [[1; 0]; [T; 1]] else [])
        ++ ((λ t, [T - Z.of_nat t; 1]) <$> seq 0 (mSteps shot)))%Z)
    jac.

Definition states (w : World) (shot : SingleShot Z)
    (out : MatrixXd Z * MatrixXd Z * MatrixXd Z)
    : MatrixXd Z * MatrixXd Z * MatrixXd Z :=
  let '(p, v, f) := out in
  let tr := unroll w shot in
  (mkMatrix (mat_rows p) (w_pos <$> tr),
   mkMatrix (mat_rows v) (w_vel <$> tr),
   mkMatrix (mat_rows f) (take (mSteps shot) (mat_cols (mForces shot)))).

Definition kernels : ShotKernels Z World :=
  {| SingleShot_getFinalState := final_state;
     SingleShot_backpropJacobianOfFinalState := final_state_jacobian;
     SingleShot_getStates := states |}.

(** A problem without custom constraints: the base class has nothing to
    write. *)
Definition no_constraints : AbstractShot Z World :=
  {| AbstractShot_getConstraintDim := 0;
     AbstractShot_getNumberNonZeroJacobian := 0;
     AbstractShot_computeConstraints _ c := c;
     AbstractShot_getConstraintUpperBounds c := c;
     AbstractShot_getConstraintLowerBounds c := c;
     AbstractShot_backpropJacobian _ j := j;
     AbstractShot_getJacobianSparsityStructure r c := (r, c) |}.

(** A problem of flat dimension [n] with one custom constraint of value
    [value] and gradient [grad], bounded by [lo] and [hi]: one dense row of
    the Jacobian, enumerated row-major. *)
Definition one_constraint (n : nat) (value lo hi : Z) (grad : list Z)
    : AbstractShot Z World :=
  {| AbstractShot_getConstraintDim := 1;
     AbstractShot_getNumberNonZeroJacobian := n;
     AbstractShot_computeConstraints _ c := write_segment 0 [value] c;
     AbstractShot_getConstraintUpperBounds c := write_segment 0 [hi] c;
     AbstractShot_getConstraintLowerBounds c := write_segment 0 [lo] c;
     AbstractShot_backpropJacobian _ j :=
       mkMatrix (mat_rows j)
         (zip_with (λ g column, write_segment 0 [g] column) grad (mat_cols j));
     AbstractShot_getJacobianSparsityStructure r c :=
       (write_segment 0 (replicate n 0) r, write_segment 0 (seq 0 n) c) |}.

(** A world with one degree of freedom at rest at the origin. *)
Definition world0 : World := mkWorld [0%Z] [0%Z] [0%Z].

(** A shot of one degree of freedom. *)
Definition shot1 (tune : bool) (p v : Z) (forces : list Z) : SingleShot Z :=
  mkSingleShot (length forces) tune [p] [v]
    (mkMatrix 1 ((λ f, [f]) <$> forces)) (mkMapping 1 1 1).

(** Two shots of one step each, the second starting where the first ends. *)
Definition two_shots : MultiShot Z :=
  mkMultiShot [shot1 true 0 0 [1%Z]; shot1 true 1 1 [2%Z]] 2 1 true
    (mkMapping 1 1 1).

(** Three shots of two steps each, with gaps at the knots. *)
Definition three_shots : MultiShot Z :=
  mkMultiShot
    [shot1 false 0 0 [1; 2]%Z; shot1 true 5 6 [3; 4]%Z;
     shot1 true 7 8 [5; 6]%Z] 6 2 false (mkMapping 1 1 1).

(** [three_shots] with a custom constraint of value [3], bounded by [-1]
    and [1], whose gradient is [7] everywhere. *)
Definition constrained_three : AbstractShot Z World :=
  one_constraint 10 3 (-1) 1 (replicate 10 7%Z).

(** [two_shots] with a custom constraint pinned to [0], whose gradient is [7]
    everywhere. *)
Definition constrained_two : AbstractShot Z World :=
  one_constraint 6 0 0 0 (replicate 6 7%Z).

(** The remaining members of a shot: bounds of [-100] and [100] on every
    variable, the present values as the initial guess, the states of the shot
    as its unrolling, the sum of all incoming gradients as the gradient of
    every variable, and names by index. *)
Definition members : ShotMembers Z World :=
  {| SingleShot_getUpperBounds _ _ seg := replicate (length seg) 100%Z;
     SingleShot_getLowerBounds _ _ seg := replicate (length seg) (-100)%Z;
     SingleShot_getInitialGuess _ shot seg := SingleShot_flatten shot seg;
     SingleShot_unroll := states;
     SingleShot_backpropGradient _ _ gp gv gf seg :=
       let total :=
         foldr Z.add 0%Z (concat (mat_cols gp ++ mat_cols gv ++ mat_cols gf)) in
       (λ _, total) <$> seg;
     SingleShot_getFlatDimName _ dim := "x" +:+ pretty dim |}.

(** A rollout of three timesteps over one mapping of one degree of
    freedom. *)
Definition rollout3 : Rollout.TrajectoryRolloutReal Z :=
  Rollout.mkReal "identity" ["identity"]
    {["identity" := mkMatrix 1 [[1]; [2]; [3]]%Z]}
    {["identity" := mkMatrix 1 [[4]; [5]; [6]]%Z]}
    {["identity" := mkMatrix 1 [[7]; [8]; [9]]%Z]}
    [10%Z] ∅.


End Box.

(** ** Segments *)

Lemma segment_app_length {A} (pre mid post : list A) n :
  n = length mid → segment (pre ++ mid ++ post) (length pre) n = mid.
Proof.
  intros ->. unfold segment. rewrite drop_app_length. apply take_app_length.
Qed.

Lemma segment_0_app {A} (mid post : list A) n :
  n = length mid → segment (mid ++ post) 0 n = mid.
Proof. intros ->. unfold segment. simpl. apply take_app_length. Qed.

Lemma write_segment_app {A} (pre old post e : list A) :
  length e = length old →
  write_segment (length pre) e (pre ++ old ++ post) = pre ++ e ++ post.
Proof.
  intros Hlen. unfold write_segment.
  rewrite <-(Nat.add_0_r (length pre)), list_inserts_app_r.
  by rewrite list_inserts_0_r.
Qed.

Lemma write_segment_0_app {A} (old post e : list A) :
  length e = length old → write_segment 0 e (old ++ post) = e ++ post.
Proof. intros Hlen. by apply (write_segment_app []). Qed.

Lemma length_write_segment {A} c (e v : list A) :
  length (write_segment c e v) = length v.
Proof. apply length_inserts. Qed.

(** Any list splits at a length it reaches. *)
Lemma split_at {A} (l : list A) n :
  n ≤ length l → ∃ l1 l2, l = l1 ++ l2 ∧ length l1 = n.
Proof.
  intros Hn. exists (take n l), (drop n l). split.
  - by rewrite take_drop.
  - rewrite length_take. lia.
Qed.

Lemma foldl_add_sum {A} (f : A → nat) (l : list A) a :
  foldl (λ sum x, sum + f x) a l = a + sum_list (f <$> l).
Proof.
  revert a. induction l as [|x l IH]; intros a; csimpl; [lia|].
  rewrite IH. lia.
Qed.

Section Flatten.
Context {F : Type}.
Implicit Types (s : SingleShot F) (x out : list F).

Lemma MultiShot_getFlatProblemDim_sum (ms : MultiShot F) :
  MultiShot_getFlatProblemDim ms
  = sum_list (SingleShot_getFlatProblemDim <$> mShots ms).
Proof. unfold MultiShot_getFlatProblemDim. by rewrite foldl_add_sum. Qed.

Lemma flatten_forces_app (columns : list (list F)) fd (pre mid post : list F) :
  Forall (λ c, length c = fd) columns →
  length mid = fd * length columns →
  flatten_forces columns fd (length pre) (pre ++ mid ++ post)
  = pre ++ concat columns ++ post.
Proof.
  intros Hall. revert pre mid.
  induction Hall as [|c cs Hc Hcs IH]; intros pre mid Hmid; simpl in *.
  - destruct mid; [done|]. simpl in Hmid. lia.
  - destruct (split_at mid fd) as (m1 & m2 & -> & Hm1); [lia|].
    rewrite length_app in Hmid.
    rewrite (take_ge c) by lia.
    rewrite <-(app_assoc m1), write_segment_app by lia.
    replace (length pre + fd) with (length (pre ++ c))
      by (rewrite length_app; lia).
    rewrite (app_assoc pre c), IH by lia.
    by rewrite <-!app_assoc.
Qed.

Lemma unflatten_forces_app k fd (pre body post : list F) :
  length body = fd * k →
  let columns := unflatten_forces k fd (length pre) (pre ++ body ++ post) in
  concat columns = body ∧ Forall (λ c, length c = fd) columns
  ∧ length columns = k.
Proof.
  revert pre body. induction k as [|k IH]; intros pre body Hbody; simpl.
  - destruct body; [done|]. simpl in Hbody. lia.
  - destruct (split_at body fd) as (b1 & b2 & -> & Hb1); [lia|].
    rewrite length_app in Hbody.
    rewrite <-(app_assoc b1), segment_app_length by done.
    replace (length pre + fd) with (length (pre ++ b1))
      by (rewrite length_app; lia).
    rewrite (app_assoc pre b1).
    destruct (IH (pre ++ b1) b2 ltac:(lia)) as (Hc & Hall & Hlen).
    split; [by rewrite Hc|]. split; [by constructor|]. by rewrite Hlen.
Qed.

Lemma SingleShot_unflatten_dim x s :
  SingleShot_getFlatProblemDim (SingleShot_unflatten x s)
  = SingleShot_getFlatProblemDim s.
Proof.
  unfold SingleShot_unflatten, SingleShot_getFlatProblemDim.
  by destruct (mTuneStartingState s).
Qed.

(** A single shot hands back the segment it was given. *)
Lemma SingleShot_flatten_unflatten s x out :
  length x = SingleShot_getFlatProblemDim s → length out = length x →
  SingleShot_flatten (SingleShot_unflatten x s) out = x.
Proof.
  unfold SingleShot_getFlatProblemDim, SingleShot_flatten, SingleShot_unflatten.
  intros Hx Hout. destruct (mTuneStartingState s); simpl in *.
  - set (pd := getPosDim (shotMapping s)) in *.
    set (vd := getVelDim (shotMapping s)) in *.
    set (fd := getForceDim (shotMapping s)) in *.
    destruct (split_at x pd) as (xp & x' & -> & Hxp); [lia|].
    destruct (split_at x' vd) as (xv & xf & -> & Hxv);
      [rewrite length_app in Hx; lia|].
    destruct (split_at out pd) as (op & o' & -> & Hop); [lia|].
    destruct (split_at o' vd) as (ov & orest & -> & Hov);
      [rewrite !length_app in *; lia|].
    rewrite !length_app in *.
    rewrite (segment_0_app xp) by done.
    assert (segment (xp ++ xv ++ xf) pd vd = xv) as ->.
    { rewrite <-Hxp. by apply segment_app_length. }
    rewrite (take_ge xp), (take_ge xv) by lia.
    rewrite write_segment_0_app by lia.
    assert (write_segment pd xv (xp ++ ov ++ orest) = xp ++ xv ++ orest) as ->.
    { rewrite <-Hxp. apply write_segment_app. lia. }
    replace (pd + vd) with (length (xp ++ xv)) by (rewrite length_app; lia).
    rewrite (app_assoc xp xv xf).
    destruct (unflatten_forces_app (mSteps s) fd (xp ++ xv) xf [])
      as (Hc & Hall & Hlen); [lia|].
    rewrite app_nil_r in *.
    rewrite take_ge by lia.
    rewrite (app_assoc xp xv orest), <-(app_nil_r orest).
    rewrite flatten_forces_app; [|done|lia].
    by rewrite Hc, app_nil_r.
  - set (fd := getForceDim (shotMapping s)) in *.
    destruct (unflatten_forces_app (mSteps s) fd [] x [])
      as (Hc & Hall & Hlen); [lia|].
    simpl in *. rewrite app_nil_r in *.
    rewrite take_ge by lia.
    pose proof (flatten_forces_app
      (unflatten_forces (mSteps s) fd 0 x) fd [] out [] Hall) as Hf.
    simpl in Hf. rewrite app_nil_r in Hf. rewrite Hf by lia.
    by rewrite Hc, app_nil_r.
Qed.

Lemma unflatten_shots_dims (shots : list (SingleShot F)) c x :
  SingleShot_getFlatProblemDim <$> unflatten_shots shots c x
  = SingleShot_getFlatProblemDim <$> shots.
Proof.
  revert c. induction shots as [|s shots IH]; intros c; simpl; [done|].
  by rewrite SingleShot_unflatten_dim, IH.
Qed.

Lemma flatten_unflatten_shots (shots : list (SingleShot F))
    (xpre xmid xpost opre omid opost : list F) :
  length opre = length xpre →
  length xmid = sum_list (SingleShot_getFlatProblemDim <$> shots) →
  length omid = length xmid →
  flatten_shots
    (unflatten_shots shots (length xpre) (xpre ++ xmid ++ xpost))
    (length opre) (opre ++ omid ++ opost)
  = opre ++ xmid ++ opost.
Proof.
  revert xpre xmid opre omid.
  induction shots as [|s shots IH]; intros xpre xmid opre omid Hpre Hx Ho;
    csimpl in *.
  - destruct xmid, omid; simpl in *; try lia. done.
  - set (d := SingleShot_getFlatProblemDim s) in *.
    destruct (split_at xmid d) as (x1 & x2 & -> & Hx1); [lia|].
    destruct (split_at omid d) as (o1 & o2 & -> & Ho1);
      [rewrite length_app in Ho; lia|].
    rewrite !length_app in *.
    rewrite SingleShot_unflatten_dim. fold d.
    rewrite <-(app_assoc x1), <-(app_assoc o1).
    rewrite !segment_app_length by done.
    rewrite SingleShot_flatten_unflatten by (fold d; lia).
    rewrite write_segment_app by lia.
    replace (length xpre + d) with (length (xpre ++ x1))
      by (rewrite length_app; lia).
    replace (length opre + d) with (length (opre ++ x1))
      by (rewrite length_app; lia).
    rewrite (app_assoc xpre x1), (app_assoc opre x1).
    rewrite IH by (rewrite ?length_app; lia).
    by rewrite <-!app_assoc.
Qed.

(** C1.  For every multi-shot problem and every flat vector [x] whose
    length is the flat dimension of the problem, [unflatten x] followed by
    [flatten] into a vector of the same length gives back [x] exactly; the
    flat dimension is unchanged by [unflatten]. *)
Theorem MultiShot_flatten_unflatten (ms : MultiShot F) x out :
  length x = MultiShot_getFlatProblemDim ms → length out = length x →
  MultiShot_getFlatProblemDim (MultiShot_unflatten x ms)
  = MultiShot_getFlatProblemDim ms
  ∧ MultiShot_flatten (MultiShot_unflatten x ms) out = x.
Proof.
  intros Hx Hout. split.
  - rewrite !MultiShot_getFlatProblemDim_sum. simpl.
    by rewrite unflatten_shots_dims.
  - rewrite MultiShot_getFlatProblemDim_sum in Hx.
    unfold MultiShot_flatten, MultiShot_unflatten. simpl.
    pose proof (flatten_unflatten_shots (mShots ms) [] x [] [] out []) as H.
    simpl in H. rewrite !app_nil_r in H. by apply H.
Qed.
End Flatten.

(** ** Loops over indices are loops over elements *)

Lemma for_loop_fold_opt {A St} (l : list A) (body : nat → St → option St)
    (g : A → St → option St) lo st :
  (∀ i x st, l !! i = Some x → body (lo + i) st = g x st) →
  for_loop body lo (length l) st = fold_opt g l st.
Proof.
  revert lo st. induction l as [|x l IH]; intros lo st Hbody; simpl; [done|].
  rewrite <-(Nat.add_0_r lo) at 1. rewrite (Hbody 0 x st) by done.
  destruct (g x st) as [st'|]; simpl; [|done].
  apply IH. intros i y st'' Hy.
  rewrite <-(Hbody (S i) y st'') by done. f_equal. lia.
Qed.

Lemma length_adjacent_pairs {A} (shots : list A) :
  length (adjacent_pairs shots) = length shots - 1.
Proof.
  unfold adjacent_pairs. rewrite length_zip, length_drop. lia.
Qed.

Lemma lookup_adjacent_pairs {A} (shots : list A) i p :
  adjacent_pairs shots !! i = Some p ↔
  shots !! i = Some p.1 ∧ shots !! S i = Some p.2.
Proof.
  unfold adjacent_pairs. destruct p as [a b]. simpl.
  rewrite lookup_zip_with_Some. rewrite lookup_drop. simpl. split.
  - intros (x & y & [= -> ->] & Hx & Hy). done.
  - intros [Hx Hy]. by exists a, b.
Qed.

(** The loops [for (int i = 1; i < mShots.size(); i++)] that read
    [mShots[i - 1]] and [mShots[i]] visit the adjacent pairs. *)
Lemma for_loop_pairs {A St} (shots : list A) (body : nat → St → option St)
    (g : A * A → St → option St) st :
  (∀ i p n st, shots !! i = Some p → shots !! S i = Some n →
     body (S i) st = g (p, n) st) →
  for_loop body 1 (length shots - 1) st
  = fold_opt g (adjacent_pairs shots) st.
Proof.
  intros Hbody. rewrite <-length_adjacent_pairs. apply for_loop_fold_opt.
  intros i [p n] st' [Hp Hn]%lookup_adjacent_pairs. by apply Hbody.
Qed.

(** Those that read only [mShots[i - 1]] visit all shots but the last. *)
Lemma for_loop_prev {A St} (shots : list A) (body : nat → St → option St)
    (g : A → St → option St) st :
  (∀ i p st, shots !! i = Some p → body (S i) st = g p st) →
  for_loop body 1 (length shots - 1) st
  = fold_opt g (take (length shots - 1) shots) st.
Proof.
  intros Hbody.
  assert (length shots - 1 = length (take (length shots - 1) shots)) as Hlen
    by (rewrite length_take; lia).
  rewrite Hlen at 1. apply for_loop_fold_opt.
  intros i x st' Hx. apply lookup_take_Some in Hx as [Hx _]. by apply Hbody.
Qed.

Section Constraints.
Context `{Scalar F} `{AbstractShot F World} `{ShotKernels F World}.

Lemma fold_opt_defects (world : World) sd pairs (constraints : list F) cursor :
  Forall (λ p, length (knot_defect world p) = sd) pairs →
  fold_opt (λ '(prev, next) '(constraints, cursor),
      Some (write_segment cursor
              (vsub (SingleShot_getFinalState world prev)
                    (SingleShot_getStartState next)) constraints,
            cursor + sd)) pairs (constraints, cursor)
  = Some (write_segment cursor (concat (knot_defect world <$> pairs))
            constraints, cursor + sd * length pairs).
Proof.
  intros Hall. revert constraints cursor.
  induction Hall as [|[p n] pairs Hd Hall IH]; intros constraints cursor;
    csimpl.
  - do 2 f_equal. lia.
  - rewrite IH. do 2 f_equal; [|lia].
    unfold write_segment. rewrite list_inserts_app_l.
    unfold knot_defect in *. simpl in *. rewrite Hd.
    by rewrite (Nat.add_comm sd cursor).
Qed.

Lemma length_concat_uniform {A} (ls : list (list A)) n :
  Forall (λ l, length l = n) ls → length (concat ls) = n * length ls.
Proof.
  induction 1 as [|l ls Hl Hls IH]; simpl; [lia|].
  rewrite length_app, IH, Hl. lia.
Qed.

Lemma setZero_segment (flat : list F) np :
  np ≤ length flat →
  segment (setZero flat) 0 np = replicate np szero.
Proof.
  intros Hnp. unfold segment, setZero.
  rewrite drop_0, take_replicate. f_equal. lia.
Qed.

Lemma bounds_layout (parent : list F → list F) (flat : list F) np rest :
  (∀ c, length (parent c) = length c) →
  length flat = np + rest →
  write_segment 0 (parent (segment (setZero flat) 0 np)) (setZero flat)
  = parent (replicate np szero) ++ replicate rest szero.
Proof.
  intros Hparent Hlen. rewrite setZero_segment by lia.
  unfold setZero. rewrite Hlen, replicate_add.
  apply write_segment_0_app. by rewrite Hparent.
Qed.

(** C2.  [computeConstraints] leaves the parent constraints in front and
    writes behind them, for each adjacent pair of shots in order, the
    [stateDim]-vector [finalState(shot_i) - startState(shot_{i+1})];
    [getConstraintUpperBounds] and [getConstraintLowerBounds] are zero on
    all of these knot-defect entries. *)
Theorem MultiShot_knot_constraints (ms : MultiShot F) (world : World)
    (constraints flat : list F) :
  length constraints = MultiShot_getConstraintDim ms →
  length flat = MultiShot_getConstraintDim ms →
  (∀ w c, length (AbstractShot_computeConstraints w c) = length c) →
  (∀ c, length (AbstractShot_getConstraintUpperBounds c) = length c) →
  (∀ c, length (AbstractShot_getConstraintLowerBounds c) = length c) →
  Forall (λ s, length (SingleShot_getFinalState world s) = stateDim ms
               ∧ length (SingleShot_getStartState s) = stateDim ms)
    (mShots ms) →
  let numParent := AbstractShot_getConstraintDim in
  let numKnots := length (mShots ms) - 1 in
  MultiShot_computeConstraints ms world constraints
  = Some (AbstractShot_computeConstraints world (take numParent constraints)
          ++ concat (knot_defects world (mShots ms)))
  ∧ length (knot_defects world (mShots ms)) = numKnots
  ∧ (∀ i prev next,
       mShots ms !! i = Some prev → mShots ms !! S i = Some next →
       knot_defects world (mShots ms) !! i
       = Some (vsub (SingleShot_getFinalState world prev)
                    (SingleShot_getStartState next))
       ∧ length (vsub (SingleShot_getFinalState world prev)
                      (SingleShot_getStartState next)) = stateDim ms)
  ∧ MultiShot_getConstraintUpperBounds flat
    = AbstractShot_getConstraintUpperBounds (replicate numParent szero)
      ++ replicate (stateDim ms * numKnots) szero
  ∧ MultiShot_getConstraintLowerBounds flat
    = AbstractShot_getConstraintLowerBounds (replicate numParent szero)
      ++ replicate (stateDim ms * numKnots) szero.
Proof.
  intros Hc Hflat Hpc Hpu Hpl Hshots numParent numKnots.
  unfold MultiShot_getConstraintDim in *. fold numParent numKnots in Hc, Hflat.
  assert (∀ i prev next,
    mShots ms !! i = Some prev → mShots ms !! S i = Some next →
    length (knot_defect world (prev, next)) = stateDim ms) as Hdefect.
  { intros i prev next Hp Hn. unfold knot_defect, vsub. simpl.
    rewrite length_zip_with.
    rewrite Forall_lookup in Hshots.
    destruct (Hshots _ _ Hp) as [-> _]. destruct (Hshots _ _ Hn) as [_ ->].
    lia. }
  assert (Forall (λ p, length (knot_defect world p) = stateDim ms)
            (adjacent_pairs (mShots ms))) as Hall.
  { apply Forall_lookup. intros i [p n] [Hp Hn]%lookup_adjacent_pairs.
    by apply (Hdefect i). }
  split; [|split; [|split; [|split]]].
  - unfold MultiShot_computeConstraints. fold numParent.
    rewrite (for_loop_pairs (mShots ms) _
      (λ '(prev, next) '(constraints, cursor),
         Some (write_segment cursor
                 (vsub (SingleShot_getFinalState world prev)
                       (SingleShot_getStartState next)) constraints,
               cursor + stateDim ms))).
    2:{ intros i p n [c cur] Hp Hn. simpl. rewrite Nat.sub_0_r, Hp. simpl.
        by rewrite Hn. }
    rewrite fold_opt_defects by done. simpl. f_equal.
    destruct (split_at constraints numParent) as (c1 & c2 & -> & Hc1); [lia|].
    rewrite length_app in Hc.
    rewrite segment_0_app by done.
    assert (take numParent (c1 ++ c2) = c1) as ->
      by (rewrite <-Hc1; apply take_app_length).
    rewrite write_segment_0_app by by rewrite Hpc.
    rewrite <-(app_nil_r c2).
    assert (numParent = length (AbstractShot_computeConstraints world c1))
      as Hnp by by rewrite Hpc.
    rewrite Hnp at 1.
    rewrite write_segment_app; [by rewrite app_nil_r|].
    fold (knot_defects world (mShots ms)).
    rewrite (length_concat_uniform _ (stateDim ms))
      by (unfold knot_defects; by apply Forall_fmap).
    unfold knot_defects. rewrite length_fmap, length_adjacent_pairs.
    fold numKnots. lia.
  - unfold knot_defects. by rewrite length_fmap, length_adjacent_pairs.
  - intros i prev next Hp Hn. split; [|by apply (Hdefect i)].
    unfold knot_defects. rewrite list_lookup_fmap.
    assert (adjacent_pairs (mShots ms) !! i = Some (prev, next)) as ->
      by by apply lookup_adjacent_pairs.
    done.
  - unfold MultiShot_getConstraintUpperBounds. by apply bounds_layout.
  - unfold MultiShot_getConstraintLowerBounds. by apply bounds_layout.
Qed.

Lemma fold_opt_nnz (sd : nat) (shots : list (SingleShot F)) nnzj :
  fold_opt (λ shot nnzj,
      Some (nnzj + SingleShot_getFlatProblemDim shot * sd + sd)) shots nnzj
  = Some (nnzj
          + sum_list ((λ shot, SingleShot_getFlatProblemDim shot * sd + sd)
                        <$> shots)).
Proof.
  revert nnzj. induction shots as [|s shots IH]; intros nnzj; csimpl.
  - f_equal. lia.
  - rewrite IH. f_equal. lia.
Qed.

(** The count of non-zero entries, for a problem with at least one shot. *)
Lemma getNumberNonZeroJacobian_eq (ms : MultiShot F) :
  mShots ms ≠ [] →
  MultiShot_getNumberNonZeroJacobian ms
  = Some (AbstractShot_getNumberNonZeroJacobian
          + sum_list ((λ shot, SingleShot_getFlatProblemDim shot * stateDim ms
                               + stateDim ms)
                        <$> take (length (mShots ms) - 1) (mShots ms))).
Proof.
  intros Hne. unfold MultiShot_getNumberNonZeroJacobian.
  destruct (mShots ms) as [|s0 shots] eqn:Hshots; [done|].
  rewrite <-Hshots.
  assert (length (mShots ms) - 1
          = length (take (length (mShots ms) - 1) (mShots ms))) as Hlen
    by (rewrite length_take; lia).
  rewrite Hlen at 1.
  rewrite (for_loop_fold_opt (take (length (mShots ms) - 1) (mShots ms)) _
    (λ shot nnzj,
       Some (nnzj + SingleShot_getFlatProblemDim shot * stateDim ms
             + stateDim ms))).
  - by rewrite fold_opt_nnz.
  - intros i x st Hx. simpl.
    apply lookup_take_Some in Hx as [-> _]. done.
Qed.

End Constraints.

(** ** Scattering coefficients into a matrix *)

Section Scatter.
Context {F : Type}.
Implicit Types (m : MatrixXd F) (v column : list F).

(** Assigning the coefficients of a segment one by one writes the segment. *)
Lemma inserts_one_by_one v r column :
  foldl (λ column e, <[e.1 := e.2]> column) column (zip (seq r (length v)) v)
  = write_segment r v column.
Proof.
  revert r column. induction v as [|x v IH]; intros r column; simpl; [done|].
  rewrite IH. unfold write_segment. simpl.
  symmetry. apply list_insert_inserts_lt. lia.
Qed.

Lemma foldl_alter_column (g : list F → nat * F → list F) (c : nat)
    (es : list (nat * F)) (columns : list (list F)) :
  foldl (λ columns e, alter (λ column, g column e) c columns) columns es
  = alter (λ column, foldl g column es) c columns.
Proof.
  revert columns. induction es as [|e es IH]; intros columns; simpl.
  - symmetry. by apply list_alter_id.
  - rewrite IH, list_alter_alter_eq. done.
Qed.

Lemma mat_cols_foldl_apply_entry m (es : list (nat * nat * F)) :
  foldl apply_entry m es
  = mkMatrix (mat_rows m)
      (foldl (λ columns e, alter (λ column, <[e.1.1 := e.2]> column) e.1.2
                             columns) (mat_cols m) es).
Proof.
  revert m. induction es as [|e es IH]; intros m; simpl.
  - by destruct m.
  - rewrite IH. done.
Qed.

(** Scattering one column of a block. *)
Lemma scatter_column m r c v :
  foldl apply_entry m (zip ((λ q, (q, c)) <$> seq r (length v)) v)
  = mkMatrix (mat_rows m) (alter (write_segment r v) c (mat_cols m)).
Proof.
  rewrite mat_cols_foldl_apply_entry. f_equal.
  transitivity (foldl (λ columns (e : nat * F),
                   alter (λ column, <[e.1 := e.2]> column) c columns)
                  (mat_cols m) (zip (seq r (length v)) v)).
  - generalize (mat_cols m). generalize (seq r (length v)).
    intros l. revert v. induction l as [|q l IH]; intros v columns; [done|].
    destruct v as [|x v]; [done|]. simpl. apply IH.
  - rewrite (foldl_alter_column (λ column e, <[e.1 := e.2]> column)).
    apply list_alter_ext; [|done]. intros column _.
    apply inserts_one_by_one.
Qed.

Lemma idx_block_S rc cc sd d :
  idx_block rc cc sd (S d)
  = ((λ q, (q, cc)) <$> seq rc sd) ++ idx_block rc (S cc) sd d.
Proof. done. Qed.

Lemma length_idx_block rc cc sd d : length (idx_block rc cc sd d) = d * sd.
Proof.
  revert cc. induction d as [|d IH]; intros cc; [done|].
  rewrite idx_block_S, length_app, length_fmap, length_seq, IH. lia.
Qed.

(** Scattering a dense block column by column assigns the block. *)
Lemma scatter_block m rc cc sd (b : list (list F)) :
  Forall (λ column, length column = sd) b →
  foldl apply_entry m (zip (idx_block rc cc sd (length b)) (concat b))
  = mkMatrix (mat_rows m) (set_block_cols rc cc b (mat_cols m)).
Proof.
  intros Hall. revert cc m.
  induction Hall as [|column b Hc Hb IH]; intros cc m.
  - by destruct m.
  - cbn [length concat set_block_cols]. rewrite idx_block_S.
    rewrite zip_with_app by by rewrite length_fmap, length_seq.
    rewrite foldl_app. rewrite <-Hc at 1.
    rewrite scatter_column. apply IH.
Qed.
End Scatter.

Section Diagonal.
Context `{ScalarLaws F}.
Implicit Types (m : MatrixXd F) (column : list F).

Lemma length_neg_identity_col sd q : length (neg_identity_col sd q) = sd.
Proof. unfold neg_identity_col. by rewrite !length_fmap, length_seq. Qed.

Lemma lookup_neg_identity_col sd q i :
  i < sd →
  neg_identity_col sd q !! i
  = Some (smul sneg1 (if decide (i = q) then sone else szero)).
Proof.
  intros Hi. unfold neg_identity_col.
  rewrite !list_lookup_fmap, lookup_seq_lt by done. done.
Qed.

Lemma mat_cols_neg_identity sd :
  mat_cols (mat_scale sneg1 (Identity sd)) = neg_identity_col sd <$> seq 0 sd.
Proof. simpl. by rewrite <-list_fmap_compose. Qed.

Lemma zero_below_weaken cd rc rc' column :
  rc ≤ rc' → zero_below cd rc column → zero_below cd rc' column.
Proof. intros Hle [Hlen Hz]. split; [done|]. intros j ??. apply Hz; lia. Qed.

Lemma zero_below_write cd rc sd v column :
  length v = sd → zero_below cd (rc + sd) column →
  zero_below cd (rc + sd) (write_segment rc v column).
Proof.
  intros Hv [Hlen Hz]. split; [by rewrite length_write_segment|].
  intros j Hj Hcd. unfold write_segment.
  rewrite list_lookup_inserts_ge by lia. by apply Hz.
Qed.

Lemma zero_below_set_block cd rc sd c (b columns : list (list F)) :
  Forall (λ column, length column = sd) b →
  Forall (zero_below cd (rc + sd)) columns →
  Forall (zero_below cd (rc + sd)) (set_block_cols rc c b columns).
Proof.
  intros Hb. revert c columns.
  induction Hb as [|v b Hv Hb IH]; intros c columns Hcols; simpl; [done|].
  apply IH. apply Forall_alter; [done|].
  intros column _ Hz. by apply zero_below_write.
Qed.

(** On a column that is still zero in the rows of the block, assigning a
    column of the negative identity is assigning its diagonal entry. *)
Lemma write_neg_identity_col cd rc sd q column :
  zero_below cd rc column → rc + sd ≤ cd → q < sd →
  write_segment rc (neg_identity_col sd q) column
  = <[rc + q := smul sone sneg1]> column.
Proof.
  intros [Hlen Hz] Hcd Hq. apply list_eq. intros j. unfold write_segment.
  destruct (decide (j < rc)) as [Hlt|Hge].
  { rewrite list_lookup_inserts_lt by done.
    by rewrite list_lookup_insert_ne by lia. }
  destruct (decide (j < rc + sd)) as [Hin|Hout].
  - rewrite list_lookup_inserts
      by (rewrite ?length_neg_identity_col; lia).
    rewrite lookup_neg_identity_col by lia.
    destruct (decide (j - rc = q)) as [Heq|Hne].
    + assert (j = rc + q) as -> by lia.
      rewrite list_lookup_insert_eq by lia. by rewrite smul_neg1_one.
    + rewrite list_lookup_insert_ne by lia.
      rewrite Hz by lia. by rewrite smul_neg1_zero.
  - rewrite list_lookup_inserts_ge
      by (rewrite ?length_neg_identity_col; lia).
    by rewrite list_lookup_insert_ne by lia.
Qed.

(** Scattering the diagonal assigns the rest of the negative identity. *)
Lemma scatter_diagonal_from m cd rc cc sd q0 k :
  (∀ q column, q0 ≤ q → mat_cols m !! (cc + q) = Some column →
     zero_below cd rc column) →
  rc + sd ≤ cd → q0 + k ≤ sd →
  foldl apply_entry m
    (zip ((λ q, (rc + q, cc + q)) <$> seq q0 k)
         (replicate k (smul sone sneg1)))
  = mkMatrix (mat_rows m)
      (set_block_cols rc (cc + q0) (neg_identity_col sd <$> seq q0 k)
         (mat_cols m)).
Proof.
  intros Hz Hcd. revert q0 m Hz.
  induction k as [|k IH]; intros q0 m Hz Hk.
  - by destruct m.
  - cbn [seq fmap list_fmap replicate zip_with foldl set_block_cols].
    rewrite IH; [|..|lia].
    + cbn [mat_rows mat_cols apply_entry set_coeff fst snd].
      f_equal. rewrite <-Nat.add_succ_r. f_equal.
      apply list_alter_ext; [|done]. intros column Hcol. symmetry.
      apply (write_neg_identity_col cd); [|done|lia].
      by apply (Hz q0).
    + intros q column Hq. cbn [mat_cols apply_entry set_coeff fst snd].
      rewrite list_lookup_alter_ne by lia. apply Hz. lia.
Qed.

Lemma scatter_diagonal m cd rc cc sd :
  (∀ q column, mat_cols m !! (cc + q) = Some column →
     zero_below cd rc column) →
  rc + sd ≤ cd →
  foldl apply_entry m (zip (idx_diag rc cc sd) (replicate sd (smul sone sneg1)))
  = set_block rc cc (mat_scale sneg1 (Identity sd)) m.
Proof.
  intros Hz Hcd. unfold idx_diag, set_block.
  rewrite (scatter_diagonal_from m cd rc cc sd 0 sd); [|..|done|lia].
  - by rewrite mat_cols_neg_identity, Nat.add_0_r.
  - intros q column _ Hcol. by eapply Hz.
Qed.

(** A block of rows not yet written is a zero matrix. *)
Lemma block_zero m cd rc cc sd d :
  Forall (zero_below cd rc) (mat_cols m) →
  rc + sd ≤ cd → cc + d ≤ cols m →
  block m rc cc sd d = Zero sd d.
Proof.
  intros Hz Hcd Hd. unfold block, Zero, cols in *. f_equal. symmetry.
  apply replicate_as_Forall. split.
  - unfold segment. rewrite length_fmap, length_take, length_drop. lia.
  - apply Forall_fmap, Forall_take, Forall_drop.
    eapply Forall_impl; [exact Hz|]. intros column [Hlen Hzero]. simpl.
    unfold segment. apply replicate_as_Forall. split.
    + rewrite length_take, length_drop. lia.
    + apply Forall_take. apply Forall_lookup. intros i x Hx.
      rewrite lookup_drop in Hx.
      assert (rc + i < cd) as Hi.
      { rewrite <-Hlen. by eapply lookup_lt_Some. }
      rewrite Hzero in Hx by lia. congruence.
Qed.
End Diagonal.

(** ** The loops of the sparsity structure and of the sparse values *)

Lemma for_loop_seq {St} (body : nat → St → option St) lo n st :
  for_loop body lo n st = fold_opt body (seq lo n) st.
Proof.
  transitivity (for_loop body lo (length (seq lo n)) st);
    [by rewrite length_seq|].
  apply for_loop_fold_opt.
  intros i x st' [-> _]%lookup_seq. done.
Qed.

Lemma fold_opt_total_seq {St} (f : nat → St → St) (l : list nat) st :
  fold_opt (λ i st, Some (f i st)) l st = Some (foldl (λ st i, f i st) st l).
Proof.
  revert st. induction l as [|x l IH]; intros st; simpl; [done|]. apply IH.
Qed.

Lemma foldl_fmap_list {A B St} (g : St → B → St) (f : A → B) (l : list A) st :
  foldl g st (f <$> l) = foldl (λ st x, g st (f x)) st l.
Proof. revert st. induction l as [|x l IH]; intros st; csimpl; [done|]. apply IH. Qed.

Lemma emit_list_app l1 l2 st :
  emit_list (l1 ++ l2) st = emit_list l2 (emit_list l1 st).
Proof. apply foldl_app. Qed.

Lemma emit_rows rc c sd st :
  for_loop (λ row st, Some (emit row c st)) rc sd st
  = Some (emit_list ((λ q, (q, c)) <$> seq rc sd) st).
Proof.
  rewrite for_loop_seq, fold_opt_total_seq. unfold emit_list.
  by rewrite foldl_fmap_list.
Qed.

Lemma emit_block rc cc sd d st :
  for_loop (λ column st,
      for_loop (λ row st, Some (emit row column st)) rc sd st) cc d st
  = Some (emit_list (idx_block rc cc sd d) st).
Proof.
  revert cc st. induction d as [|d IH]; intros cc st; [done|].
  cbn [for_loop]. rewrite emit_rows. simpl. rewrite IH.
  by rewrite idx_block_S, emit_list_app.
Qed.

Lemma emit_diag rc cc sd st :
  for_loop (λ q st, Some (emit (rc + q) (cc + q) st)) 0 sd st
  = Some (emit_list (idx_diag rc cc sd) st).
Proof.
  rewrite for_loop_seq, fold_opt_total_seq. unfold emit_list, idx_diag.
  by rewrite foldl_fmap_list.
Qed.

Lemma emit_list_spec l rows columns cursor :
  emit_list l (mkSparsity rows columns cursor)
  = mkSparsity (write_segment cursor l.*1 rows)
      (write_segment cursor l.*2 columns) (cursor + length l).
Proof.
  revert rows columns cursor.
  induction l as [|[r c] l IH]; intros rows columns cursor.
  - simpl. by rewrite Nat.add_0_r.
  - unfold emit_list in *. cbn [foldl]. unfold emit at 2. simpl.
    rewrite IH. unfold write_segment. csimpl.
    rewrite !list_insert_inserts_lt by lia. f_equal. lia.
Qed.

Lemma length_idx_diag rc cc sd : length (idx_diag rc cc sd) = sd.
Proof. unfold idx_diag. by rewrite length_fmap, length_seq. Qed.

Lemma length_set_block_cols {F} r c (b columns : list (list F)) :
  length (set_block_cols r c b columns) = length columns.
Proof.
  revert c columns. induction b as [|v b IH]; intros c columns; simpl; [done|].
  by rewrite IH, length_alter.
Qed.

Lemma lookup_set_block_cols_ge {F} r c (b columns : list (list F)) j :
  c + length b ≤ j → set_block_cols r c b columns !! j = columns !! j.
Proof.
  revert c columns. induction b as [|v b IH]; intros c columns Hj; simpl in *;
    [done|].
  rewrite IH by lia. apply list_lookup_alter_ne. lia.
Qed.

Lemma set_block_empty {F} (b m : MatrixXd F) :
  Forall (λ column, length column = 0) (mat_cols b) → set_block 0 0 b m = m.
Proof.
  intros Hb. unfold set_block. destruct m as [r columns]. simpl. f_equal.
  generalize 0 at 2. revert columns.
  induction Hb as [|v b' Hv Hb IH]; intros columns c; simpl; [done|].
  rewrite IH. apply list_alter_id. intros column.
  by destruct v.
Qed.

Section Chunks.
Context {F : Type}.

Lemma fold_opt_chunks sd (chunks : list (list F)) (buf : list F) cursor :
  Forall (λ c, length c = sd) chunks →
  fold_opt (λ c '(buf, cursor),
      Some (write_segment cursor (take sd c) buf, cursor + sd))
    chunks (buf, cursor)
  = Some (write_segment cursor (concat chunks) buf,
          cursor + sd * length chunks).
Proof.
  intros Hall. revert buf cursor.
  induction Hall as [|c chunks Hc Hall IH]; intros buf cursor; csimpl.
  - do 2 f_equal. lia.
  - rewrite IH. do 2 f_equal; [|lia].
    rewrite take_ge by lia. unfold write_segment.
    rewrite list_inserts_app_l, Hc. by rewrite (Nat.add_comm sd cursor).
Qed.

Lemma scatter_zip n (idx : list (nat * nat)) (vals : list F) m :
  length idx = n → length vals = n →
  scatter n idx.*1 idx.*2 vals m = Some (foldl apply_entry m (zip idx vals)).
Proof.
  intros Hidx Hvals. unfold scatter.
  assert (n = length (zip idx vals)) as Hn by (rewrite length_zip; lia).
  rewrite Hn at 1.
  rewrite (for_loop_fold_opt _ _ (λ e m, Some (apply_entry m e))).
  - clear. revert m. induction (zip idx vals) as [|e l IH]; intros m; [done|].
    simpl. apply IH.
  - intros i [[r c] v] m' Hi. simpl.
    apply lookup_zip_with_Some in Hi as (e & v' & [= <- <-] & He & Hv).
    rewrite !list_lookup_fmap, He, Hv. done.
Qed.
End Chunks.

(** ** Sparse equals dense, for problems without custom constraints *)

Section SparseDense.
Context `{ScalarLaws F} `{AbstractShot F World} `{ShotKernels F World}.
Implicit Types (m : MatrixXd F) (shots : list (SingleShot F)).

Lemma well_shaped_Zero r c : well_shaped r c (@Zero F _ r c).
Proof.
  split; [done|]. split; [apply length_replicate|].
  apply Forall_replicate. apply length_replicate.
Qed.

Lemma mat_setZero_shaped r c m : well_shaped r c m → mat_setZero m = Zero r c.
Proof.
  intros (Hr & Hc & Hall). unfold mat_setZero, Zero. rewrite Hr. f_equal.
  symmetry. apply replicate_as_Forall. split; [by rewrite length_fmap|].
  apply Forall_fmap. eapply Forall_impl; [exact Hall|].
  intros column Hlen. simpl. unfold setZero. by rewrite Hlen.
Qed.

Lemma zero_below_Zero r c : Forall (zero_below r 0) (mat_cols (@Zero F _ r c)).
Proof.
  apply Forall_replicate. split; [apply length_replicate|].
  intros j _ Hj. by apply lookup_replicate_2.
Qed.

Section Pairs.
Variables (world : World) (sd cd : nat).
Hypothesis kernel_shape : ∀ shot r c b,
  well_shaped r c b →
  well_shaped r c (SingleShot_backpropJacobianOfFinalState world shot b).

Lemma final_jacobian_shape shot :
  well_shaped sd (SingleShot_getFlatProblemDim shot)
    (final_jacobian world sd shot).
Proof. apply kernel_shape, well_shaped_Zero. Qed.

Lemma length_knot_indices shots rc cc :
  length (knot_indices sd shots rc cc) = sum_list (pair_count sd <$> shots).
Proof.
  revert rc cc. induction shots as [|s shots IH]; intros rc cc; csimpl; [done|].
  rewrite !length_app, length_idx_block, length_idx_diag, IH. done.
Qed.

Lemma length_pair_values shot :
  length (concat (mat_cols (final_jacobian world sd shot))
          ++ replicate sd (smul sone sneg1))
  = pair_count sd shot.
Proof.
  destruct (final_jacobian_shape shot) as (_ & Hlen & Hall).
  rewrite length_app, (length_concat_uniform _ sd), Hlen, length_replicate
    by done.
  unfold pair_count. lia.
Qed.

Lemma length_knot_values shots :
  length (knot_values world sd shots) = sum_list (pair_count sd <$> shots).
Proof.
  unfold knot_values.
  induction shots as [|s shots IH]; csimpl; [done|].
  rewrite length_app, length_pair_values, IH. done.
Qed.

(** The dense assembly of the knot blocks writes what scattering the knot
    values at the knot indices writes. *)
Lemma dense_pairs shots m rc cc :
  Forall (zero_below cd rc) (mat_cols m) →
  rc + sd * length shots ≤ cd →
  cc + sum_list (SingleShot_getFlatProblemDim <$> shots) ≤ cols m →
  fold_opt (λ prev '(jac, rowCursor, colCursor),
      let dim := SingleShot_getFlatProblemDim prev in
      let jac :=
        set_block rowCursor colCursor
          (SingleShot_backpropJacobianOfFinalState world prev
             (block jac rowCursor colCursor sd dim)) jac in
      let colCursor := colCursor + dim in
      let jac :=
        set_block rowCursor colCursor (mat_scale sneg1 (Identity sd)) jac in
      Some (jac, rowCursor + sd, colCursor)) shots (m, rc, cc)
  = Some (foldl apply_entry m
            (zip (knot_indices sd shots rc cc) (knot_values world sd shots)),
          rc + sd * length shots,
          cc + sum_list (SingleShot_getFlatProblemDim <$> shots)).
Proof.
  cbv zeta. revert m rc cc.
  induction shots as [|s shots IH]; intros m rc cc Hz Hrc Hcc.
  { csimpl. do 2 f_equal; [f_equal|]; lia. }
  cbn [fold_opt]. csimpl in Hrc. csimpl in Hcc.
  set (d := SingleShot_getFlatProblemDim s) in *.
  rewrite (block_zero m cd) by (done || lia).
  change (SingleShot_backpropJacobianOfFinalState world s (Zero sd d))
    with (final_jacobian world sd s).
  destruct (final_jacobian_shape s) as (_ & Hlen & Hall). fold d in Hlen.
  set (J := final_jacobian world sd s) in *.
  assert (set_block rc cc J m
          = foldl apply_entry m (zip (idx_block rc cc sd d) (concat (mat_cols J))))
    as HJ.
  { rewrite <-Hlen. by rewrite scatter_block. }
  assert (set_block rc (cc + d) (mat_scale sneg1 (Identity sd))
            (set_block rc cc J m)
          = foldl apply_entry m
              (zip (idx_block rc cc sd d ++ idx_diag rc (cc + d) sd)
                   (concat (mat_cols J) ++ replicate sd (smul sone sneg1))))
    as Hpair.
  { rewrite zip_with_app
      by (rewrite length_idx_block, (length_concat_uniform _ sd) by done; lia).
    rewrite foldl_app, <-HJ.
    symmetry. apply (scatter_diagonal _ cd); [|lia].
    intros q column. unfold set_block. simpl.
    rewrite lookup_set_block_cols_ge by lia.
    intros Hcol. rewrite Forall_lookup in Hz. by eapply Hz. }
  rewrite Hpair. cbn [mbind option_bind].
  rewrite IH.
  - unfold knot_values. csimpl. fold d. fold J.
    rewrite (zip_with_app pair
               (idx_block rc cc sd d ++ idx_diag rc (cc + d) sd)), foldl_app.
    + replace (rc + sd + sd * length shots)
        with (rc + sd * S (length shots)) by lia.
      replace (cc + d + sum_list (SingleShot_getFlatProblemDim <$> shots))
        with (cc + (d + sum_list (SingleShot_getFlatProblemDim <$> shots)))
        by lia.
      done.
    + rewrite !length_app, length_idx_block, length_idx_diag,
        (length_concat_uniform _ sd), length_replicate by done. lia.
  - rewrite <-Hpair. unfold set_block. cbn [mat_cols].
    apply zero_below_set_block.
    { rewrite mat_cols_neg_identity. apply Forall_fmap, Forall_forall.
      intros q _. apply length_neg_identity_col. }
    apply zero_below_set_block; [done|].
    eapply Forall_impl; [exact Hz|]. intros column.
    apply zero_below_weaken. lia.
  - lia.
  - rewrite <-Hpair. unfold cols, set_block in *. cbn [mat_cols].
    rewrite !length_set_block_cols. lia.
Qed.

(** The index pairs are emitted pair by pair. *)
Lemma structure_pairs shots st rc cc :
  fold_opt (λ prev '(st, rowCursor, colCursor),
      let dim := SingleShot_getFlatProblemDim prev in
      st ← for_loop (λ column st,
               for_loop (λ row st, Some (emit row column st))
                 rowCursor sd st)
             colCursor dim st;
      let colCursor := colCursor + dim in
      st ← for_loop (λ q st, Some (emit (rowCursor + q) (colCursor + q) st))
             0 sd st;
      Some (st, rowCursor + sd, colCursor)) shots (st, rc, cc)
  = Some (emit_list (knot_indices sd shots rc cc) st,
          rc + sd * length shots,
          cc + sum_list (SingleShot_getFlatProblemDim <$> shots)).
Proof.
  cbv zeta. revert st rc cc. induction shots as [|s shots IH]; intros st rc cc.
  { csimpl. by rewrite Nat.mul_0_r, !Nat.add_0_r. }
  cbn [fold_opt]. rewrite emit_block. cbn [mbind option_bind].
  rewrite emit_diag. cbn [mbind option_bind].
  rewrite IH. cbn [knot_indices]. rewrite !emit_list_app. csimpl.
  replace (rc + sd + sd * length shots)
    with (rc + sd * S (length shots)) by lia.
  by rewrite Nat.add_assoc.
Qed.

(** The values are written pair by pair. *)
Lemma sparse_pairs shots (sparse : list F) cursor :
  fold_opt (λ prev '(sparse, sparseCursor),
      let dim := SingleShot_getFlatProblemDim prev in
      let jac := Zero sd dim in
      let jac := SingleShot_backpropJacobianOfFinalState world prev jac in
      '(sparse, sparseCursor) ←
        for_loop (λ column '(sparse, sparseCursor),
            c ← col jac column;
            Some (write_segment sparseCursor (take sd c) sparse,
                  sparseCursor + sd))
          0 dim (sparse, sparseCursor);
      let sparse :=
        write_segment sparseCursor
          ((λ x, smul x sneg1) <$> replicate sd sone) sparse in
      Some (sparse, sparseCursor + sd)) shots (sparse, cursor)
  = Some (write_segment cursor (knot_values world sd shots) sparse,
          cursor + length (knot_values world sd shots)).
Proof.
  cbv zeta. revert sparse cursor.
  induction shots as [|s shots IH]; intros sparse cursor.
  { csimpl. by rewrite Nat.add_0_r. }
  cbn [fold_opt].
  change (SingleShot_backpropJacobianOfFinalState world s
            (Zero sd (SingleShot_getFlatProblemDim s)))
    with (final_jacobian world sd s).
  destruct (final_jacobian_shape s) as (_ & Hlen & Hall).
  set (d := SingleShot_getFlatProblemDim s) in *.
  set (J := final_jacobian world sd s) in *.
  rewrite <-Hlen.
  rewrite (for_loop_fold_opt (mat_cols J) _
    (λ c '(sparse, sparseCursor),
       Some (write_segment sparseCursor (take sd c) sparse, sparseCursor + sd))).
  2:{ intros i x [sp cur] Hx. unfold col. simpl. by rewrite Hx. }
  rewrite fold_opt_chunks by done. simpl. rewrite IH.
  unfold knot_values. csimpl. fold J. rewrite fmap_replicate.
  unfold write_segment. rewrite !list_inserts_app_l, !length_app.
  rewrite !(length_concat_uniform _ sd), !length_replicate by done.
  f_equal. f_equal; [|lia].
  f_equal; [lia|]. f_equal. lia.
Qed.
End Pairs.
End SparseDense.

Section SparseDenseMain.
Context `{ScalarLaws F} `{AbstractShot F World} `{ShotKernels F World}.

Lemma sum_list_take_le (l : list nat) k : sum_list (take k l) ≤ sum_list l.
Proof.
  revert k. induction l as [|x l IH]; intros [|k]; simpl; try lia.
  specialize (IH k). lia.
Qed.

Lemma write_segment_all {A} (e old : list A) :
  length old = length e → write_segment 0 e old = e.
Proof.
  intros Hlen. rewrite <-(app_nil_r old), write_segment_0_app by done.
  by rewrite app_nil_r.
Qed.

Lemma block_empty_shape (m : MatrixXd F) c w :
  Forall (λ column, length column = 0) (mat_cols (block m 0 c 0 w)).
Proof.
  unfold block. cbn [mat_cols]. apply Forall_fmap, Forall_forall.
  intros column _. done.
Qed.

(** X1.  Without custom constraints, scattering the values of
    [getSparseJacobian] at the index pairs of [getJacobianSparsityStructure]
    into a zero matrix gives the matrix of [backpropJacobian], entry for
    entry; the values are emitted in the order of the indices. *)
Theorem sparse_Jacobian_reconstructs_dense (ms : MultiShot F) (world : World)
    (jac0 : MatrixXd F) (rows0 cols0 : list nat) (sparse0 : list F)
    (nnz : nat) :
  AbstractShot_getConstraintDim = 0 →
  AbstractShot_getNumberNonZeroJacobian = 0 →
  (∀ w b, Forall (λ column, length column = 0) (mat_cols b) →
     Forall (λ column, length column = 0)
       (mat_cols (AbstractShot_backpropJacobian w b))) →
  (∀ r c, length (AbstractShot_getJacobianSparsityStructure r c).1 = length r
          ∧ length (AbstractShot_getJacobianSparsityStructure r c).2
            = length c) →
  (∀ shot r c b, well_shaped r c b →
     well_shaped r c (SingleShot_backpropJacobianOfFinalState world shot b)) →
  MultiShot_getNumberNonZeroJacobian ms = Some nnz →
  well_shaped (MultiShot_getConstraintDim ms) (MultiShot_getFlatProblemDim ms)
    jac0 →
  length rows0 = nnz → length cols0 = nnz → length sparse0 = nnz →
  ∃ dense rows columns sparse,
    MultiShot_backpropJacobian ms world jac0 = Some dense
    ∧ MultiShot_getJacobianSparsityStructure ms rows0 cols0
      = Some (rows, columns)
    ∧ MultiShot_getSparseJacobian ms world sparse0 = Some sparse
    ∧ length rows = nnz ∧ length columns = nnz ∧ length sparse = nnz
    ∧ scatter nnz rows columns sparse
        (Zero (MultiShot_getConstraintDim ms) (MultiShot_getFlatProblemDim ms))
      = Some dense.
Proof.
  intros Hdim Hpnnz Hpjac Hpstruct Hkernel Hnnz Hjac Hrows Hcols Hsparse.
  set (sd := stateDim ms).
  set (shots := take (length (mShots ms) - 1) (mShots ms)).
  set (idx := knot_indices sd shots 0 0).
  set (vals := knot_values world sd shots).
  assert (mShots ms ≠ []) as Hne.
  { intros Hnil. unfold MultiShot_getNumberNonZeroJacobian in Hnnz.
    by rewrite Hnil in Hnnz. }
  rewrite getNumberNonZeroJacobian_eq, Hpnnz in Hnnz by done.
  injection Hnnz as Hnnz. fold sd in Hnnz. fold shots in Hnnz.
  change (λ shot : SingleShot F, SingleShot_getFlatProblemDim shot * sd + sd)
    with (@pair_count F sd) in Hnnz.
  assert (length idx = nnz) as Hidx
    by (unfold idx; rewrite length_knot_indices; lia).
  assert (length vals = nnz) as Hvals
    by (unfold vals; rewrite (length_knot_values world sd Hkernel); lia).
  assert (length shots = length (mShots ms) - 1) as Hshots
    by (unfold shots; rewrite length_take; lia).
  unfold MultiShot_getConstraintDim in *. rewrite Hdim in *. fold sd in Hjac |- *.
  set (cd := 0 + sd * (length (mShots ms) - 1)) in *.
  set (n := MultiShot_getFlatProblemDim ms) in *.
  exists (foldl apply_entry (Zero cd n) (zip idx vals)), idx.*1, idx.*2, vals.
  split; [|split; [|split; [|split; [|split; [|split]]]]].
  - unfold MultiShot_backpropJacobian. cbv zeta. rewrite Hdim. fold sd n.
    rewrite (mat_setZero_shaped cd n) by done.
    rewrite set_block_empty by apply Hpjac, block_empty_shape.
    rewrite (for_loop_prev (mShots ms) _
      (λ prev '(jac, rowCursor, colCursor),
         Some (set_block rowCursor
                 (colCursor + SingleShot_getFlatProblemDim prev)
                 (mat_scale sneg1 (Identity sd))
                 (set_block rowCursor colCursor
                    (SingleShot_backpropJacobianOfFinalState world prev
                       (block jac rowCursor colCursor sd
                          (SingleShot_getFlatProblemDim prev))) jac),
               rowCursor + sd,
               colCursor + SingleShot_getFlatProblemDim prev))).
    2:{ intros i p [[jac rc] cc] Hp. simpl. by rewrite Nat.sub_0_r, Hp. }
    fold shots.
    pose proof (dense_pairs world sd cd Hkernel shots (Zero cd n) (0 + 0) 0)
      as Hd.
    cbv zeta in Hd. rewrite Hd; [done|..].
    + apply zero_below_Zero.
    + unfold cd. lia.
    + unfold cols. simpl. rewrite length_replicate. unfold n.
      rewrite MultiShot_getFlatProblemDim_sum. unfold shots.
      rewrite fmap_take. apply sum_list_take_le.
  - unfold MultiShot_getJacobianSparsityStructure. cbv zeta. rewrite Hdim.
    fold sd n. rewrite Nat.mul_0_r.
    destruct (Hpstruct (segment rows0 0 0) (segment cols0 0 0)) as [Hp1 Hp2].
    destruct (AbstractShot_getJacobianSparsityStructure _ _) as [prows pcols].
    simpl in Hp1, Hp2.
    destruct prows; [|done]. destruct pcols; [|done].
    change (write_segment 0 [] rows0) with rows0.
    change (write_segment 0 [] cols0) with cols0.
    rewrite (for_loop_prev (mShots ms) _
      (λ prev '(st, rowCursor, colCursor),
         st ← for_loop (λ column st,
                  for_loop (λ row st, Some (emit row column st))
                    rowCursor sd st)
                colCursor (SingleShot_getFlatProblemDim prev) st;
         st ← for_loop (λ q st,
                  Some (emit (rowCursor + q)
                          (colCursor + SingleShot_getFlatProblemDim prev + q)
                          st))
                0 sd st;
         Some (st, rowCursor + sd,
               colCursor + SingleShot_getFlatProblemDim prev))).
    2:{ intros i p [[st rc] cc] Hp. simpl. by rewrite Nat.sub_0_r, Hp. }
    fold shots.
    pose proof (structure_pairs sd shots (mkSparsity rows0 cols0 0) (0 + 0) 0)
      as Hs.
    cbv zeta in Hs. rewrite Hs. simpl. fold idx.
    rewrite emit_list_spec. simpl.
    rewrite !write_segment_all by (rewrite length_fmap; lia). done.
  - unfold MultiShot_getSparseJacobian. cbv zeta. rewrite Hpnnz. fold sd.
    rewrite (for_loop_prev (mShots ms) _
      (λ prev '(sparse, sparseCursor),
         '(sparse, sparseCursor) ←
           for_loop (λ column '(sparse, sparseCursor),
               c ← col (SingleShot_backpropJacobianOfFinalState world prev
                          (Zero sd (SingleShot_getFlatProblemDim prev)))
                       column;
               Some (write_segment sparseCursor (take sd c) sparse,
                     sparseCursor + sd))
             0 (SingleShot_getFlatProblemDim prev) (sparse, sparseCursor);
         Some (write_segment sparseCursor
                 ((λ x, smul x sneg1) <$> replicate sd sone) sparse,
               sparseCursor + sd))).
    2:{ intros i p [sp cur] Hp. simpl. by rewrite Nat.sub_0_r, Hp. }
    fold shots.
    pose proof (sparse_pairs world sd Hkernel shots sparse0 0) as Hs.
    cbv zeta in Hs. rewrite Hs. simpl. fold vals.
    rewrite write_segment_all by lia. done.
  - by rewrite length_fmap.
  - by rewrite length_fmap.
  - done.
  - by apply scatter_zip.
Qed.
End SparseDenseMain.

(** ** Construction *)

Section Construction.
Context `{Scalar F} `{Simulator F World}.
Open Scope Z_scope.

Lemma shot_sizes_last rem L : 0 < rem ≤ L → shot_sizes rem L = [rem].
Proof.
  intros Hr. unfold shot_sizes.
  destruct (decide (rem = L)) as [->|Hne].
  - rewrite Z.div_same, Z_mod_same_full by lia. done.
  - rewrite Z.div_small, Z.mod_small by lia. simpl. rewrite decide_False by lia. done.
Qed.

Lemma shot_sizes_step rem L : 0 < L < rem → shot_sizes rem L = L :: shot_sizes (rem - L) L.
Proof.
  intros Hr. unfold shot_sizes.
  assert (rem / L = (rem - L) / L + 1) as ->.
  { rewrite <-Z.div_add by lia. f_equal. lia. }
  assert (rem mod L = (rem - L) mod L) as ->.
  { rewrite <-(Z.mod_add (rem - L) 1 L) by lia. f_equal. lia. }
  rewrite Z2Nat.inj_add by (try apply Z.div_pos; lia).
  rewrite Nat.add_comm. simpl. done.
Qed.

Lemma shot_sizes_length steps L :
  0 ≤ steps → 0 < L → Z.of_nat (length (shot_sizes steps L)) = (steps + L - 1) / L.
Proof.
  intros Hs HL. unfold shot_sizes. rewrite length_app, length_replicate.
  pose proof (Z.div_mod steps L ltac:(lia)) as Hdm.
  pose proof (Z.mod_pos_bound steps L HL) as Hb.
  assert (0 ≤ steps / L) by (apply Z.div_pos; lia).
  case_decide; simpl.
  - rewrite Nat2Z.inj_add, Z2Nat.id by lia. simpl.
    rewrite Z.add_0_r. apply Z.div_unique with (r := L - 1); lia.
  - rewrite Nat2Z.inj_add, Z2Nat.id by lia.
    apply Z.div_unique with (r := steps mod L - 1); lia.
Qed.

Lemma shot_sizes_sum steps L :
  0 ≤ steps → 0 < L → foldr Z.add 0 (shot_sizes steps L) = steps.
Proof.
  intros Hs HL. unfold shot_sizes. rewrite foldr_app.
  pose proof (Z.div_mod steps L ltac:(lia)) as Hdm.
  assert (0 ≤ steps / L) as Hq by (apply Z.div_pos; lia).
  assert (∀ n a, foldr Z.add a (replicate n L) = Z.of_nat n * L + a) as Hrep.
  { induction n as [|n IH]; intros a; simpl; [lia|]. rewrite IH. lia. }
  rewrite Hrep, Z2Nat.id by lia. case_decide; simpl; lia.
Qed.

Lemma shot_sizes_0 L : shot_sizes 0 L = [].
Proof. unfold shot_sizes. rewrite Zdiv_0_l, Zmod_0_l. done. Qed.


Lemma build_shots_not_first world tune sizes :
  build_shots world tune false sizes
  = (λ n, SingleShot_new world (Z.to_nat n) true) <$> sizes.
Proof. by destruct sizes. Qed.

Lemma MultiShot_loop_spec fuel world L tune rem isFirst acc :
  0 < L → 0 ≤ rem → (Z.to_nat rem ≤ fuel)%nat →
  MultiShot_loop fuel world L tune rem isFirst acc
  = Some (acc ++ build_shots world tune isFirst (shot_sizes rem L)).
Proof.
  intros HL. revert rem isFirst acc.
  induction fuel as [|fuel IH]; intros rem isFirst acc Hrem Hfuel.
  - assert (rem = 0) as -> by lia.
    rewrite shot_sizes_0. simpl. by rewrite app_nil_r.
  - cbn [MultiShot_loop]. case_bool_decide as Hpos.
    + destruct (decide (rem ≤ L)) as [Hle|Hgt].
      * rewrite Z.min_r by lia. rewrite Z.sub_diag.
        rewrite IH by lia. rewrite shot_sizes_0, shot_sizes_last by lia.
        simpl. by rewrite app_nil_r.
      * rewrite Z.min_l by lia. rewrite IH by lia.
        rewrite (shot_sizes_step rem L) by lia.
        rewrite build_shots_not_first. simpl. by rewrite <-app_assoc.
    + assert (rem = 0) as -> by lia. rewrite shot_sizes_0. simpl.
      by rewrite app_nil_r.
Qed.

Lemma build_shots_steps world tune isFirst sizes :
  Forall (λ n, 0 ≤ n) sizes →
  (λ s, Z.of_nat (mSteps s)) <$> build_shots world tune isFirst sizes = sizes.
Proof.
  intros Hall. destruct Hall as [|n r Hn Hr]; [done|]. simpl.
  rewrite Z2Nat.id by done. f_equal.
  induction Hr as [|m r Hm Hr IH]; [done|]. simpl.
  rewrite Z2Nat.id by done. by f_equal.
Qed.

Lemma shot_sizes_nonneg steps L :
  0 ≤ steps → 0 < L → Forall (λ n, 0 ≤ n) (shot_sizes steps L).
Proof.
  intros Hs HL. unfold shot_sizes. apply Forall_app. split.
  - apply Forall_replicate. lia.
  - pose proof (Z.mod_pos_bound steps L HL). case_decide; repeat constructor. lia.
Qed.

Lemma build_shots_flags world tune isFirst sizes :
  mTuneStartingState <$> build_shots world tune isFirst sizes
  = match sizes with
    | [] => []
    | _ :: r => (negb isFirst || tune) :: replicate (length r) true
    end.
Proof.
  destruct sizes as [|n r]; [done|]. simpl. f_equal.
  induction r as [|m r IH]; [done|]. simpl. by f_equal.
Qed.

(** C5.  Constructing a multi-shot problem with [steps >= 1] and
    [shotLength >= 1] terminates (any fuel of at least [steps] iterations
    gives the same problem) and produces [ceil (steps / shotLength)] single
    shots whose step counts are [shotLength, ..., shotLength, remainder] and
    sum to [steps]; the first shot carries the flag of the caller and every
    later shot has [tuneStartingState = true]. *)
Theorem MultiShot_new_shots (world : World) (steps shotLength : Z)
    (tuneStartingState : bool) :
  1 ≤ steps → 1 ≤ shotLength →
  ∃ ms : MultiShot F,
    (∀ fuel, (Z.to_nat steps ≤ fuel)%nat →
       MultiShot_new fuel world steps shotLength tuneStartingState = Some ms)
    ∧ Z.of_nat (length (mShots ms)) = (steps + shotLength - 1) / shotLength
    ∧ (λ s, Z.of_nat (SingleShot_getNumSteps s)) <$> mShots ms
      = replicate (Z.to_nat (steps / shotLength)) shotLength
        ++ (if decide (steps mod shotLength = 0) then []
            else [steps mod shotLength])
    ∧ foldr Z.add 0 ((λ s, Z.of_nat (SingleShot_getNumSteps s)) <$> mShots ms)
      = steps
    ∧ mTuneStartingState <$> mShots ms
      = tuneStartingState :: replicate (length (mShots ms) - 1) true.
Proof.
  intros Hs HL.
  set (shots := build_shots world tuneStartingState true
                  (shot_sizes steps shotLength)).
  exists (mkMultiShot shots steps shotLength tuneStartingState
            (let n := getNumDofs world in mkMapping n n n)).
  assert ((λ s, Z.of_nat (SingleShot_getNumSteps s)) <$> shots
          = shot_sizes steps shotLength) as Hsteps.
  { apply build_shots_steps, shot_sizes_nonneg; lia. }
  assert (length shots = length (shot_sizes steps shotLength)) as Hlen.
  { by rewrite <-Hsteps, length_fmap. }
  split; [|split; [|split; [|split]]]; simpl.
  - intros fuel Hfuel. unfold MultiShot_new.
    rewrite MultiShot_loop_spec by lia. done.
  - rewrite Hlen. apply shot_sizes_length; lia.
  - exact Hsteps.
  - rewrite Hsteps. apply shot_sizes_sum; lia.
  - unfold shots at 1. rewrite build_shots_flags. rewrite Hlen.
    destruct (shot_sizes steps shotLength) as [|n r] eqn:Hsz.
    + exfalso. pose proof (shot_sizes_length steps shotLength ltac:(lia) ltac:(lia)) as Hl.
      rewrite Hsz in Hl. simpl in Hl.
      assert (1 ≤ (steps + shotLength - 1) / shotLength); [|lia].
      apply Z.div_le_lower_bound; lia.
    + simpl. by rewrite Nat.sub_0_r.
Qed.
End Construction.


Lemma foldl_bind {A B St} (g : St → B → St) (f : A → list B) (l : list A) st :
  foldl g st (l ≫= f) = foldl (λ st x, foldl g st (f x)) st l.
Proof.
  revert st. induction l as [|x l IH]; intros st; csimpl; [done|].
  by rewrite foldl_app, IH.
Qed.

Section States.
Context `{Simulator F World} `{ShotKernels F World}.




(** [toJson] hands the simulator back as it found it. *)
Lemma toJson_world_restores (identityPoses : list (list F)) (world : World) :
  toJson_world identityPoses world = world.
Proof. done. Qed.

Lemma monolithic_cursor (forces : list (list F)) world out cursor :
  (monolithic forces (world, out, cursor)).2 = cursor + length forces.
Proof.
  unfold monolithic. revert world out cursor.
  induction forces as [|f forces IH]; intros world out cursor; simpl; [lia|].
  rewrite IH. lia.
Qed.
End States.

Section ZeroMatrix.
Context `{Scalar F}.

Lemma Zero_shape r c : mat_rows (Zero r c) = r ∧ cols (Zero r c) = c.
Proof. unfold cols. simpl. by rewrite length_replicate. Qed.

Lemma Zero_coeff r c i j :
  i < r → j < c → coeff (Zero r c) i j = Some szero.
Proof.
  intros Hi Hj. unfold coeff. simpl.
  rewrite lookup_replicate_2 by done. simpl. by rewrite lookup_replicate_2.
Qed.

Lemma Zero_columns r c column :
  column ∈ mat_cols (Zero r c) → column = replicate r szero.
Proof. simpl. intros ?%elem_of_replicate. tauto. Qed.
End ZeroMatrix.

Section RolloutTheorems.
Context `{Scalar F}.
Import Rollout.

Lemma add_mappings_fresh steps (l : list (string * Mapping))
    (r0 : TrajectoryRolloutReal F) name :
  name ∉ l.*1 →
  let r := foldl (add_mapping steps) r0 l in
  mPoses r !! name = mPoses r0 !! name
  ∧ mVels r !! name = mVels r0 !! name
  ∧ mForces r !! name = mForces r0 !! name.
Proof.
  revert r0. induction l as [|[k m] l IH]; intros r0 Hname; csimpl in *.
  - done.
  - apply not_elem_of_cons in Hname as [Hne Hname].
    destruct (IH (add_mapping steps r0 (k, m)) Hname) as (-> & -> & ->).
    simpl. by rewrite !lookup_insert_ne.
Qed.

Lemma add_mappings_registered steps (l : list (string * Mapping))
    (r0 : TrajectoryRolloutReal F) name m :
  NoDup l.*1 → (name, m) ∈ l →
  let r := foldl (add_mapping steps) r0 l in
  mPoses r !! name = Some (Zero (getPosDim m) steps)
  ∧ mVels r !! name = Some (Zero (getVelDim m) steps)
  ∧ mForces r !! name = Some (Zero (getForceDim m) steps).
Proof.
  revert r0. induction l as [|[k m'] l IH]; intros r0 Hnd Hin; csimpl in *.
  - by apply elem_of_nil in Hin.
  - apply NoDup_cons in Hnd as [Hk Hnd].
    apply elem_of_cons in Hin as [[= -> ->]|Hin].
    + destruct (add_mappings_fresh steps l (add_mapping steps r0 (k, m')) k Hk)
        as (-> & -> & ->).
      simpl. by rewrite !lookup_insert_eq.
    + by apply IH.
Qed.

Lemma add_mappings_other steps (l : list (string * Mapping))
    (r0 : TrajectoryRolloutReal F) :
  let r := foldl (add_mapping steps) r0 l in
  mMappings r = mMappings r0 ++ l.*1
  ∧ mMetadata r = mMetadata r0
  ∧ mRepresentationMapping r = mRepresentationMapping r0.
Proof.
  revert r0. induction l as [|[k m] l IH]; intros r0; csimpl.
  - by rewrite app_nil_r.
  - destruct (IH (add_mapping steps r0 (k, m))) as (-> & -> & ->).
    simpl. by rewrite <-app_assoc.
Qed.

(** C10.  A freshly constructed owning rollout holds, for every registered
    mapping, all-zero poses, vels and forces matrices with [posDim],
    [velDim] and [forceDim] rows and [steps] columns each, nothing for
    other names, an all-zero masses vector of length [massDim], the names of
    the mappings and the metadata it was given. *)
Theorem TrajectoryRolloutReal_new_zero (mappings : gmap string Mapping)
    (steps : nat) (representationMapping : string) (massDim : nat)
    (metadata : gmap string (MatrixXd F)) :
  let r := TrajectoryRolloutReal_new mappings steps representationMapping
             massDim metadata in
  (∀ name,
     match mappings !! name with
     | Some m =>
         mPoses r !! name = Some (Zero (getPosDim m) steps)
         ∧ mVels r !! name = Some (Zero (getVelDim m) steps)
         ∧ mForces r !! name = Some (Zero (getForceDim m) steps)
     | None =>
         mPoses r !! name = None ∧ mVels r !! name = None
         ∧ mForces r !! name = None
     end)
  ∧ (∀ rows, mat_rows (Zero rows steps) = rows
             ∧ cols (Zero rows steps) = steps
             ∧ Forall (λ column, column = replicate rows szero)
                 (mat_cols (Zero rows steps)))
  ∧ mMasses r = replicate massDim szero
  ∧ mMappings r ≡ₚ elements (dom mappings)
  ∧ mMetadata r = metadata
  ∧ mRepresentationMapping r = representationMapping.
Proof.
  intros r. unfold r, TrajectoryRolloutReal_new. simpl.
  split; [|split; [|split; [|split; [|split]]]].
  - intros name. destruct (mappings !! name) as [m|] eqn:Hm.
    + apply add_mappings_registered.
      * apply NoDup_fst_map_to_list.
      * by apply elem_of_map_to_list.
    + pose proof (add_mappings_fresh steps (map_to_list mappings)
        (mkReal representationMapping [] ∅ ∅ ∅ [] metadata) name) as Hf.
      simpl in Hf. rewrite !lookup_empty in Hf. apply Hf.
      intros ((k & m) & -> & Hin%elem_of_map_to_list)%list_elem_of_fmap.
      simpl in *. congruence.
  - intros rows. split; [done|]. split; [apply Zero_shape|].
    apply Forall_forall. apply Zero_columns.
  - done.
  - destruct (add_mappings_other steps (map_to_list mappings)
      (mkReal representationMapping [] ∅ ∅ ∅ [] metadata)) as (-> & _ & _).
    simpl. symmetry. apply NoDup_Permutation.
    + apply NoDup_elements.
    + apply NoDup_fst_map_to_list.
    + intros k. rewrite elem_of_elements, elem_of_dom.
      rewrite list_elem_of_fmap. split.
      * intros [m Hm]. exists (k, m). split; [done|].
        by apply elem_of_map_to_list.
      * intros ((k' & m) & -> & Hin%elem_of_map_to_list). by exists m.
  - by destruct (add_mappings_other steps (map_to_list mappings)
      (mkReal representationMapping [] ∅ ∅ ∅ [] metadata)) as (_ & -> & _).
  - by destruct (add_mappings_other steps (map_to_list mappings)
      (mkReal representationMapping [] ∅ ∅ ∅ [] metadata)) as (_ & _ & ->).
Qed.


(** C8.  On a const slice, [getPoses], [getVels], [getForces],
    [getMasses] and [setMetadata] end in the failed assertion whatever the
    sliced rollout, the window and the arguments are: no call returns a
    value. *)
Theorem TrajectoryRolloutConstRef_mutation_fails
    (mToSlice : TrajectoryRollout F) (mStart mLen : nat)
    (mapping key : string) (value : MatrixXd F) :
  let slice := ConstRef mToSlice mStart mLen in
  getPoses slice mapping = AssertFails const_ref_message
  ∧ getVels slice mapping = AssertFails const_ref_message
  ∧ getForces slice mapping = AssertFails const_ref_message
  ∧ getMasses slice = AssertFails const_ref_message
  ∧ setMetadata slice key value = AssertFails const_ref_message
  ∧ (∀ m, getPoses slice mapping ≠ Returns m)
  ∧ (∀ m, getVels slice mapping ≠ Returns m)
  ∧ (∀ m, getForces slice mapping ≠ Returns m)
  ∧ (∀ m, getMasses slice ≠ Returns m)
  ∧ (∀ t, setMetadata slice key value ≠ Returns t).
Proof. simpl. repeat split; done. Qed.
End RolloutTheorems.

(** ** Worked examples on the point-mass simulator *)

Section Examples.
#[local] Existing Instances Box.Z_scalar Box.simulator Box.kernels.
Open Scope Z_scope.

Lemma MultiShot_new_shots_witness :
  ∃ ms : MultiShot Z,
    (∀ fuel, (Z.to_nat 7 ≤ fuel)%nat →
       MultiShot_new fuel Box.world0 7 3 false = Some ms)
    ∧ Z.of_nat (length (mShots ms)) = (7 + 3 - 1) / 3
    ∧ (λ s, Z.of_nat (SingleShot_getNumSteps s)) <$> mShots ms
      = replicate (Z.to_nat (7 / 3)) 3
        ++ (if decide (7 mod 3 = 0) then [] else [7 mod 3])
    ∧ foldr Z.add 0 ((λ s, Z.of_nat (SingleShot_getNumSteps s)) <$> mShots ms)
      = 7
    ∧ mTuneStartingState <$> mShots ms
      = false :: replicate (length (mShots ms) - 1) true.
Proof. apply (MultiShot_new_shots Box.world0 7 3 false); lia. Defined.

Lemma MultiShot_flatten_unflatten_witness :
  let x := [11; 12; 13; 14; 15; 16; 17; 18; 19; 20] in
  MultiShot_getFlatProblemDim (MultiShot_unflatten x Box.three_shots)
  = MultiShot_getFlatProblemDim Box.three_shots
  ∧ MultiShot_flatten (MultiShot_unflatten x Box.three_shots)
      (replicate 10 0) = x.
Proof.
  apply (MultiShot_flatten_unflatten Box.three_shots); reflexivity.
Defined.

Section OneConstraint.
#[local] Existing Instance Box.constrained_three.

Lemma MultiShot_knot_constraints_witness :
  MultiShot_computeConstraints Box.three_shots Box.world0 (replicate 5 9)
  = Some [3; -1; -3; 20; 5]
  ∧ MultiShot_getConstraintUpperBounds (replicate 5 9) = [1; 0; 0; 0; 0]
  ∧ MultiShot_getConstraintLowerBounds (replicate 5 9) = [-1; 0; 0; 0; 0].
Proof.
  destruct (MultiShot_knot_constraints Box.three_shots Box.world0
              (replicate 5 9) (replicate 5 9))
    as (Hc & _ & _ & Hu & Hl).
  - reflexivity.
  - reflexivity.
  - intros w c. apply length_write_segment.
  - intros c. apply length_write_segment.
  - intros c. apply length_write_segment.
  - repeat constructor.
  - split; [exact Hc|]. split; [exact Hu|exact Hl].
Defined.

End OneConstraint.

Lemma Z_laws : @ScalarLaws Z Box.Z_scalar.
Proof. by split. Qed.

Lemma set_block_cols_shape {A} r c (b columns : list (list A)) n :
  Forall (λ column, length column = n) columns →
  Forall (λ column, length column = n) (set_block_cols r c b columns).
Proof.
  revert c columns. induction b as [|v b IH]; intros c columns Hall; [done|].
  simpl. apply IH. apply Forall_alter; [done|].
  intros column _ <-. apply length_write_segment.
Qed.

(** The kernel of the point-mass simulator writes into the matrix it is
    given and keeps its shape. *)
Lemma final_state_jacobian_shape w shot r c (b : MatrixXd Z) :
  well_shaped r c b → well_shaped r c (Box.final_state_jacobian w shot b).
Proof.
  intros (Hr & Hc & Hall). unfold Box.final_state_jacobian, set_block.
  split; [done|]. cbn [mat_cols]. split.
  - by rewrite length_set_block_cols.
  - by apply set_block_cols_shape.
Qed.

Section NoConstraints.
#[local] Existing Instances Z_laws Box.no_constraints.

Lemma sparse_Jacobian_reconstructs_dense_witness :
  ∃ dense rows columns sparse,
    MultiShot_backpropJacobian Box.three_shots Box.world0 (Zero 4 10)
    = Some dense
    ∧ MultiShot_getJacobianSparsityStructure Box.three_shots
        (replicate 16 0%nat) (replicate 16 0%nat)
      = Some (rows, columns)
    ∧ MultiShot_getSparseJacobian Box.three_shots Box.world0 (replicate 16 0)
      = Some sparse
    ∧ length rows = 16%nat ∧ length columns = 16%nat
    ∧ length sparse = 16%nat
    ∧ scatter 16 rows columns sparse
        (Zero (MultiShot_getConstraintDim Box.three_shots)
              (MultiShot_getFlatProblemDim Box.three_shots))
      = Some dense.
Proof.
  apply (sparse_Jacobian_reconstructs_dense Box.three_shots Box.world0
           (Zero 4 10) (replicate 16 0%nat) (replicate 16 0%nat)
           (replicate 16 0) 16).
  - reflexivity.
  - reflexivity.
  - intros w b Hb. exact Hb.
  - intros r c. split; reflexivity.
  - apply final_state_jacobian_shape.
  - reflexivity.
  - apply well_shaped_Zero.
  - reflexivity.
  - reflexivity.
  - reflexivity.
Defined.
End NoConstraints.


Section Misaligned.
#[local] Existing Instance Box.constrained_two.

(** C3.  On the two-shot problem with one custom constraint the sparse
    Jacobian does not reconstruct the dense one:
    [getJacobianSparsityStructure] emits the knot indices from position
    [0] on, over the six entries reserved for the parent, while
    [getSparseJacobian] writes the knot values behind them and no parent
    values at all.  Scattering the 14 values at the 14 index pairs gives
    a matrix that differs from [backpropJacobian]'s, for instance at
    [(1, 3)], where the dense matrix holds [-1] and the scattered one
    [1]. *)
Theorem sparse_Jacobian_misaligned_with_custom_constraint :
  let dense :=
    mkMatrix 3 [[7; 1; 0]; [7; 1; 1]; [7; 1; 1];
                [7; -1; 0]; [7; 0; -1]; [7; 0; 0]] in
  let rows := [1; 2; 1; 2; 1; 2; 1; 2; 0; 0; 0; 0; 0; 0]%nat in
  let columns := [0; 0; 1; 1; 2; 2; 3; 4; 0; 0; 0; 0; 0; 0]%nat in
  let sparse := [0; 0; 0; 0; 0; 0; 1; 0; 1; 1; 1; 1; -1; -1] in
  let recovered :=
    mkMatrix 3 [[-1; 0; 0]; [0; 0; 0]; [0; 0; 0];
                [0; 1; 0]; [0; 0; 0]; [0; 0; 0]] in
  MultiShot_getFlatProblemDim Box.two_shots = 6%nat
  ∧ MultiShot_getConstraintDim Box.two_shots = 3%nat
  ∧ MultiShot_getNumberNonZeroJacobian Box.two_shots = Some 14%nat
  ∧ MultiShot_backpropJacobian Box.two_shots Box.world0 (Zero 3 6)
    = Some dense
  ∧ MultiShot_getJacobianSparsityStructure Box.two_shots
      (replicate 14 0%nat) (replicate 14 0%nat)
    = Some (rows, columns)
  ∧ MultiShot_getSparseJacobian Box.two_shots Box.world0 (replicate 14 0)
    = Some sparse
  ∧ scatter 14 rows columns sparse (Zero 3 6) = Some recovered
  ∧ recovered ≠ dense
  ∧ coeff dense 1 3 = Some (-1)
  ∧ coeff recovered 1 3 = Some 1.
Proof. repeat split; try (vm_compute; reflexivity). discriminate. Qed.
End Misaligned.

(** C6.  [getStates] without knots takes a snapshot of the simulator but
    never restores it: on the two-shot problem the call returns with the
    simulator at position [4] and velocity [3], the end of the replay, not
    in the state the call found it in. *)
Theorem getStates_without_knots_leaves_world_moved :
  ∃ out,
    MultiShot_getStates Box.two_shots Box.world0
      (mkStates (Zero 1 2) (Zero 1 2) (Zero 1 2)) false
    = Some (Box.mkWorld [4] [3] [2], out)
    ∧ Box.mkWorld [4] [3] [2] ≠ Box.world0.
Proof. eexists. split; [vm_compute; reflexivity|discriminate]. Qed.
End Examples.

(** ** Slices, metadata and deep copies of rollouts *)

Section RolloutInterface.
Context `{Scalar F}.
Import Rollout.
Implicit Types (t : TrajectoryRollout F) (r : TrajectoryRolloutReal F).

Lemma getMetadata_virtual_backing t key :
  returned (getMetadata_virtual t key) = returned (getMetadata (backing t) key)
  ∧ printed (getMetadata_virtual t key) = printed (getMetadata (backing t) key).
Proof. induction t; simpl; auto. Qed.

Lemma getPosesConst_rebase t r r' name :
  backing t = r → mPoses r' = mPoses r →
  getPosesConst (rebase t r') name = getPosesConst t name.
Proof.
  intros <- Hp. induction t as [r0|s IH a b|s IH a b]; simpl in *.
  - by rewrite Hp.
  - by rewrite IH.
  - by rewrite IH.
Qed.

Lemma getVelsConst_rebase t r r' name :
  backing t = r → mVels r' = mVels r →
  getVelsConst (rebase t r') name = getVelsConst t name.
Proof.
  intros <- Hp. induction t as [r0|s IH a b|s IH a b]; simpl in *.
  - by rewrite Hp.
  - by rewrite IH.
  - by rewrite IH.
Qed.

Lemma getForcesConst_rebase t r r' name :
  backing t = r → mForces r' = mForces r →
  getForcesConst (rebase t r') name = getForcesConst t name.
Proof.
  intros <- Hp. induction t as [r0|s IH a b|s IH a b]; simpl in *.
  - by rewrite Hp.
  - by rewrite IH.
  - by rewrite IH.
Qed.

Lemma getMassesConst_backing t : getMassesConst t = Returns (mMasses (backing t)).
Proof. induction t; simpl; auto. Qed.

Lemma backing_rebase t r : backing (rebase t r) = r.
Proof. induction t; simpl; auto. Qed.

Lemma setMetadata_outcome t key (value : MatrixXd F) :
  setMetadata t key value
  = if writable t
    then Returns (rebase t (setMetadata_real key value (backing t)))
    else AssertFails const_ref_message.
Proof.
  induction t as [r|s IH a b|s IH a b]; simpl; [done| |done].
  rewrite IH. by destruct (writable s).
Qed.

(** X17.  Writing metadata through a chain of mutable slices reaches the owning
    rollout and leaves the chain as it is; a const slice anywhere on the way
    ends the call in the failed assertion. *)
Theorem setMetadata_reaches_backing t key (value : MatrixXd F) :
  setMetadata t key value
  = if writable t
    then Returns (rebase t (setMetadata_real key value (backing t)))
    else AssertFails const_ref_message.
Proof.
  induction t as [r|s IH a b|s IH a b]; simpl; [done| |done].
  rewrite IH. by destruct (writable s).
Qed.

(** X18.  Metadata written through a slice is read back through it, the other
    keys and all matrices and masses are as before. *)
Theorem setMetadata_then_getMetadata t t' key (value : MatrixXd F) :
  setMetadata t key value = Returns t' →
  returned (getMetadata_virtual t' key) = Returns value
  ∧ printed (getMetadata_virtual t' key) = []
  ∧ (∀ key', key' ≠ key →
       returned (getMetadata_virtual t' key')
       = returned (getMetadata_virtual t key'))
  ∧ (∀ name, getPosesConst t' name = getPosesConst t name
             ∧ getVelsConst t' name = getVelsConst t name
             ∧ getForcesConst t' name = getForcesConst t name)
  ∧ getMassesConst t' = getMassesConst t
  ∧ getMappings t' = getMappings t.
Proof.
  rewrite setMetadata_outcome.
  destruct (writable t); [|done]. intros [= <-].
  set (r' := setMetadata_real key value (backing t)).
  assert (∀ k, returned (getMetadata_virtual (rebase t r') k)
               = returned (getMetadata r' k)
             ∧ printed (getMetadata_virtual (rebase t r') k)
               = printed (getMetadata r' k)) as Hv.
  { intros k. destruct (getMetadata_virtual_backing (rebase t r') k) as [-> ->].
    by rewrite backing_rebase. }
  split; [|split; [|split; [|split; [|split]]]].
  - rewrite (proj1 (Hv key)). unfold getMetadata, r', at_. simpl.
    by rewrite !lookup_insert_eq.
  - rewrite (proj2 (Hv key)). unfold getMetadata, r'. simpl.
    by rewrite lookup_insert_eq.
  - intros key' Hne. rewrite (proj1 (Hv key')).
    rewrite (proj1 (getMetadata_virtual_backing t key')).
    unfold getMetadata, r', at_. simpl.
    rewrite !lookup_insert_ne by done.
    by destruct (mMetadata (backing t) !! key').
  - intros name. split; [|split].
    + by apply (getPosesConst_rebase t (backing t)).
    + by apply (getVelsConst_rebase t (backing t)).
    + by apply (getForcesConst_rebase t (backing t)).
  - by rewrite !getMassesConst_backing, backing_rebase.
  - clear. induction t; simpl; auto.
Qed.

Lemma slice_of_cases (mStart mLen : nat) (o : outcome (MatrixXd F)) :
  match o with
  | Returns m =>
      slice_of mStart mLen o = Returns (block m 0 mStart (mat_rows m) mLen)
  | Throws what => slice_of mStart mLen o = Throws what
  | AssertFails message => slice_of mStart mLen o = AssertFails message
  end.
Proof. by destruct o. Qed.

(** The shape of a lookup by mapping name through any chain of slices. *)
Lemma getter_through_slices
    (get : TrajectoryRollout F → string → outcome (MatrixXd F))
    (field : TrajectoryRolloutReal F → gmap string (MatrixXd F)) :
  (∀ r name, get (Real r) name = at_ (field r) name) →
  (∀ s a b name, get (Ref s a b) name = slice_of a b (get s name)) →
  (∀ s a b name, get (ConstRef s a b) name = slice_of a b (get s name)) →
  ∀ t name,
    match field (backing t) !! name with
    | None => get t name = Throws "std::out_of_range"
    | Some _ => ∃ m, get t name = Returns m
    end.
Proof.
  intros Hreal Href Hconst t name.
  induction t as [r|s IH a b|s IH a b]; simpl.
  - rewrite Hreal. unfold at_. destruct (field r !! name); eauto.
  - rewrite Href. destruct (field (backing s) !! name) as [m0|].
    + destruct IH as [m1 ->]. simpl. eauto.
    + by rewrite IH.
  - rewrite Hconst. destruct (field (backing s) !! name) as [m0|].
    + destruct IH as [m1 ->]. simpl. eauto.
    + by rewrite IH.
Qed.

(** X19.  A lookup by mapping name throws [std::out_of_range] exactly when the
    owning rollout at the end of the chain of slices does not hold the name,
    for each of the three reading members. *)
Theorem missing_mapping_throws t name :
  (getPosesConst t name = Throws "std::out_of_range"
   ↔ mPoses (backing t) !! name = None)
  ∧ (getVelsConst t name = Throws "std::out_of_range"
     ↔ mVels (backing t) !! name = None)
  ∧ (getForcesConst t name = Throws "std::out_of_range"
     ↔ mForces (backing t) !! name = None).
Proof.
  pose proof (getter_through_slices getPosesConst mPoses
                ltac:(done) ltac:(done) ltac:(done) t name) as Gp.
  pose proof (getter_through_slices getVelsConst mVels
                ltac:(done) ltac:(done) ltac:(done) t name) as Gv.
  pose proof (getter_through_slices getForcesConst mForces
                ltac:(done) ltac:(done) ltac:(done) t name) as Gf.
  split_and!.
  - destruct (mPoses (backing t) !! name); [|done].
    destruct Gp as [m' ->]. done.
  - destruct (mVels (backing t) !! name); [|done].
    destruct Gv as [m' ->]. done.
  - destruct (mForces (backing t) !! name); [|done].
    destruct Gf as [m' ->]. done.
Qed.

(** X20.  Over mutable slices only, the mutable members view what the reading
    members return. *)
Theorem mutable_getters_agree t name :
  writable t = true →
  getPoses t name = getPosesConst t name
  ∧ getVels t name = getVelsConst t name
  ∧ getForces t name = getForcesConst t name
  ∧ getMasses t = getMassesConst t.
Proof.
  induction t as [r|s IH a b|s IH a b]; simpl; intros Hw; [done| |done].
  destruct (IH Hw) as (-> & -> & -> & ->). done.
Qed.
End RolloutInterface.

Section Windows.
Context {F : Type}.
Import Rollout.
Implicit Types (t : TrajectoryRollout F) (m : MatrixXd F).

(** The window of a matrix whose columns have its row count. *)
Lemma block_window m r c start len :
  well_shaped r c m → start + len ≤ c →
  block m 0 start (mat_rows m) len
  = mkMatrix r (take len (drop start (mat_cols m)))
  ∧ well_shaped r len (block m 0 start (mat_rows m) len)
  ∧ ∀ i j, j < len →
      coeff (block m 0 start (mat_rows m) len) i j = coeff m i (start + j).
Proof.
  intros (Hr & Hc & Hall) Hlen.
  assert (block m 0 start (mat_rows m) len
          = mkMatrix r (take len (drop start (mat_cols m)))) as Hb.
  { unfold block. rewrite Hr. f_equal. unfold segment at 2.
    apply list_eq. intros j. rewrite list_lookup_fmap.
    destruct (take len (drop start (mat_cols m)) !! j) as [column|] eqn:Hj;
      [|done].
    simpl. f_equal. unfold segment. rewrite drop_0. apply take_ge.
    assert (Forall (λ column, length column = r)
              (take len (drop start (mat_cols m)))) as Hwin
      by by apply Forall_take, Forall_drop.
    rewrite Forall_lookup in Hwin. by rewrite (Hwin j column). }
  split; [done|]. rewrite Hb. split.
  - split; [done|]. simpl. split.
    + rewrite length_take, length_drop. lia.
    + by apply Forall_take, Forall_drop.
  - intros i j Hj. unfold coeff. simpl.
    by rewrite lookup_take_lt, lookup_drop by done.
Qed.

(** A lookup through a chain of slices that stay within range shows the
    window of the owning matrix that starts at the sum of the offsets. *)
Lemma window_through_slices
    (get : TrajectoryRollout F → string → outcome (MatrixXd F))
    (field : TrajectoryRolloutReal F → gmap string (MatrixXd F)) :
  (∀ r name, get (Real r) name = at_ (field r) name) →
  (∀ s a b name, get (Ref s a b) name = slice_of a b (get s name)) →
  (∀ s a b name, get (ConstRef s a b) name = slice_of a b (get s name)) →
  ∀ t name m r steps w,
    field (backing t) !! name = Some m → well_shaped r steps m →
    shown_columns t steps = Some w →
    first_column t + w ≤ steps
    ∧ ∃ m', get t name = Returns m' ∧ well_shaped r w m'
            ∧ ∀ i j, j < w → coeff m' i j = coeff m i (first_column t + j).
Proof.
  intros Hreal Href Hconst t name m r steps.
  assert (∀ (s : TrajectoryRollout F) a b w get_s,
    (∀ w, shown_columns s steps = Some w →
       first_column s + w ≤ steps
       ∧ ∃ m', get_s = Returns m' ∧ well_shaped r w m'
               ∧ ∀ i j, j < w → coeff m' i j = coeff m i (first_column s + j)) →
    (w0 ← shown_columns s steps;
     if decide (a + b ≤ w0) then Some b else None) = Some w →
    first_column s + a + w ≤ steps
    ∧ ∃ m', slice_of a b get_s = Returns m' ∧ well_shaped r w m'
            ∧ ∀ i j, j < w →
                coeff m' i j = coeff m i (first_column s + a + j)) as Hstep.
  { intros s a b w get_s IH Hw.
    destruct (shown_columns s steps) as [w0|]; [|done]. simpl in Hw.
    destruct (decide (a + b ≤ w0)) as [Hle|]; [|done]. injection Hw as <-.
    destruct (IH w0 eq_refl) as (Hin & m0 & -> & Hshape & Hcoeff).
    split; [lia|]. simpl. eexists. split; [done|].
    destruct (block_window m0 r w0 a b Hshape Hle) as (_ & Hw' & Hc').
    split; [done|]. intros i j Hj. rewrite Hc' by done.
    rewrite Hcoeff by lia. f_equal. lia. }
  induction t as [r0|s IH a b|s IH a b]; intros w Hm Hshape Hw; simpl in *.
  - injection Hw as <-. split; [done|]. exists m. rewrite Hreal. unfold at_.
    rewrite Hm. done.
  - rewrite Href. apply Hstep; [|done]. intros w0 Hw0. by apply IH.
  - rewrite Hconst. apply Hstep; [|done]. intros w0 Hw0. by apply IH.
Qed.

(** X21.  A slice shows [len] columns of the rollout it slices, from column
    [start] on, with all their rows, whether it is const or not. *)
Theorem slice_window t name m r c start len :
  getPosesConst t name = Returns m → well_shaped r c m → start + len ≤ c →
  ∃ m', getPosesConst (sliceConst t start len) name = Returns m'
        ∧ getPosesConst (slice t start len) name = Returns m'
        ∧ well_shaped r len m'
        ∧ ∀ i j, j < len → coeff m' i j = coeff m i (start + j).
Proof.
  intros Hm Hshape Hlen. exists (block m 0 start (mat_rows m) len).
  destruct (block_window m r c start len Hshape Hlen) as (_ & Hw & Hcoeff).
  simpl. rewrite Hm. simpl. done.
Qed.

(** X22.  Through any chain of slices that stay within range, a rollout shows
    the window of the matrices of the owning rollout that starts at the sum of
    the offsets of the slices and has the length of the outermost slice. *)
Theorem slices_show_window t name m r steps w :
  mPoses (backing t) !! name = Some m → well_shaped r steps m →
  shown_columns t steps = Some w →
  first_column t + w ≤ steps
  ∧ ∃ m', getPosesConst t name = Returns m' ∧ well_shaped r w m'
          ∧ ∀ i j, j < w → coeff m' i j = coeff m i (first_column t + j).
Proof. by apply (window_through_slices getPosesConst mPoses). Qed.

(** X23.  Through any chain of slices that stay within range, the velocities
    and the forces a rollout shows are the windows of the matrices of the
    owning rollout that start at the sum of the offsets of the slices. *)
Theorem slices_show_window_vels_forces t name v f rv rf steps w :
  mVels (backing t) !! name = Some v → well_shaped rv steps v →
  mForces (backing t) !! name = Some f → well_shaped rf steps f →
  shown_columns t steps = Some w →
  (∃ v', getVelsConst t name = Returns v' ∧ well_shaped rv w v'
         ∧ ∀ i j, j < w → coeff v' i j = coeff v i (first_column t + j))
  ∧ (∃ f', getForcesConst t name = Returns f' ∧ well_shaped rf w f'
           ∧ ∀ i j, j < w → coeff f' i j = coeff f i (first_column t + j)).
Proof.
  intros Hv Hsv Hf Hsf Hw. split.
  - by apply (window_through_slices getVelsConst mVels
                ltac:(done) ltac:(done) ltac:(done) t name v rv steps).
  - by apply (window_through_slices getForcesConst mForces
                ltac:(done) ltac:(done) ltac:(done) t name f rf steps).
Qed.
End Windows.

Section DeepCopy.
Context {F : Type}.
Import Rollout.
Implicit Types (t : TrajectoryRollout F) (r : TrajectoryRolloutReal F).

Lemma at_Returns {V} (m : gmap string V) key v :
  at_ m key = Returns v ↔ m !! key = Some v.
Proof. unfold at_. destruct (m !! key); split; congruence. Qed.

Lemma and_then_Returns {A B} (o : outcome A) (k : A → outcome B) b :
  and_then o k = Returns b ↔ ∃ a, o = Returns a ∧ k a = Returns b.
Proof.
  destruct o as [a| |]; simpl; split; try done.
  - eauto.
  - by intros (a' & [= <-] & ?).
  - by intros (? & ? & ?).
  - by intros (? & ? & ?).
Qed.

Lemma copy_mappings_spec t keys r0 r' :
  copy_mappings t keys r0 = Returns r' →
  mRepresentationMapping r' = mRepresentationMapping r0
  ∧ mMappings r' = mMappings r0
  ∧ mMasses r' = mMasses r0
  ∧ mMetadata r' = mMetadata r0
  ∧ (∀ key, key ∈ keys →
       ∃ p v f,
         getPosesConst t key = Returns p ∧ mPoses r' !! key = Some p
         ∧ getVelsConst t key = Returns v ∧ mVels r' !! key = Some v
         ∧ getForcesConst t key = Returns f ∧ mForces r' !! key = Some f)
  ∧ (∀ key, key ∉ keys →
       mPoses r' !! key = mPoses r0 !! key
       ∧ mVels r' !! key = mVels r0 !! key
       ∧ mForces r' !! key = mForces r0 !! key).
Proof.
  revert r0. induction keys as [|k keys IH]; intros r0; simpl.
  - intros [= <-]. split_and!; try done.
    intros key Hin. by apply elem_of_nil in Hin.
  - intros (p & Hp & (v & Hv & (f & Hf & Hrest)%and_then_Returns)
             %and_then_Returns)%and_then_Returns.
    destruct (IH _ Hrest) as (Hr & Hm & Hma & Hme & Hin & Hout). simpl in *.
    split; [done|]. split; [done|]. split; [done|]. split; [done|]. split.
    + intros key [->|Hkey]%elem_of_cons; [|by apply Hin].
      destruct (decide (k ∈ keys)) as [Hk|Hk]; [by apply Hin|].
      destruct (Hout k Hk) as (Hp' & Hv' & Hf').
      rewrite lookup_insert_eq in Hp', Hv', Hf'.
      by exists p, v, f.
    + intros key [Hne Hkey]%not_elem_of_cons.
      destruct (Hout key Hkey) as (-> & -> & ->).
      by rewrite !lookup_insert_ne.
Qed.

Lemma copy_mappings_returns t keys r0 :
  (∀ key, key ∈ keys →
     is_Some (mPoses (backing t) !! key) ∧ is_Some (mVels (backing t) !! key)
     ∧ is_Some (mForces (backing t) !! key)) →
  ∃ r', copy_mappings t keys r0 = Returns r'.
Proof.
  revert r0. induction keys as [|k keys IH]; intros r0 Hkeys; simpl; [eauto|].
  destruct (Hkeys k) as ([p Hp] & [v Hv] & [f Hf]); [by left|].
  pose proof (getter_through_slices getPosesConst mPoses
                ltac:(done) ltac:(done) ltac:(done) t k) as Gp.
  pose proof (getter_through_slices getVelsConst mVels
                ltac:(done) ltac:(done) ltac:(done) t k) as Gv.
  pose proof (getter_through_slices getForcesConst mForces
                ltac:(done) ltac:(done) ltac:(done) t k) as Gf.
  rewrite Hp in Gp. rewrite Hv in Gv. rewrite Hf in Gf.
  destruct Gp as [p' ->]. destruct Gv as [v' ->]. destruct Gf as [f' ->].
  simpl. apply IH. intros key Hkey. apply Hkeys. by right.
Qed.

Lemma copy_spec t r' :
  copy t = Returns r' →
  mRepresentationMapping r' = getRepresentationMapping t
  ∧ mMappings r' = getMappings t
  ∧ getMassesConst t = Returns (mMasses r')
  ∧ mMetadata r' = getMetadataMap t
  ∧ (∀ key, key ∈ getMappings t →
       ∃ p v f,
         getPosesConst t key = Returns p ∧ mPoses r' !! key = Some p
         ∧ getVelsConst t key = Returns v ∧ mVels r' !! key = Some v
         ∧ getForcesConst t key = Returns f ∧ mForces r' !! key = Some f)
  ∧ (∀ key, key ∉ getMappings t →
       mPoses r' !! key = None ∧ mVels r' !! key = None
       ∧ mForces r' !! key = None).
Proof.
  unfold copy, TrajectoryRolloutReal_copy.
  intros (r1 & Hloop & (masses & Hmasses & [= <-])%and_then_Returns)
    %and_then_Returns.
  destruct (copy_mappings_spec _ _ _ _ Hloop) as (Hr & Hm & _ & _ & Hin & Hout).
  simpl in *.
  split_and!; try done;
    try (rewrite getMassesConst_backing in Hmasses |- *; congruence);
    intros key Hkey;
    first [ by apply Hin
          | destruct (Hout key Hkey) as (-> & -> & ->);
            by rewrite !lookup_empty ].
Qed.

(** X24.  The deep copy of any rollout, sliced or not, is an owning rollout that
    shows what the original shows: the same representation, mappings, masses
    and metadata, and for every listed mapping the same poses, vels and
    forces; it holds no other mapping. *)
Theorem copy_shows_the_same t r' :
  copy t = Returns r' →
  mRepresentationMapping r' = getRepresentationMapping t
  ∧ mMappings r' = getMappings t
  ∧ getMassesConst t = Returns (mMasses r')
  ∧ mMetadata r' = getMetadataMap t
  ∧ (∀ key, key ∈ getMappings t →
       getPosesConst t key = getPosesConst (Real r') key
       ∧ getVelsConst t key = getVelsConst (Real r') key
       ∧ getForcesConst t key = getForcesConst (Real r') key)
  ∧ (∀ key, key ∉ getMappings t →
       mPoses r' !! key = None ∧ mVels r' !! key = None
       ∧ mForces r' !! key = None).
Proof.
  intros Hcopy.
  destruct (copy_spec _ _ Hcopy) as (Hr & Hm & Hma & Hme & Hin & Hout).
  split_and!; try done. intros key Hkey.
  destruct (Hin key Hkey) as (p & v & f & -> & Hp & -> & Hv & -> & Hf).
  simpl. unfold at_. by rewrite Hp, Hv, Hf.
Qed.

Lemma elem_of_dom_list_to_set (m : gmap string (MatrixXd F)) (l : list string) key :
  dom m = list_to_set l → (key ∈ l ↔ is_Some (m !! key)).
Proof.
  intros Hdom. rewrite <-elem_of_dom, Hdom. by rewrite elem_of_list_to_set.
Qed.

(** X25.  The deep copy of an owning rollout whose maps hold exactly the mappings
    it lists is equal to it. *)
Theorem copy_of_owning r :
  lists_its_mappings r → copy (Real r) = Returns r.
Proof.
  intros (Hp & Hv & Hf).
  destruct (copy_mappings_returns (Real r) (mMappings r)
              (mkReal (mRepresentationMapping r) (mMappings r) ∅ ∅ ∅ [] ∅))
    as [r1 Hloop].
  { intros key Hkey. simpl.
    by rewrite <-!(elem_of_dom_list_to_set _ (mMappings r)). }
  assert (copy (Real r)
          = Returns (mkReal (mRepresentationMapping r1) (mMappings r1)
                       (mPoses r1) (mVels r1) (mForces r1) (mMasses r)
                       (mMetadata r))) as Hcopy.
  { unfold copy, TrajectoryRolloutReal_copy. simpl. by rewrite Hloop. }
  rewrite Hcopy. f_equal.
  destruct (copy_spec _ _ Hcopy) as (Hr' & Hm' & _ & _ & Hin & Hout).
  simpl in *. destruct r as [rep maps poses vels forces masses meta].
  simpl in *. rewrite Hr', Hm'. f_equal.
  - apply map_eq. intros key. destruct (decide (key ∈ maps)) as [Hk|Hk].
    + destruct (Hin key Hk) as (p & v & f & Hg & -> & _).
      unfold at_ in Hg. by destruct (poses !! key); simplify_eq.
    + destruct (Hout key Hk) as (-> & _ & _). symmetry.
      apply eq_None_not_Some. by rewrite <-(elem_of_dom_list_to_set _ maps).
  - apply map_eq. intros key. destruct (decide (key ∈ maps)) as [Hk|Hk].
    + destruct (Hin key Hk) as (p & v & f & _ & _ & Hg & -> & _).
      unfold at_ in Hg. by destruct (vels !! key); simplify_eq.
    + destruct (Hout key Hk) as (_ & -> & _). symmetry.
      apply eq_None_not_Some. by rewrite <-(elem_of_dom_list_to_set _ maps).
  - apply map_eq. intros key. destruct (decide (key ∈ maps)) as [Hk|Hk].
    + destruct (Hin key Hk) as (p & v & f & _ & _ & _ & _ & Hg & ->).
      unfold at_ in Hg. by destruct (forces !! key); simplify_eq.
    + destruct (Hout key Hk) as (_ & _ & ->). symmetry.
      apply eq_None_not_Some. by rewrite <-(elem_of_dom_list_to_set _ maps).
Qed.


End DeepCopy.

(** ** Loops that hand every shot its segment of a flat vector *)

Section Segments.
Context {F : Type}.
Implicit Types (shots : list (SingleShot F)) (flat grad : list F).

Lemma segment_app_skip {A} (pre l : list A) o n d :
  length pre = d → segment (pre ++ l) (d + o) n = segment l o n.
Proof. intros <-. unfold segment. by rewrite drop_app_add. Qed.

Lemma segment_app_within {A} (l post : list A) o n :
  o + n ≤ length l → segment (l ++ post) o n = segment l o n.
Proof.
  intros Hle. unfold segment. rewrite drop_app_le by lia.
  rewrite take_app_le; [done|]. rewrite length_drop. lia.
Qed.

Lemma sum_list_take_lookup (l : list nat) i d :
  l !! i = Some d → sum_list (take i l) + d ≤ sum_list l.
Proof.
  revert i. induction l as [|x l IH]; intros [|i] Hi; simplify_eq/=; [lia|].
  specialize (IH i Hi). lia.
Qed.

(** A loop with two cursors, one over the flat vector and one over the
    timesteps, in which every shot rewrites its own segment. *)
Lemma fold_segments (g : nat → SingleShot F → list F → list F)
    shots (pre body post : list F) cs :
  (∀ c shot seg, length (g c shot seg) = length seg) →
  length body = sum_list (shot_dims shots) →
  ∃ body',
    fold_opt (λ shot '(grad, cursorDims, cursorSteps),
        let steps := SingleShot_getNumSteps shot in
        let dim := SingleShot_getFlatProblemDim shot in
        Some (write_segment cursorDims
                (g cursorSteps shot (segment grad cursorDims dim)) grad,
              cursorDims + dim, cursorSteps + steps))
      shots (pre ++ body ++ post, length pre, cs)
    = Some (pre ++ body' ++ post, length pre + sum_list (shot_dims shots),
            cs + sum_list (shot_steps shots))
    ∧ length body' = length body
    ∧ ∀ i shot, shots !! i = Some shot →
        segment body' (sum_list (shot_dims (take i shots)))
          (SingleShot_getFlatProblemDim shot)
        = g (cs + sum_list (shot_steps (take i shots))) shot
            (segment body (sum_list (shot_dims (take i shots)))
               (SingleShot_getFlatProblemDim shot)).
Proof.
  intros Hg. cbv zeta. unfold shot_dims, shot_steps. revert pre body cs.
  induction shots as [|s shots IH]; intros pre body cs Hbody; csimpl in *.
  { exists body. rewrite !Nat.add_0_r. split_and!; [done..|].
    intros i shot Hi. by destruct i. }
  set (d := SingleShot_getFlatProblemDim s) in *.
  destruct (split_at body d) as (b1 & b2 & -> & Hb1); [lia|].
  rewrite length_app in Hbody.
  rewrite <-(app_assoc b1), segment_app_length by done.
  rewrite write_segment_app by (rewrite Hg; lia).
  destruct (IH (pre ++ g cs s b1) b2 (cs + SingleShot_getNumSteps s))
    as (b2' & Hfold & Hlen & Hseg); [lia|].
  rewrite length_app, Hg, Hb1 in Hfold.
  exists (g cs s b1 ++ b2').
  rewrite <-!app_assoc in Hfold |- *. rewrite Hfold. split_and!.
  - rewrite <-!app_assoc. f_equal. f_equal; [f_equal|]; lia.
  - rewrite !length_app, Hg. lia.
  - intros [|i] shot Hi; csimpl in *.
    + injection Hi as <-. rewrite Nat.add_0_r.
      rewrite !segment_0_app by (by rewrite ?Hg). done.
    + fold d. rewrite (segment_app_skip b1 b2 _ _ _ Hb1).
      assert (length (g cs s b1) = d) as Hg1 by by rewrite Hg.
      rewrite (segment_app_skip (g cs s b1) b2' _ _ _ Hg1).
      rewrite Hseg by done. f_equal. lia.
Qed.

(** The range-for with one cursor is the same loop. *)
Lemma fill_shots_fold (fill : SingleShot F → list F → list F) shots cursor
    flat cs :
  fold_opt (λ shot '(grad, cursorDims, cursorSteps),
      let steps := SingleShot_getNumSteps shot in
      let dim := SingleShot_getFlatProblemDim shot in
      Some (write_segment cursorDims
              (fill shot (segment grad cursorDims dim)) grad,
            cursorDims + dim, cursorSteps + steps))
    shots (flat, cursor, cs)
  = Some (fill_shots fill shots cursor flat,
          cursor + sum_list (shot_dims shots),
          cs + sum_list (shot_steps shots)).
Proof.
  cbv zeta. unfold shot_dims, shot_steps. revert cursor flat cs.
  induction shots as [|s shots IH]; intros cursor flat cs; csimpl.
  - by rewrite !Nat.add_0_r.
  - rewrite IH. f_equal. f_equal; [f_equal|]; lia.
Qed.

Lemma flatten_shots_fill shots cursor flat :
  flatten_shots shots cursor flat = fill_shots SingleShot_flatten shots cursor flat.
Proof.
  revert cursor flat. induction shots as [|s shots IH]; intros cursor flat;
    simpl; [done|]. by rewrite IH.
Qed.

Lemma length_flatten_forces (columns : list (list F)) fd cursor flat :
  length (flatten_forces columns fd cursor flat) = length flat.
Proof.
  revert cursor flat. induction columns as [|c columns IH]; intros cursor flat;
    simpl; [done|]. by rewrite IH, length_write_segment.
Qed.

Lemma length_SingleShot_flatten (s : SingleShot F) seg :
  length (SingleShot_flatten s seg) = length seg.
Proof.
  unfold SingleShot_flatten. destruct (mTuneStartingState s).
  - by rewrite length_flatten_forces, !length_write_segment.
  - by rewrite length_flatten_forces.
Qed.

(** What a fill loop does to a vector at least as long as the flat
    dimension. *)
Lemma fill_shots_spec (fill : SingleShot F → list F → list F) shots flat :
  (∀ shot seg, length (fill shot seg) = length seg) →
  sum_list (shot_dims shots) ≤ length flat →
  length (fill_shots fill shots 0 flat) = length flat
  ∧ drop (sum_list (shot_dims shots)) (fill_shots fill shots 0 flat)
    = drop (sum_list (shot_dims shots)) flat
  ∧ ∀ i shot, shots !! i = Some shot →
      segment (fill_shots fill shots 0 flat)
        (sum_list (shot_dims (take i shots)))
        (SingleShot_getFlatProblemDim shot)
      = fill shot (segment flat (sum_list (shot_dims (take i shots)))
                     (SingleShot_getFlatProblemDim shot)).
Proof.
  intros Hfill Hlen.
  destruct (split_at flat (sum_list (shot_dims shots)))
    as (body & post & -> & Hbody); [done|].
  destruct (fold_segments (λ _, fill) shots [] body post 0)
    as (body' & Hfold & Hlen' & Hseg); [done..|].
  pose proof (fill_shots_fold fill shots 0 (body ++ post) 0) as Heq.
  cbv zeta in Hfold, Heq. simpl in Hfold, Heq. rewrite Hfold in Heq.
  injection Heq as Heq. rewrite <-Heq. split_and!.
  - rewrite !length_app. lia.
  - rewrite <-Hbody at 2. rewrite <-Hbody, <-Hlen' at 1.
    by rewrite !drop_app_length.
  - intros i shot Hi.
    assert (sum_list (shot_dims (take i shots))
            + SingleShot_getFlatProblemDim shot ≤ length body) as Hin.
    { rewrite Hbody. unfold shot_dims. rewrite fmap_take.
      apply sum_list_take_lookup. by rewrite list_lookup_fmap, Hi. }
    rewrite !segment_app_within by lia. by apply Hseg.
Qed.

Section Members.
Context `{ShotMembers F World}.

(** X7.  Each of [flatten], [getUpperBounds], [getLowerBounds] and
    [getInitialGuess] hands shot [i] the segment of the flat vector that
    starts at the sum of the flat dimensions of the shots before it: the four
    vectors are laid out alike, entry for entry. *)
Theorem MultiShot_fill_per_shot (ms : MultiShot F) (world : World) flat i shot :
  (∀ s seg, length (SingleShot_getUpperBounds world s seg) = length seg) →
  (∀ s seg, length (SingleShot_getLowerBounds world s seg) = length seg) →
  (∀ s seg, length (SingleShot_getInitialGuess world s seg) = length seg) →
  MultiShot_getFlatProblemDim ms ≤ length flat →
  mShots ms !! i = Some shot →
  let o := flat_offset ms i in
  let d := SingleShot_getFlatProblemDim shot in
  segment (MultiShot_flatten ms flat) o d
  = SingleShot_flatten shot (segment flat o d)
  ∧ segment (MultiShot_getUpperBounds ms world flat) o d
    = SingleShot_getUpperBounds world shot (segment flat o d)
  ∧ segment (MultiShot_getLowerBounds ms world flat) o d
    = SingleShot_getLowerBounds world shot (segment flat o d)
  ∧ segment (MultiShot_getInitialGuess ms world flat) o d
    = SingleShot_getInitialGuess world shot (segment flat o d).
Proof.
  intros Hu Hl Hg Hlen Hi. rewrite MultiShot_getFlatProblemDim_sum in Hlen.
  unfold MultiShot_flatten, MultiShot_getUpperBounds, MultiShot_getLowerBounds,
    MultiShot_getInitialGuess, flat_offset.
  rewrite flatten_shots_fill. split_and!.
  - by apply (fill_shots_spec SingleShot_flatten), Hi;
      [apply length_SingleShot_flatten|].
  - by apply (fill_shots_spec (SingleShot_getUpperBounds world)), Hi.
  - by apply (fill_shots_spec (SingleShot_getLowerBounds world)), Hi.
  - by apply (fill_shots_spec (SingleShot_getInitialGuess world)), Hi.
Qed.

(** X8.  None of the four writes behind the flat dimension, and none changes the
    length of the vector it is given. *)
Theorem MultiShot_fill_frame (ms : MultiShot F) (world : World) flat :
  (∀ s seg, length (SingleShot_getUpperBounds world s seg) = length seg) →
  (∀ s seg, length (SingleShot_getLowerBounds world s seg) = length seg) →
  (∀ s seg, length (SingleShot_getInitialGuess world s seg) = length seg) →
  MultiShot_getFlatProblemDim ms ≤ length flat →
  let n := MultiShot_getFlatProblemDim ms in
  (length (MultiShot_flatten ms flat) = length flat
   ∧ drop n (MultiShot_flatten ms flat) = drop n flat)
  ∧ (length (MultiShot_getUpperBounds ms world flat) = length flat
     ∧ drop n (MultiShot_getUpperBounds ms world flat) = drop n flat)
  ∧ (length (MultiShot_getLowerBounds ms world flat) = length flat
     ∧ drop n (MultiShot_getLowerBounds ms world flat) = drop n flat)
  ∧ (length (MultiShot_getInitialGuess ms world flat) = length flat
     ∧ drop n (MultiShot_getInitialGuess ms world flat) = drop n flat).
Proof.
  intros Hu Hl Hg Hlen. cbv zeta.
  rewrite MultiShot_getFlatProblemDim_sum in *.
  unfold MultiShot_flatten, MultiShot_getUpperBounds, MultiShot_getLowerBounds,
    MultiShot_getInitialGuess.
  rewrite flatten_shots_fill.
  destruct (fill_shots_spec SingleShot_flatten (mShots ms) flat)
    as (? & ? & _); [apply length_SingleShot_flatten|done|].
  destruct (fill_shots_spec (SingleShot_getUpperBounds world) (mShots ms) flat)
    as (? & ? & _); [done..|].
  destruct (fill_shots_spec (SingleShot_getLowerBounds world) (mShots ms) flat)
    as (? & ? & _); [done..|].
  destruct (fill_shots_spec (SingleShot_getInitialGuess world) (mShots ms) flat)
    as (? & ? & _); [done..|].
  done.
Qed.

End Members.
End Segments.

(** ** Loops that hand every shot its block of columns *)

Section Blocks.
Context {F : Type}.
Implicit Types (m p : MatrixXd F) (shots : list (SingleShot F))
  (out : StatesOut F).

Lemma set_block_cols_app (pre old post b : list (list F)) :
  Forall2 (λ bc oc, length bc = length oc) b old →
  set_block_cols 0 (length pre) b (pre ++ old ++ post) = pre ++ b ++ post.
Proof.
  intros Hb. revert pre.
  induction Hb as [|bc oc b old Hlen Hb IH]; intros pre; simpl; [done|].
  rewrite <-(Nat.add_0_r (length pre)) at 2. rewrite alter_app_r. simpl.
  rewrite write_segment_all by done.
  specialize (IH (pre ++ [bc])). rewrite length_app in IH. simpl in IH.
  rewrite Nat.add_1_r, <-!app_assoc in IH. exact IH.
Qed.

Lemma lookup_set_block_cols_lt r c (b columns : list (list F)) j :
  j < c → set_block_cols r c b columns !! j = columns !! j.
Proof.
  revert c columns. induction b as [|v b IH]; intros c columns Hj; simpl;
    [done|].
  rewrite IH by lia. apply list_lookup_alter_ne. lia.
Qed.

(** A block depends on the columns it spans only. *)
Lemma block_ext m m' r c h w :
  (∀ j, c ≤ j → j < c + w → mat_cols m !! j = mat_cols m' !! j) →
  block m r c h w = block m' r c h w.
Proof.
  intros Hcols. unfold block. f_equal. f_equal. unfold segment.
  apply list_eq. intros j. destruct (decide (j < w)) as [Hj|Hj].
  - rewrite !lookup_take_lt, !lookup_drop by done. apply Hcols; lia.
  - by rewrite !lookup_take_ge by lia.
Qed.

(** Writing a block of the right shape into a matrix. *)
Lemma set_block_window m p r T c w :
  well_shaped r T m → well_shaped r w p → c + w ≤ T →
  well_shaped r T (set_block 0 c p m)
  ∧ block (set_block 0 c p m) 0 c r w = p
  ∧ ∀ r' c' h' w', c' + w' ≤ c ∨ c + w ≤ c' →
      block (set_block 0 c p m) r' c' h' w' = block m r' c' h' w'.
Proof.
  intros (Hr & Hc & Hall) (Hpr & Hpc & Hpall) Hle.
  assert (well_shaped r T (set_block 0 c p m)) as Hshape.
  { split; [done|]. cbn [set_block mat_cols]. split.
    - by rewrite length_set_block_cols.
    - by apply set_block_cols_shape. }
  split; [done|]. split.
  - destruct (block_window (set_block 0 c p m) r T c w Hshape Hle)
      as (Hb & _ & _).
    destruct Hshape as (Hr' & _ & _). rewrite Hr' in Hb. rewrite Hb.
    destruct p as [pr pcols]. simpl in *. subst pr. f_equal.
    destruct (split_at (mat_cols m) c) as (pre & rest & Hm & Hpre); [lia|].
    rewrite Hm in Hc, Hall |- *. rewrite length_app in Hc.
    destruct (split_at rest w) as (old & post & -> & Hold); [lia|].
    subst c. rewrite set_block_cols_app.
    + rewrite drop_app_length, <-Hpc. apply take_app_length.
    + apply Forall2_same_length_lookup_2; [lia|].
      intros j bc oc Hbc Hoc.
      rewrite Forall_lookup in Hpall. rewrite (Hpall j bc Hbc).
      apply Forall_app in Hall as [_ Hall].
      apply Forall_app in Hall as [Hall _].
      rewrite Forall_lookup in Hall. by rewrite (Hall _ oc Hoc).
  - intros r' c' h' w' Hout. apply block_ext. intros j Hj1 Hj2.
    cbn [set_block mat_cols]. destruct Hout as [Hout|Hout].
    + apply lookup_set_block_cols_lt. lia.
    + apply lookup_set_block_cols_ge. lia.
Qed.

Section Kernel.
Variable kernel : SingleShot F → MatrixXd F * MatrixXd F * MatrixXd F →
                  MatrixXd F * MatrixXd F * MatrixXd F.
Variable mapping : Mapping.

Lemma states_window_shaped out T c w :
  states_shaped mapping T out → c + w ≤ T →
  well_shaped (getPosDim mapping) w (states_window mapping out c w).1.1
  ∧ well_shaped (getVelDim mapping) w (states_window mapping out c w).1.2
  ∧ well_shaped (getForceDim mapping) w (states_window mapping out c w).2.
Proof.
  intros (Hp & Hv & Hf) Hle. unfold states_window. simpl.
  assert (∀ m r, well_shaped r T m → well_shaped r w (block m 0 c r w)) as Hb.
  { intros m r Hm. destruct (block_window m r T c w Hm Hle) as (_ & Hs & _).
    destruct Hm as (<- & _). done. }
  split_and!; by apply Hb.
Qed.

(** One shot writes its own columns and no others. *)
Lemma write_shot_blocks_spec shot out cursor T :
  keeps_shapes kernel mapping shot →
  states_shaped mapping T out →
  cursor + SingleShot_getNumSteps shot ≤ T →
  ∃ out',
    write_shot_blocks kernel mapping shot (out, cursor)
    = (out', cursor + SingleShot_getNumSteps shot)
    ∧ states_shaped mapping T out'
    ∧ states_window mapping out' cursor (SingleShot_getNumSteps shot)
      = kernel shot
          (states_window mapping out cursor (SingleShot_getNumSteps shot))
    ∧ ∀ c w, c + w ≤ cursor ∨ cursor + SingleShot_getNumSteps shot ≤ c →
        states_window mapping out' c w = states_window mapping out c w.
Proof.
  intros kernel_shapes Hout Hle.
  destruct (states_window_shaped out T cursor _ Hout Hle) as (Hwp & Hwv & Hwf).
  destruct (kernel_shapes _ _ _ Hwp Hwv Hwf) as (Hkp & Hkv & Hkf).
  unfold write_shot_blocks.
  change (block (out_poses out) 0 cursor (getPosDim mapping)
            (SingleShot_getNumSteps shot),
          block (out_vels out) 0 cursor (getVelDim mapping)
            (SingleShot_getNumSteps shot),
          block (out_forces out) 0 cursor (getForceDim mapping)
            (SingleShot_getNumSteps shot))
    with (states_window mapping out cursor (SingleShot_getNumSteps shot)).
  change ((states_window mapping out cursor (SingleShot_getNumSteps shot)).1.1,
          (states_window mapping out cursor (SingleShot_getNumSteps shot)).1.2,
          (states_window mapping out cursor (SingleShot_getNumSteps shot)).2)
    with (states_window mapping out cursor (SingleShot_getNumSteps shot))
    in Hkp, Hkv, Hkf.
  destruct (kernel shot (states_window mapping out cursor _)) as [[p v] f].
  simpl in Hkp, Hkv, Hkf. destruct Hout as (Hp & Hv & Hf).
  destruct (set_block_window _ _ _ _ _ _ Hp Hkp Hle) as (Hp1 & Hp2 & Hp3).
  destruct (set_block_window _ _ _ _ _ _ Hv Hkv Hle) as (Hv1 & Hv2 & Hv3).
  destruct (set_block_window _ _ _ _ _ _ Hf Hkf Hle) as (Hf1 & Hf2 & Hf3).
  eexists. split; [done|]. split; [done|]. split.
  - unfold states_window. simpl. by rewrite Hp2, Hv2, Hf2.
  - intros c w Hcw. unfold states_window. simpl.
    by rewrite Hp3, Hv3, Hf3.
Qed.

#[local] Arguments write_shot_blocks : simpl never.

(** All shots, from [cursor] on. *)
Lemma write_shots_spec shots out cursor T :
  Forall (keeps_shapes kernel mapping) shots →
  states_shaped mapping T out →
  cursor + sum_list (shot_steps shots) ≤ T →
  ∃ out',
    foldl (λ st shot, write_shot_blocks kernel mapping shot st) (out, cursor)
      shots
    = (out', cursor + sum_list (shot_steps shots))
    ∧ states_shaped mapping T out'
    ∧ (∀ c w, c + w ≤ cursor ∨ cursor + sum_list (shot_steps shots) ≤ c →
         states_window mapping out' c w = states_window mapping out c w)
    ∧ ∀ i shot, shots !! i = Some shot →
        states_window mapping out'
          (cursor + sum_list (shot_steps (take i shots)))
          (SingleShot_getNumSteps shot)
        = kernel shot
            (states_window mapping out
               (cursor + sum_list (shot_steps (take i shots)))
               (SingleShot_getNumSteps shot)).
Proof.
  unfold shot_steps. intros Hkernel. revert out cursor.
  induction Hkernel as [|s shots Hs Hkernel IH]; intros out cursor Hout Hle;
    csimpl in *.
  { exists out. rewrite Nat.add_0_r. by split_and!. }
  destruct (write_shot_blocks_spec s out cursor T Hs Hout)
    as (out1 & -> & Hout1 & Hwin1 & Hframe1); [lia|].
  destruct (IH out1 (cursor + SingleShot_getNumSteps s) Hout1)
    as (out' & -> & Hout' & Hframe & Hwin); [lia|].
  exists out'. split_and!.
  - f_equal. lia.
  - done.
  - intros c w Hcw. rewrite Hframe by lia. apply Hframe1. lia.
  - intros [|i] shot Hi; csimpl in *.
    + injection Hi as <-. rewrite Nat.add_0_r.
      rewrite Hframe by lia. done.
    + rewrite Nat.add_assoc, (Hwin i shot Hi). f_equal.
      apply Hframe1. lia.
Qed.
End Kernel.

Section Members.
Context `{Simulator F World} `{ShotKernels F World} `{ShotMembers F World}.


(** X6.  [unroll] lets every shot write the columns of its own timesteps,
    computed from those columns alone, keeps the shapes of the outputs and
    leaves the columns behind the last shot as they are. *)
Theorem MultiShot_unroll_per_shot (ms : MultiShot F) (world : World) out
    (T : nat) :
  Forall (keeps_shapes (SingleShot_unroll world)
            (mRepresentationMapping ms)) (mShots ms) →
  states_shaped (mRepresentationMapping ms) T out →
  sum_list (shot_steps (mShots ms)) ≤ T →
  states_shaped (mRepresentationMapping ms) T (MultiShot_unroll ms world out)
  ∧ (∀ i shot, mShots ms !! i = Some shot →
       states_window (mRepresentationMapping ms)
         (MultiShot_unroll ms world out) (step_offset ms i)
         (SingleShot_getNumSteps shot)
       = SingleShot_unroll world shot
           (states_window (mRepresentationMapping ms) out
              (step_offset ms i) (SingleShot_getNumSteps shot)))
  ∧ ∀ c w, sum_list (shot_steps (mShots ms)) ≤ c →
      states_window (mRepresentationMapping ms)
        (MultiShot_unroll ms world out) c w
      = states_window (mRepresentationMapping ms) out c w.
Proof.
  intros Hkernel Hout Hle.
  destruct (write_shots_spec (SingleShot_unroll world)
              (mRepresentationMapping ms) (mShots ms) out 0 T Hkernel Hout Hle)
    as (out' & Hfold & Hout' & Hframe & Hwin).
  unfold MultiShot_unroll. rewrite Hfold. simpl. split_and!; [done| |].
  - intros i shot Hi. by apply (Hwin i shot Hi).
  - intros c w Hc. apply Hframe. right. simpl. done.
Qed.
End Members.
End Blocks.

(** ** Names of the flat dimensions *)

Section Names.
Context `{ShotMembers F World}.
Implicit Types (shots : list (SingleShot F)) (dim : Z).

Lemma getFlatDimName_from_in_range shots i0 dim :
  (0 ≤ dim)%Z → (dim < Z.of_nat (sum_list (shot_dims shots)))%Z →
  ∃ i shot,
    shots !! i = Some shot
    ∧ (Z.of_nat (sum_list (shot_dims (take i shots))) ≤ dim
       < Z.of_nat (sum_list (shot_dims (take i shots)))
         + Z.of_nat (SingleShot_getFlatProblemDim shot))%Z
    ∧ getFlatDimName_from shots i0 dim
      = "Shot " +:+ pretty (i0 + i) +:+ " "
        +:+ SingleShot_getFlatDimName shot
              (dim - Z.of_nat (sum_list (shot_dims (take i shots)))).
Proof.
  unfold shot_dims. revert i0 dim.
  induction shots as [|s shots IH]; intros i0 dim Hpos Hlt; csimpl in *;
    [lia|].
  case_bool_decide as Hdim.
  - exists 0, s. csimpl. rewrite Nat.add_0_r, Z.sub_0_r.
    split_and!; [done|lia|lia|done].
  - destruct (IH (S i0) (dim - Z.of_nat (SingleShot_getFlatProblemDim s))%Z)
      as (i & shot & Hi & Hrange & ->); [lia..|].
    exists (S i), shot. csimpl. split_and!; [done|lia|lia|].
    rewrite Nat.add_succ_r. do 4 f_equal. lia.
Qed.

Lemma getFlatDimName_from_OOB shots i0 dim :
  getFlatDimName_from shots i0 dim = "Error OOB"
  ↔ shots = [] ∨ (Z.of_nat (sum_list (shot_dims shots)) ≤ dim)%Z.
Proof.
  unfold shot_dims. revert i0 dim.
  induction shots as [|s shots IH]; intros i0 dim; csimpl; [naive_solver|].
  case_bool_decide as Hdim.
  - split; [done|]. intros [?|?]; [done|lia].
  - rewrite IH. split.
    + intros [->|Hle]; right; csimpl; lia.
    + intros [?|Hle]; [done|]. right. lia.
Qed.

(** X10.  For a flat index within range, [getFlatDimName] names the shot whose
    segment of the flat vector holds the index, and hands that shot the index
    relative to the start of its segment. *)
Theorem MultiShot_getFlatDimName_in_range (ms : MultiShot F) dim :
  (0 ≤ dim)%Z → (dim < Z.of_nat (MultiShot_getFlatProblemDim ms))%Z →
  ∃ i shot,
    mShots ms !! i = Some shot
    ∧ (Z.of_nat (flat_offset ms i) ≤ dim
       < Z.of_nat (flat_offset ms i)
         + Z.of_nat (SingleShot_getFlatProblemDim shot))%Z
    ∧ MultiShot_getFlatDimName ms dim
      = "Shot " +:+ pretty i +:+ " "
        +:+ SingleShot_getFlatDimName shot (dim - Z.of_nat (flat_offset ms i)).
Proof.
  intros Hpos Hlt. rewrite MultiShot_getFlatProblemDim_sum in Hlt.
  by apply (getFlatDimName_from_in_range (mShots ms) 0).
Qed.

(** X11.  [getFlatDimName] answers ["Error OOB"] exactly when the problem has no
    shots or the index is at or behind the flat dimension. *)
Theorem MultiShot_getFlatDimName_OOB (ms : MultiShot F) dim :
  MultiShot_getFlatDimName ms dim = "Error OOB"
  ↔ mShots ms = [] ∨ (Z.of_nat (MultiShot_getFlatProblemDim ms) ≤ dim)%Z.
Proof.
  rewrite MultiShot_getFlatProblemDim_sum. apply getFlatDimName_from_OOB.
Qed.

(** X12.  A negative index is not rejected: it is attributed to the first shot,
    which receives it as it is. *)
Theorem MultiShot_getFlatDimName_negative (ms : MultiShot F) dim first rest :
  (dim < 0)%Z → mShots ms = first :: rest →
  MultiShot_getFlatDimName ms dim
  = "Shot 0 " +:+ SingleShot_getFlatDimName first dim.
Proof.
  intros Hneg Hshots. unfold MultiShot_getFlatDimName. rewrite Hshots. simpl.
  rewrite bool_decide_eq_true_2 by lia. done.
Qed.
End Names.

(** ** Edges of the construction *)

Section Edges.
Context `{Scalar F} `{Simulator F World} `{AbstractShot F World}
  `{ShotKernels F World}.

Lemma MultiShot_loop_stuck fuel (world : World) tune rem isFirst
    (acc : list (SingleShot F)) :
  (0 < rem)%Z → MultiShot_loop fuel world 0 tune rem isFirst acc = None.
Proof.
  intros Hrem. revert isFirst acc.
  induction fuel as [|fuel IH]; intros isFirst acc; cbn [MultiShot_loop];
    rewrite bool_decide_eq_true_2 by lia; [done|].
  rewrite Z.min_l by lia. rewrite Z.sub_0_r. apply IH.
Qed.

(** X13.  With [shotLength = 0] and at least one step, the loop of the constructor
    appends shots of no steps without ever consuming a step: its condition
    holds after any number of iterations. *)
Theorem MultiShot_new_zero_shotLength (world : World) (steps : Z)
    (tuneStartingState : bool) (fuel : nat) :
  (0 < steps)%Z →
  MultiShot_new (F:=F) fuel world steps 0 tuneStartingState = None.
Proof.
  intros Hsteps. unfold MultiShot_new.
  by rewrite MultiShot_loop_stuck.
Qed.



End Edges.

(** ** The sparsity pattern of the constraint Jacobian *)

Section Pattern.
Context {F : Type}.
Implicit Types (shots : list (SingleShot F)) (e : nat * nat).

Lemma elem_of_idx_block rc cc sd d e :
  e ∈ idx_block rc cc sd d ↔ rc ≤ e.1 < rc + sd ∧ cc ≤ e.2 < cc + d.
Proof.
  unfold idx_block. rewrite list_elem_of_bind. split.
  - intros (k & (q & -> & Hq)%list_elem_of_fmap & Hk).
    apply elem_of_seq in Hq, Hk. simpl. lia.
  - destruct e as [q k]. simpl. intros [Hq Hk]. exists k. split.
    + apply list_elem_of_fmap. exists q. split; [done|].
      apply elem_of_seq. lia.
    + apply elem_of_seq. lia.
Qed.

Lemma elem_of_idx_diag rc cc sd e :
  e ∈ idx_diag rc cc sd ↔ ∃ q, q < sd ∧ e = (rc + q, cc + q).
Proof.
  unfold idx_diag. rewrite list_elem_of_fmap. split.
  - intros (q & -> & Hq). apply elem_of_seq in Hq. exists q. split; [lia|done].
  - intros (q & Hq & ->). exists q. split; [done|]. apply elem_of_seq. lia.
Qed.

Lemma NoDup_idx_block rc cc sd d : NoDup (idx_block rc cc sd d).
Proof.
  unfold idx_block. apply NoDup_bind.
  - intros k1 k2 e _ _ (q1 & -> & _)%list_elem_of_fmap
      (q2 & [= _ ->] & _)%list_elem_of_fmap. done.
  - intros k _. apply NoDup_fmap_2_strong; [|apply NoDup_seq].
    by intros q1 q2 _ _ [= ->].
  - apply NoDup_seq.
Qed.

Lemma NoDup_idx_diag rc cc sd : NoDup (idx_diag rc cc sd).
Proof.
  unfold idx_diag. apply NoDup_fmap_2_strong; [|apply NoDup_seq].
  intros q1 q2 _ _ [= Hq _]. lia.
Qed.

(** Where the index pairs of the knots lie. *)
Lemma elem_of_knot_indices sd shots rc cc e :
  e ∈ knot_indices sd shots rc cc →
  rc ≤ e.1 < rc + sd * length shots
  ∧ cc ≤ e.2 < cc + sum_list (shot_dims shots) + sd.
Proof.
  unfold shot_dims. revert rc cc.
  induction shots as [|s shots IH]; intros rc cc; csimpl.
  { by intros ?%elem_of_nil. }
  rewrite !elem_of_app, elem_of_idx_block, elem_of_idx_diag.
  intros [[[Hr Hc]|(q & Hq & ->)]|Hrest].
  - lia.
  - simpl. lia.
  - apply IH in Hrest. lia.
Qed.

(** No position is listed twice. *)
Lemma NoDup_knot_indices sd shots rc cc : NoDup (knot_indices sd shots rc cc).
Proof.
  revert rc cc. induction shots as [|s shots IH]; intros rc cc; csimpl.
  { apply NoDup_nil_2. }
  apply NoDup_app. split_and!.
  - apply NoDup_app. split_and!.
    + apply NoDup_idx_block.
    + intros e [Hr Hc]%elem_of_idx_block (q & Hq & He)%elem_of_idx_diag.
      rewrite He in Hc. simpl in Hc. lia.
    + apply NoDup_idx_diag.
  - intros e He Hrest. apply elem_of_knot_indices in Hrest.
    apply elem_of_app in He as [He|He].
    + apply elem_of_idx_block in He. lia.
    + apply elem_of_idx_diag in He as (q & Hq & He).
      rewrite He in Hrest. simpl in Hrest. lia.
  - apply IH.
Qed.

(** Scattering leaves the positions it is not given as they are. *)
Lemma coeff_set_coeff_ne (m : MatrixXd F) r c x i j :
  (r, c) ≠ (i, j) → coeff (set_coeff r c x m) i j = coeff m i j.
Proof.
  intros Hne. unfold coeff, set_coeff. simpl.
  destruct (decide (c = j)) as [->|Hc].
  - rewrite list_lookup_alter, decide_True by done.
    destruct (mat_cols m !! j) as [column|]; simpl; [|done].
    apply list_lookup_insert_ne. congruence.
  - by rewrite list_lookup_alter_ne.
Qed.

Lemma coeff_foldl_apply_entry (m : MatrixXd F) (es : list (nat * nat * F)) i j :
  (i, j) ∉ es.*1 →
  coeff (foldl apply_entry m es) i j = coeff m i j.
Proof.
  revert m. induction es as [|[[r c] x] es IH]; intros m Hnotin; [done|].
  csimpl in *. apply not_elem_of_cons in Hnotin as [Hne Hnotin].
  rewrite IH by done. unfold apply_entry. simpl.
  apply coeff_set_coeff_ne. congruence.
Qed.
End Pattern.

Section Jacobian.
Context `{ScalarLaws F} `{AbstractShot F World} `{ShotKernels F World}.

(** Without custom constraints the index vectors are the knot indices. *)
Lemma structure_indices (ms : MultiShot F) (rows0 cols0 : list nat) :
  AbstractShot_getConstraintDim = 0 →
  (∀ r c, length (AbstractShot_getJacobianSparsityStructure r c).1 = length r
          ∧ length (AbstractShot_getJacobianSparsityStructure r c).2
            = length c) →
  let idx :=
    knot_indices (stateDim ms) (take (length (mShots ms) - 1) (mShots ms)) 0 0
  in
  length rows0 = length idx → length cols0 = length idx →
  MultiShot_getJacobianSparsityStructure ms rows0 cols0
  = Some (idx.*1, idx.*2).
Proof.
  intros Hdim Hpstruct idx Hrows Hcols.
  set (sd := stateDim ms) in *.
  set (shots := take (length (mShots ms) - 1) (mShots ms)) in *.
  unfold MultiShot_getJacobianSparsityStructure. cbv zeta. rewrite Hdim.
  fold sd. rewrite Nat.mul_0_r.
  destruct (Hpstruct (segment rows0 0 0) (segment cols0 0 0)) as [Hp1 Hp2].
  destruct (AbstractShot_getJacobianSparsityStructure _ _) as [prows pcols].
  simpl in Hp1, Hp2.
  destruct prows; [|done]. destruct pcols; [|done].
  change (write_segment 0 [] rows0) with rows0.
  change (write_segment 0 [] cols0) with cols0.
  rewrite (for_loop_prev (mShots ms) _
    (λ prev '(st, rowCursor, colCursor),
       st ← for_loop (λ column st,
                for_loop (λ row st, Some (emit row column st))
                  rowCursor sd st)
              colCursor (SingleShot_getFlatProblemDim prev) st;
       st ← for_loop (λ q st,
                Some (emit (rowCursor + q)
                        (colCursor + SingleShot_getFlatProblemDim prev + q)
                        st))
              0 sd st;
       Some (st, rowCursor + sd,
             colCursor + SingleShot_getFlatProblemDim prev))).
  2:{ intros i p [[st rc] cc] Hp. simpl. by rewrite Nat.sub_0_r, Hp. }
  fold shots.
  pose proof (structure_pairs sd shots (mkSparsity rows0 cols0 0) (0 + 0) 0)
    as Hs.
  cbv zeta in Hs. rewrite Hs. simpl. fold idx.
  rewrite emit_list_spec. simpl.
  rewrite !write_segment_all by (rewrite length_fmap; lia). done.
Qed.

(** Without custom constraints the dense Jacobian is the zero matrix with the
    knot values written at the knot indices. *)
Lemma dense_entries (ms : MultiShot F) (world : World) (jac0 : MatrixXd F) :
  AbstractShot_getConstraintDim = 0 →
  (∀ w b, Forall (λ column, length column = 0) (mat_cols b) →
     Forall (λ column, length column = 0)
       (mat_cols (AbstractShot_backpropJacobian w b))) →
  (∀ shot r c b, well_shaped r c b →
     well_shaped r c (SingleShot_backpropJacobianOfFinalState world shot b)) →
  well_shaped (MultiShot_getConstraintDim ms) (MultiShot_getFlatProblemDim ms)
    jac0 →
  let shots := take (length (mShots ms) - 1) (mShots ms) in
  MultiShot_backpropJacobian ms world jac0
  = Some (foldl apply_entry
            (Zero (MultiShot_getConstraintDim ms)
                  (MultiShot_getFlatProblemDim ms))
            (zip (knot_indices (stateDim ms) shots 0 0)
                 (knot_values world (stateDim ms) shots))).
Proof.
  intros Hdim Hpjac Hkernel Hjac shots.
  set (sd := stateDim ms).
  assert (length shots ≤ length (mShots ms) - 1) as Hshots
    by (unfold shots; rewrite length_take; lia).
  unfold MultiShot_getConstraintDim in *. rewrite Hdim in *. fold sd in Hjac |- *.
  set (cd := 0 + sd * (length (mShots ms) - 1)) in *.
  set (n := MultiShot_getFlatProblemDim ms) in *.
  unfold MultiShot_backpropJacobian. cbv zeta. rewrite Hdim. fold sd n.
  rewrite (mat_setZero_shaped cd n) by done.
  rewrite set_block_empty by apply Hpjac, block_empty_shape.
  rewrite (for_loop_prev (mShots ms) _
    (λ prev '(jac, rowCursor, colCursor),
       Some (set_block rowCursor
               (colCursor + SingleShot_getFlatProblemDim prev)
               (mat_scale sneg1 (Identity sd))
               (set_block rowCursor colCursor
                  (SingleShot_backpropJacobianOfFinalState world prev
                     (block jac rowCursor colCursor sd
                        (SingleShot_getFlatProblemDim prev))) jac),
             rowCursor + sd,
             colCursor + SingleShot_getFlatProblemDim prev))).
  2:{ intros i p [[jac rc] cc] Hp. simpl. by rewrite Nat.sub_0_r, Hp. }
  fold shots.
  pose proof (dense_pairs world sd cd Hkernel shots (Zero cd n) (0 + 0) 0)
    as Hd.
  cbv zeta in Hd. rewrite Hd; [done|..].
  - apply zero_below_Zero.
  - unfold cd. nia.
  - unfold cols. simpl. rewrite length_replicate. unfold n.
    rewrite MultiShot_getFlatProblemDim_sum. unfold shots.
    rewrite fmap_take. apply sum_list_take_le.
Qed.

(** X2.  Without custom constraints, every entry of the dense Jacobian at a
    position that [getJacobianSparsityStructure] does not list is zero: the
    pattern covers all entries that can be non-zero. *)
Theorem Jacobian_zero_outside_pattern (ms : MultiShot F) (world : World)
    (jac0 : MatrixXd F) (rows0 cols0 : list nat) (nnz : nat) :
  AbstractShot_getConstraintDim = 0 →
  AbstractShot_getNumberNonZeroJacobian = 0 →
  (∀ w b, Forall (λ column, length column = 0) (mat_cols b) →
     Forall (λ column, length column = 0)
       (mat_cols (AbstractShot_backpropJacobian w b))) →
  (∀ r c, length (AbstractShot_getJacobianSparsityStructure r c).1 = length r
          ∧ length (AbstractShot_getJacobianSparsityStructure r c).2
            = length c) →
  (∀ shot r c b, well_shaped r c b →
     well_shaped r c (SingleShot_backpropJacobianOfFinalState world shot b)) →
  MultiShot_getNumberNonZeroJacobian ms = Some nnz →
  well_shaped (MultiShot_getConstraintDim ms) (MultiShot_getFlatProblemDim ms)
    jac0 →
  length rows0 = nnz → length cols0 = nnz →
  ∃ dense rows columns,
    MultiShot_backpropJacobian ms world jac0 = Some dense
    ∧ MultiShot_getJacobianSparsityStructure ms rows0 cols0
      = Some (rows, columns)
    ∧ ∀ i j, i < MultiShot_getConstraintDim ms →
        j < MultiShot_getFlatProblemDim ms →
        (i, j) ∉ zip rows columns → coeff dense i j = Some szero.
Proof.
  intros Hdim Hpnnz Hpjac Hpstruct Hkernel Hnnz Hjac Hrows Hcols.
  set (sd := stateDim ms).
  set (shots := take (length (mShots ms) - 1) (mShots ms)).
  set (idx := knot_indices sd shots 0 0).
  set (vals := knot_values world sd shots).
  assert (mShots ms ≠ []) as Hne.
  { intros Hnil. unfold MultiShot_getNumberNonZeroJacobian in Hnnz.
    by rewrite Hnil in Hnnz. }
  rewrite getNumberNonZeroJacobian_eq, Hpnnz in Hnnz by done.
  injection Hnnz as Hnnz. fold sd in Hnnz. fold shots in Hnnz.
  change (λ shot : SingleShot F, SingleShot_getFlatProblemDim shot * sd + sd)
    with (@pair_count F sd) in Hnnz.
  assert (length idx = nnz) as Hidx
    by (unfold idx; rewrite length_knot_indices; lia).
  assert (length vals = nnz) as Hvals
    by (unfold vals; rewrite (length_knot_values world sd Hkernel); lia).
  eexists _, idx.*1, idx.*2. split_and!.
  - by apply dense_entries.
  - apply structure_indices; try done; fold sd shots idx; lia.
  - intros i j Hi Hj Hnotin. rewrite zip_fst_snd in Hnotin.
    fold sd shots idx vals. rewrite coeff_foldl_apply_entry.
    + by apply Zero_coeff.
    + rewrite fst_zip by lia. done.
Qed.
End Jacobian.

Section WellFormed.
Context `{AbstractShot F World}.

(** X3.  Without custom constraints, [getJacobianSparsityStructure] fills the two
    index vectors completely, lists no position twice, and, when every shot
    after the first has its start state among its flat variables, lists only
    positions inside the Jacobian. *)
Theorem sparsity_pattern_well_formed (ms : MultiShot F)
    (rows0 cols0 : list nat) (nnz : nat) :
  AbstractShot_getConstraintDim = 0 →
  AbstractShot_getNumberNonZeroJacobian = 0 →
  (∀ r c, length (AbstractShot_getJacobianSparsityStructure r c).1 = length r
          ∧ length (AbstractShot_getJacobianSparsityStructure r c).2
            = length c) →
  Forall (λ shot, stateDim ms ≤ SingleShot_getFlatProblemDim shot)
    (drop 1 (mShots ms)) →
  MultiShot_getNumberNonZeroJacobian ms = Some nnz →
  length rows0 = nnz → length cols0 = nnz →
  ∃ rows columns,
    MultiShot_getJacobianSparsityStructure ms rows0 cols0
    = Some (rows, columns)
    ∧ length rows = nnz ∧ length columns = nnz
    ∧ NoDup (zip rows columns)
    ∧ Forall (λ e, e.1 < MultiShot_getConstraintDim ms
                   ∧ e.2 < MultiShot_getFlatProblemDim ms)
        (zip rows columns).
Proof.
  intros Hdim Hpnnz Hpstruct Hlater Hnnz Hrows Hcols.
  set (sd := stateDim ms) in *.
  set (shots := take (length (mShots ms) - 1) (mShots ms)).
  set (idx := knot_indices sd shots 0 0).
  assert (mShots ms ≠ []) as Hne.
  { intros Hnil. unfold MultiShot_getNumberNonZeroJacobian in Hnnz.
    by rewrite Hnil in Hnnz. }
  rewrite getNumberNonZeroJacobian_eq, Hpnnz in Hnnz by done.
  injection Hnnz as Hnnz. fold sd in Hnnz. fold shots in Hnnz.
  change (λ shot : SingleShot F, SingleShot_getFlatProblemDim shot * sd + sd)
    with (@pair_count F sd) in Hnnz.
  assert (length idx = nnz) as Hidx
    by (unfold idx; rewrite length_knot_indices; lia).
  exists idx.*1, idx.*2. rewrite zip_fst_snd, !length_fmap. split_and!.
  - apply structure_indices; try done; fold sd shots idx; lia.
  - done.
  - done.
  - apply NoDup_knot_indices.
  - apply Forall_forall. intros e He.
    apply elem_of_knot_indices in He as [Hr Hc].
    assert (length shots = length (mShots ms) - 1) as Hshots
      by (unfold shots; rewrite length_take; lia).
    unfold MultiShot_getConstraintDim. rewrite Hdim. fold sd.
    split; [rewrite Hshots in Hr; lia|].
    rewrite MultiShot_getFlatProblemDim_sum.
    destruct (decide (length shots = 0)) as [Hz|Hnz].
    { destruct shots; [|done]. simpl in Hr. lia. }
    assert (mShots ms = shots ++ drop (length (mShots ms) - 1) (mShots ms))
      as Hsplit by (unfold shots; by rewrite take_drop).
    destruct (drop (length (mShots ms) - 1) (mShots ms)) as [|lst tl] eqn:Hd.
    { apply (f_equal length) in Hd. rewrite length_drop in Hd. simpl in Hd.
      destruct (mShots ms); [done|]. simpl in Hd. lia. }
    assert (sd ≤ SingleShot_getFlatProblemDim lst) as Hlst.
    { rewrite Forall_lookup in Hlater.
      apply (Hlater (length (mShots ms) - 2)).
      rewrite lookup_drop.
      replace (1 + (length (mShots ms) - 2)) with (length (mShots ms) - 1 + 0)
        by lia.
      by rewrite <-lookup_drop, Hd. }
    rewrite Hsplit, fmap_app, sum_list_with_app. unfold shot_dims in Hc. csimpl.
    lia.
Qed.
End WellFormed.

(** ** More worked examples on the point-mass simulator *)

(** *** Rollouts *)

Section RolloutExamples.
#[local] Existing Instance Box.Z_scalar.
Open Scope Z_scope.
Import Rollout.

Lemma setMetadata_then_getMetadata_witness :
  let t := Ref (Real Box.rollout3) 1 2 in
  let t' :=
    Ref (Real (setMetadata_real "loss" (Zero 1 1) Box.rollout3)) 1 2 in
  returned (getMetadata_virtual t' "loss") = Returns (Zero 1 1)
  ∧ printed (getMetadata_virtual t' "loss") = []
  ∧ (∀ key', key' ≠ "loss" →
       returned (getMetadata_virtual t' key')
       = returned (getMetadata_virtual t key'))
  ∧ (∀ name, getPosesConst t' name = getPosesConst t name
             ∧ getVelsConst t' name = getVelsConst t name
             ∧ getForcesConst t' name = getForcesConst t name)
  ∧ getMassesConst t' = getMassesConst t
  ∧ getMappings t' = getMappings t.
Proof.
  apply (setMetadata_then_getMetadata (Ref (Real Box.rollout3) 1 2)).
  reflexivity.
Defined.

Lemma mutable_getters_agree_witness :
  let t := Ref (Ref (Real Box.rollout3) 0 3) 1 2 in
  getPoses t "identity" = getPosesConst t "identity"
  ∧ getVels t "identity" = getVelsConst t "identity"
  ∧ getForces t "identity" = getForcesConst t "identity"
  ∧ getMasses t = getMassesConst t.
Proof. apply mutable_getters_agree. reflexivity. Defined.

Lemma slice_window_witness :
  let m := mkMatrix 1 [[1]; [2]; [3]] in
  ∃ m',
    getPosesConst (sliceConst (Real Box.rollout3) 1 2) "identity" = Returns m'
    ∧ getPosesConst (slice (Real Box.rollout3) 1 2) "identity" = Returns m'
    ∧ well_shaped 1 2 m'
    ∧ ∀ i j, (j < 2)%nat → coeff m' i j = coeff m i (1 + j).
Proof.
  apply (slice_window (Real Box.rollout3) "identity" _ 1 3 1 2).
  - reflexivity.
  - repeat constructor.
  - lia.
Defined.

Lemma slices_show_window_witness :
  let t := ConstRef (Ref (Real Box.rollout3) 1 2) 1 1 in
  let m := mkMatrix 1 [[1]; [2]; [3]] in
  (first_column t + 1 ≤ 3)%nat
  ∧ ∃ m', getPosesConst t "identity" = Returns m' ∧ well_shaped 1 1 m'
          ∧ ∀ i j, (j < 1)%nat → coeff m' i j = coeff m i (first_column t + j).
Proof.
  apply (slices_show_window (ConstRef (Ref (Real Box.rollout3) 1 2) 1 1)
           "identity" (mkMatrix 1 [[1]; [2]; [3]]) 1 3 1).
  - reflexivity.
  - repeat constructor.
  - reflexivity.
Defined.

Lemma slices_show_window_vels_forces_witness :
  let t := ConstRef (Ref (Real Box.rollout3) 1 2) 1 1 in
  let v := mkMatrix 1 [[4]; [5]; [6]] in
  let f := mkMatrix 1 [[7]; [8]; [9]] in
  (∃ v', getVelsConst t "identity" = Returns v' ∧ well_shaped 1 1 v'
         ∧ ∀ i j, (j < 1)%nat → coeff v' i j = coeff v i (first_column t + j))
  ∧ (∃ f', getForcesConst t "identity" = Returns f' ∧ well_shaped 1 1 f'
           ∧ ∀ i j, (j < 1)%nat →
               coeff f' i j = coeff f i (first_column t + j)).
Proof.
  apply (slices_show_window_vels_forces
           (ConstRef (Ref (Real Box.rollout3) 1 2) 1 1) "identity"
           (mkMatrix 1 [[4]; [5]; [6]]) (mkMatrix 1 [[7]; [8]; [9]]) 1 1 3 1).
  - reflexivity.
  - repeat constructor.
  - reflexivity.
  - repeat constructor.
  - reflexivity.
Defined.

Lemma copy_shows_the_same_witness :
  let t := Ref (Real Box.rollout3) 1 2 in
  ∃ r',
    copy t = Returns r'
    ∧ mRepresentationMapping r' = getRepresentationMapping t
    ∧ mMappings r' = getMappings t
    ∧ getMassesConst t = Returns (mMasses r')
    ∧ mMetadata r' = getMetadataMap t
    ∧ (∀ key, key ∈ getMappings t →
         getPosesConst t key = getPosesConst (Real r') key
         ∧ getVelsConst t key = getVelsConst (Real r') key
         ∧ getForcesConst t key = getForcesConst (Real r') key)
    ∧ (∀ key, key ∉ getMappings t →
         mPoses r' !! key = None ∧ mVels r' !! key = None
         ∧ mForces r' !! key = None).
Proof.
  eexists. split; [reflexivity|].
  apply (copy_shows_the_same (Ref (Real Box.rollout3) 1 2)). reflexivity.
Defined.

Lemma copy_of_owning_witness : copy (Real Box.rollout3) = Returns Box.rollout3.
Proof.
  apply copy_of_owning. repeat split; vm_compute; reflexivity.
Defined.


End RolloutExamples.

(** *** Flat vectors *)

Section MoreExamples.
#[local] Existing Instances Box.Z_scalar Box.simulator Box.kernels Box.members
  Z_laws.
Open Scope Z_scope.

Lemma Box_bounds_length :
  (∀ s seg, length (SingleShot_getUpperBounds Box.world0 s seg) = length seg)
  ∧ (∀ s seg, length (SingleShot_getLowerBounds Box.world0 s seg) = length seg)
  ∧ (∀ s seg,
       length (SingleShot_getInitialGuess Box.world0 s seg) = length seg).
Proof.
  split_and!; intros s seg; simpl.
  - apply length_replicate.
  - apply length_replicate.
  - apply length_SingleShot_flatten.
Qed.

Lemma MultiShot_fill_per_shot_witness :
  let ms := Box.three_shots in
  let flat := replicate 12 0 in
  let shot := Box.shot1 true 5 6 [3; 4] in
  let o := flat_offset ms 1 in
  let d := SingleShot_getFlatProblemDim shot in
  segment (MultiShot_flatten ms flat) o d
  = SingleShot_flatten shot (segment flat o d)
  ∧ segment (MultiShot_getUpperBounds ms Box.world0 flat) o d
    = SingleShot_getUpperBounds Box.world0 shot (segment flat o d)
  ∧ segment (MultiShot_getLowerBounds ms Box.world0 flat) o d
    = SingleShot_getLowerBounds Box.world0 shot (segment flat o d)
  ∧ segment (MultiShot_getInitialGuess ms Box.world0 flat) o d
    = SingleShot_getInitialGuess Box.world0 shot (segment flat o d).
Proof.
  apply (MultiShot_fill_per_shot Box.three_shots Box.world0 (replicate 12 0) 1
           (Box.shot1 true 5 6 [3; 4])).
  - apply Box_bounds_length.
  - apply Box_bounds_length.
  - apply Box_bounds_length.
  - vm_compute. lia.
  - reflexivity.
Defined.

Lemma MultiShot_fill_frame_witness :
  let ms := Box.three_shots in
  let flat := replicate 12 7 in
  let n := MultiShot_getFlatProblemDim ms in
  (length (MultiShot_flatten ms flat) = length flat
   ∧ drop n (MultiShot_flatten ms flat) = drop n flat)
  ∧ (length (MultiShot_getUpperBounds ms Box.world0 flat) = length flat
     ∧ drop n (MultiShot_getUpperBounds ms Box.world0 flat) = drop n flat)
  ∧ (length (MultiShot_getLowerBounds ms Box.world0 flat) = length flat
     ∧ drop n (MultiShot_getLowerBounds ms Box.world0 flat) = drop n flat)
  ∧ (length (MultiShot_getInitialGuess ms Box.world0 flat) = length flat
     ∧ drop n (MultiShot_getInitialGuess ms Box.world0 flat) = drop n flat).
Proof.
  apply (MultiShot_fill_frame Box.three_shots Box.world0 (replicate 12 7)).
  - apply Box_bounds_length.
  - apply Box_bounds_length.
  - apply Box_bounds_length.
  - vm_compute. lia.
Defined.


(** *** States *)

(** The states of a shot of the point-mass simulator fill blocks of one row
    and one column per step. *)
Lemma Box_states_shapes w tune p0 v0 forces :
  keeps_shapes (Box.states w) (mkMapping 1 1 1) (Box.shot1 tune p0 v0 forces).
Proof.
  intros p v f c (Hp & _ & _) (Hv & _ & _) (Hf & _ & _). subst c.
  unfold Box.states, Box.unroll, Box.shot1, SingleShot_getNumSteps. simpl.
  rewrite take_ge by (by rewrite length_fmap).
  assert (∀ fs w0,
    length (Box.trace w0 ((λ x, [x]) <$> fs)) = length fs
    ∧ (length (Box.w_pos w0) = 1%nat → length (Box.w_vel w0) = 1%nat →
       Forall (λ w', length (Box.w_pos w') = 1%nat
                     ∧ length (Box.w_vel w') = 1%nat)
         (Box.trace w0 ((λ x, [x]) <$> fs)))) as Htrace.
  { induction fs as [|x fs IH]; intros w0; csimpl; [by split|].
    split; [by rewrite (proj1 (IH _))|]. intros Hp0 Hv0.
    destruct w0 as [[|a [|? ?]] [|b [|? ?]] fr]; simplify_eq/=.
    constructor; [done|]. by apply IH. }
  destruct (Htrace forces (Box.mkWorld [p0] [v0] (Box.w_frc w)))
    as [Hlen Hall].
  specialize (Hall eq_refl eq_refl).
  split_and!; (split; [done|]); simpl; rewrite ?length_fmap;
    (split; [done|]); apply Forall_fmap.
  - eapply Forall_impl; [exact Hall|]. intros w' [? ?]. simpl. done.
  - eapply Forall_impl; [exact Hall|]. intros w' [? ?]. simpl. done.
  - apply Forall_true. done.
Qed.


Lemma MultiShot_unroll_per_shot_witness :
  let ms := Box.three_shots in
  let out := mkStates (Zero 1 7) (Zero 1 7) (Zero 1 7) in
  states_shaped (mRepresentationMapping ms) 7
    (MultiShot_unroll ms Box.world0 out)
  ∧ (∀ i shot, mShots ms !! i = Some shot →
       states_window (mRepresentationMapping ms)
         (MultiShot_unroll ms Box.world0 out) (step_offset ms i)
         (SingleShot_getNumSteps shot)
       = SingleShot_unroll Box.world0 shot
           (states_window (mRepresentationMapping ms) out
              (step_offset ms i) (SingleShot_getNumSteps shot)))
  ∧ ∀ c w, (sum_list (shot_steps (mShots ms)) ≤ c)%nat →
      states_window (mRepresentationMapping ms)
        (MultiShot_unroll ms Box.world0 out) c w
      = states_window (mRepresentationMapping ms) out c w.
Proof.
  apply (MultiShot_unroll_per_shot Box.three_shots Box.world0
           (mkStates (Zero 1 7) (Zero 1 7) (Zero 1 7)) 7).
  - do 3 (constructor; [apply Box_states_shapes|]). constructor.
  - repeat split; apply well_shaped_Zero.
  - vm_compute. lia.
Defined.


(** *** Names *)

Lemma MultiShot_getFlatDimName_in_range_witness :
  let ms := Box.three_shots in
  ∃ i shot,
    mShots ms !! i = Some shot
    ∧ (Z.of_nat (flat_offset ms i) ≤ 5
       < Z.of_nat (flat_offset ms i)
         + Z.of_nat (SingleShot_getFlatProblemDim shot))
    ∧ MultiShot_getFlatDimName ms 5
      = "Shot " +:+ pretty i +:+ " "
        +:+ SingleShot_getFlatDimName shot (5 - Z.of_nat (flat_offset ms i)).
Proof.
  apply (MultiShot_getFlatDimName_in_range Box.three_shots 5).
  - lia.
  - vm_compute. reflexivity.
Defined.

Lemma MultiShot_getFlatDimName_negative_witness :
  MultiShot_getFlatDimName Box.three_shots (-1)
  = "Shot 0 "
    +:+ SingleShot_getFlatDimName (Box.shot1 false 0 0 [1; 2]) (-1).
Proof.
  apply (MultiShot_getFlatDimName_negative Box.three_shots (-1)
           (Box.shot1 false 0 0 [1; 2])
           [Box.shot1 true 5 6 [3; 4]; Box.shot1 true 7 8 [5; 6]]).
  - lia.
  - reflexivity.
Defined.

(** *** Construction *)

Section Unconstrained.
#[local] Existing Instance Box.no_constraints.

Lemma MultiShot_new_zero_shotLength_witness :
  MultiShot_new (F:=Z) 5 Box.world0 3 0 true = None.
Proof. apply MultiShot_new_zero_shotLength. lia. Defined.




(** *** The sparsity pattern *)

Lemma Jacobian_zero_outside_pattern_witness :
  ∃ dense rows columns,
    MultiShot_backpropJacobian Box.three_shots Box.world0 (Zero 4 10)
    = Some dense
    ∧ MultiShot_getJacobianSparsityStructure Box.three_shots
        (replicate 16 0%nat) (replicate 16 0%nat)
      = Some (rows, columns)
    ∧ ∀ i j, (i < MultiShot_getConstraintDim Box.three_shots)%nat →
        (j < MultiShot_getFlatProblemDim Box.three_shots)%nat →
        (i, j) ∉ zip rows columns → coeff dense i j = Some szero.
Proof.
  apply (Jacobian_zero_outside_pattern Box.three_shots Box.world0
           (Zero 4 10) (replicate 16 0%nat) (replicate 16 0%nat) 16).
  - reflexivity.
  - reflexivity.
  - intros w b Hb. exact Hb.
  - intros r c. split; reflexivity.
  - apply final_state_jacobian_shape.
  - reflexivity.
  - apply well_shaped_Zero.
  - reflexivity.
  - reflexivity.
Defined.

Lemma sparsity_pattern_well_formed_witness :
  ∃ rows columns,
    MultiShot_getJacobianSparsityStructure Box.three_shots
      (replicate 16 0%nat) (replicate 16 0%nat)
    = Some (rows, columns)
    ∧ length rows = 16%nat ∧ length columns = 16%nat
    ∧ NoDup (zip rows columns)
    ∧ Forall (λ e, (e.1 < MultiShot_getConstraintDim Box.three_shots)%nat
                   ∧ (e.2 < MultiShot_getFlatProblemDim Box.three_shots)%nat)
        (zip rows columns).
Proof.
  apply (sparsity_pattern_well_formed Box.three_shots
           (replicate 16 0%nat) (replicate 16 0%nat) 16).
  - reflexivity.
  - reflexivity.
  - intros r c. split; reflexivity.
  - repeat constructor.
  - reflexivity.
  - reflexivity.
  - reflexivity.
Defined.
End Unconstrained.
End MoreExamples.
